(** * Session-token server: a shallow embedding of [src/index.js]

    The server drives a WhatsApp protocol client through a QR or a
    pairing-code login, packs the credential directory of the session into
    a token and sends it to the user.  This development embeds

    - the credential serializer and the token format ([serializeAuthDir],
      [Buffer.toString('base64')], [JSON.stringify]),
    - the session registry and its lifecycle ([startIdleTimer],
      [clearSession], [finalizeSession], [attachSSEToSession]),
    - the HTTP handlers ([GET /events/:id], [POST /qr], [POST /pair]) with
      the protocol-client listeners they install,

    as programs of a small resumption monad that are run by a model of the
    single-threaded event loop, and proves the properties the specification
    states about them. *)

From Stdlib Require Import ZArith NArith Lia Ascii String List.
From Stdlib.Strings Require Import Byte.
From stdpp Require Import gmap strings list fin_maps.

#[local] Arguments String.append : simpl nomatch.

Local Open Scope string_scope.
Local Open Scope list_scope.

(* ===================================================================== *)
(** * Part I: definitions                                                 *)
(* ===================================================================== *)

(** ** Base64, as produced by [buf.toString('base64')]

    A [Buffer] is a list of bytes, a JavaScript string is a [string].  Text
    is kept as its UTF-8 bytes, so that [Buffer.from(payload)] (UTF-8
    encoding) is the identity on the byte sequence. *)

Module Base64.

Definition alphabet : list ascii :=
  list_ascii_of_string
    "ABCDEFGHIJKLMNOPQRSTUVWXYZabcdefghijklmnopqrstuvwxyz0123456789+/".

Definition pad : ascii := "="%char.

Definition enc_char (n : N) : ascii := nth (N.to_nat n) alphabet pad.

Fixpoint index_of (c : ascii) (l : list ascii) (i : N) : option N :=
  match l with
  | [] => None
  | x :: l' => if Ascii.eqb c x then Some i else index_of c l' (N.succ i)
  end.

Definition dec_char (c : ascii) : option N := index_of c alphabet 0%N.

Definition byte_of_N (n : N) : byte :=
  match Byte.of_N n with Some b => b | None => x00 end.

(** Three octets are cut into four groups of six bits. *)
Definition sextets (a b c : N) : N * N * N * N :=
  (N.shiftr a 2,
   N.lor (N.shiftl (N.land a 3) 4) (N.shiftr b 4),
   N.lor (N.shiftl (N.land b 15) 2) (N.shiftr c 6),
   N.land c 63)%N.

Definition octets (s1 s2 s3 s4 : N) : N * N * N :=
  (N.lor (N.shiftl s1 2) (N.shiftr s2 4),
   N.lor (N.shiftl (N.land s2 15) 4) (N.shiftr s3 2),
   N.lor (N.shiftl (N.land s3 3) 6) s4)%N.

Fixpoint encode (bs : list byte) : string :=
  match bs with
  | [] => ""
  | [a] =>
      let '(s1, s2, _, _) := sextets (Byte.to_N a) 0 0 in
      String (enc_char s1) (String (enc_char s2) "==")
  | [a; b] =>
      let '(s1, s2, s3, _) := sextets (Byte.to_N a) (Byte.to_N b) 0 in
      String (enc_char s1) (String (enc_char s2) (String (enc_char s3) "="))
  | a :: b :: c :: rest =>
      let '(s1, s2, s3, s4) :=
        sextets (Byte.to_N a) (Byte.to_N b) (Byte.to_N c) in
      String (enc_char s1) (String (enc_char s2)
        (String (enc_char s3) (String (enc_char s4) (encode rest))))
  end.

Definition is_empty (s : string) : bool :=
  match s with "" => true | _ => false end.

(** The decoder a consumer of the token applies: groups of four
    characters, padding only in the last group. *)
Fixpoint decode (s : string) : option (list byte) :=
  match s with
  | "" => Some []
  | String c1 (String c2 (String c3 (String c4 rest))) =>
      match dec_char c1, dec_char c2 with
      | Some s1, Some s2 =>
          if Ascii.eqb c4 pad then
            if negb (is_empty rest) then None
            else if Ascii.eqb c3 pad then
              let '(a, _, _) := octets s1 s2 0 0 in Some [byte_of_N a]
            else
              match dec_char c3 with
              | Some s3 =>
                  let '(a, b, _) := octets s1 s2 s3 0 in
                  Some [byte_of_N a; byte_of_N b]
              | None => None
              end
          else
            match dec_char c3, dec_char c4, decode rest with
            | Some s3, Some s4, Some bs =>
                let '(a, b, c) := octets s1 s2 s3 s4 in
                Some (byte_of_N a :: byte_of_N b :: byte_of_N c :: bs)
            | _, _, _ => None
            end
      | _, _ => None
      end
  | _ => None
  end.

(** Exhaustive checks over bytes, used to prove that [decode] inverts
    [encode]. *)
Definition all_below (n : nat) (P : N -> bool) : bool :=
  forallb P (map N.of_nat (seq 0 n)).

(** The first two sextets give back the first octet and the high half of
    the second; the last two give back the rest. *)
Definition front_ok (a b : N) : bool :=
  let '(s1, s2, _, _) := sextets a b 0 in
  (N.lor (N.shiftl s1 2) (N.shiftr s2 4) =? a)%N
  && (N.land s2 15 =? N.shiftr b 4)%N && (s1 <? 64)%N && (s2 <? 64)%N.

Definition back_ok (b c : N) : bool :=
  let '(_, _, s3, s4) := sextets 0 b c in
  (N.lor (N.shiftl (N.shiftr b 4) 4) (N.shiftr s3 2) =? b)%N
  && (N.lor (N.shiftl (N.land s3 3) 6) s4 =? c)%N
  && (s3 <? 64)%N && (s4 <? 64)%N.

End Base64.

(** ** JSON text of the envelope, as produced by [JSON.stringify]

    Only the shape the server serializes is needed: an object whose values
    are strings, nested once under the key [files]. *)

Module Json.

Definition dquote : ascii := ascii_of_N 34.
Definition backslash : ascii := ascii_of_N 92.

Definition hex_digit (n : N) : ascii :=
  nth (N.to_nat n) (list_ascii_of_string "0123456789abcdef") "0"%char.

(** QuoteJSONString on one code unit: the quote, the backslash and the
    control characters are escaped, everything else is copied. *)
Definition escape_char (c : ascii) : string :=
  let n := N_of_ascii c in
  if (n =? 34)%N then String backslash (String dquote "")
  else if (n =? 92)%N then String backslash (String backslash "")
  else if (n =? 8)%N then String backslash "b"
  else if (n =? 12)%N then String backslash "f"
  else if (n =? 10)%N then String backslash "n"
  else if (n =? 13)%N then String backslash "r"
  else if (n =? 9)%N then String backslash "t"
  else if (n <? 32)%N then
    String backslash
      ("u00" +:+ String (hex_digit (n / 16)) (String (hex_digit (n mod 16)) ""))
  else String c "".

Fixpoint escape (s : string) : string :=
  match s with
  | "" => ""
  | String c s' => escape_char c +:+ escape s'
  end.

Definition quote (s : string) : string :=
  String dquote (escape s +:+ String dquote "").

Fixpoint stringify_members (l : list (string * string)) : string :=
  match l with
  | [] => ""
  | [(k, v)] => quote k +:+ ":" +:+ quote v
  | (k, v) :: l' =>
      quote k +:+ ":" +:+ quote v +:+ "," +:+ stringify_members l'
  end.

Definition stringify_object (l : list (string * string)) : string :=
  "{" +:+ stringify_members l +:+ "}".

(** [JSON.stringify({ files: filesObj })], the members of [filesObj]
    given in the order in which its own keys are enumerated. *)
Definition stringify_envelope (files : list (string * string)) : string :=
  "{" +:+ quote "files" +:+ ":" +:+ stringify_object files +:+ "}".

(** The reader of the envelope (the consumer's [JSON.parse], on compact
    text of this shape). *)
Definition hex_val (c : ascii) : option N :=
  let n := N_of_ascii c in
  if ((48 <=? n) && (n <=? 57))%N then Some (n - 48)%N
  else if ((97 <=? n) && (n <=? 102))%N then Some (n - 87)%N
  else if ((65 <=? n) && (n <=? 70))%N then Some (n - 55)%N
  else None.

Definition utf8_encode (cp : N) : option string :=
  if (cp <? 128)%N then Some (String (ascii_of_N cp) "")
  else if (cp <? 2048)%N then
    Some (String (ascii_of_N (192 + cp / 64))
            (String (ascii_of_N (128 + cp mod 64)) ""))
  else if ((55296 <=? cp) && (cp <=? 57343))%N then None
  else
    Some (String (ascii_of_N (224 + cp / 4096))
            (String (ascii_of_N (128 + (cp / 64) mod 64))
               (String (ascii_of_N (128 + cp mod 64)) ""))).

Definition unescape (e : ascii) : option ascii :=
  let n := N_of_ascii e in
  if (n =? 34)%N then Some dquote
  else if (n =? 92)%N then Some backslash
  else if (n =? 47)%N then Some "/"%char
  else if (n =? 98)%N then Some (ascii_of_N 8)
  else if (n =? 102)%N then Some (ascii_of_N 12)
  else if (n =? 110)%N then Some (ascii_of_N 10)
  else if (n =? 114)%N then Some (ascii_of_N 13)
  else if (n =? 116)%N then Some (ascii_of_N 9)
  else None.

(** The characters of a JSON string after its opening quote: the decoded
    text, and what follows the closing quote. *)
Fixpoint parse_chars (s : string) : option (string * string) :=
  match s with
  | "" => None
  | String c s' =>
      if Ascii.eqb c dquote then Some ("", s')
      else if Ascii.eqb c backslash then
        match s' with
        | "" => None
        | String e s'' =>
            if Ascii.eqb e "u" then
              match s'' with
              | String h1 (String h2 (String h3 (String h4 s3))) =>
                  match hex_val h1, hex_val h2, hex_val h3, hex_val h4 with
                  | Some a, Some b, Some c', Some d =>
                      match utf8_encode (((a * 16 + b) * 16 + c') * 16 + d)%N,
                            parse_chars s3 with
                      | Some u, Some (t, r) => Some (u +:+ t, r)
                      | _, _ => None
                      end
                  | _, _, _, _ => None
                  end
              | _ => None
              end
            else
              match unescape e, parse_chars s'' with
              | Some c', Some (t, r) => Some (String c' t, r)
              | _, _ => None
              end
        end
      else if (N_of_ascii c <? 32)%N then None
      else
        match parse_chars s' with
        | Some (t, r) => Some (String c t, r)
        | None => None
        end
  end.

Definition parse_string (s : string) : option (string * string) :=
  match s with
  | String q s' => if Ascii.eqb q dquote then parse_chars s' else None
  | "" => None
  end.

Fixpoint parse_members (fuel : nat) (s : string)
  : option (list (string * string) * string) :=
  match fuel with
  | O => None
  | S fuel' =>
      match parse_string s with
      | Some (k, String ":" r1) =>
          match parse_string r1 with
          | Some (v, String "," r2) =>
              match parse_members fuel' r2 with
              | Some (l, r3) => Some ((k, v) :: l, r3)
              | None => None
              end
          | Some (v, String "}" r2) => Some ([(k, v)], r2)
          | _ => None
          end
      | _ => None
      end
  end.

Definition parse_object (s : string)
  : option (list (string * string) * string) :=
  match s with
  | String "{" (String "}" r) => Some ([], r)
  | String "{" r => parse_members (String.length r) r
  | _ => None
  end.

Fixpoint strip_prefix (p s : string) : option string :=
  match p, s with
  | "", _ => Some s
  | String a p', String b s' =>
      if Ascii.eqb a b then strip_prefix p' s' else None
  | _, _ => None
  end.

Definition parse_envelope (s : string) : option (list (string * string)) :=
  match strip_prefix ("{" +:+ quote "files" +:+ ":") s with
  | Some r =>
      match parse_object r with
      | Some (l, "}") => Some l
      | _ => None
      end
  | None => None
  end.

End Json.

(** ** The object [out] of [serializeAuthDir]

    An ordinary JavaScript object whose property values are strings: its
    own properties in creation order.  Two features of ordinary objects are
    visible in the token and are kept: assigning a string to [__proto__]
    calls the setter inherited from [Object.prototype], which ignores it,
    and own keys that are array indices are enumerated first, in ascending
    numeric order. *)

Module JsObject.

Definition obj : Type := list (string * string).

Definition has_key (o : obj) (k : string) : bool :=
  existsb (fun kv => String.eqb kv.1 k) o.

(** [o[k] = v] *)
Definition set (o : obj) (k v : string) : obj :=
  if String.eqb k "__proto__" then o
  else if has_key o k then
    map (fun kv => if String.eqb kv.1 k then (k, v) else kv) o
  else o ++ [(k, v)].

Definition digit (c : ascii) : option N :=
  let n := N_of_ascii c in
  if ((48 <=? n) && (n <=? 57))%N then Some (n - 48)%N else None.

Fixpoint digits (s : string) (acc : N) : option N :=
  match s with
  | "" => Some acc
  | String c s' =>
      match digit c with
      | Some d => digits s' (acc * 10 + d)%N
      | None => None
      end
  end.

(** A key is an array index when it is the canonical decimal text of an
    integer below 2^32 - 1. *)
Definition array_index (k : string) : option N :=
  match k with
  | "" => None
  | String "0" "" => Some 0%N
  | String "0" _ => None
  | _ =>
      match digits k 0 with
      | Some n => if (n <? 4294967295)%N then Some n else None
      | None => None
      end
  end.

Fixpoint insert_by_index (e : N * (string * string))
    (l : list (N * (string * string))) : list (N * (string * string)) :=
  match l with
  | [] => [e]
  | x :: l' =>
      if (e.1 <=? x.1)%N then e :: x :: l' else x :: insert_by_index e l'
  end.

Definition sort_by_index (l : list (N * (string * string)))
  : list (N * (string * string)) :=
  foldr insert_by_index [] l.

Definition indexed (o : obj) : list (N * (string * string)) :=
  omap (fun kv => match array_index kv.1 with
                  | Some n => Some (n, kv)
                  | None => None
                  end) o.

Definition named (o : obj) : obj :=
  List.filter (fun kv => match array_index kv.1 with
                         | Some _ => false
                         | None => true
                         end) o.

(** OrdinaryOwnPropertyKeys: the order in which [JSON.stringify] visits
    the properties. *)
Definition own_entries (o : obj) : obj :=
  map snd (sort_by_index (indexed o)) ++ named o.

End JsObject.

(** ** The session registry and the world around it *)

(** A session record: the object stored in the [sessions] map.  A field
    that is [None] (or [false]) is absent from the object. *)
Record Session := mkSession {
  authDir : option string;
  socket : option nat;
  phone : option string;
  sse : option nat;
  credsSaved : bool;
  _idleTimer : option nat
}.

Definition empty_session : Session := mkSession None None None None false None.

Definition set_sse (v : option nat) (s : Session) : Session :=
  mkSession (authDir s) (socket s) (phone s) v (credsSaved s) (_idleTimer s).
Definition set_credsSaved (v : bool) (s : Session) : Session :=
  mkSession (authDir s) (socket s) (phone s) (sse s) v (_idleTimer s).
Definition set_idleTimer (v : option nat) (s : Session) : Session :=
  mkSession (authDir s) (socket s) (phone s) (sse s) (credsSaved s) v.

(** Payload of a server-sent event and of a JSON response. *)
Inductive sse_data :=
| DStatus (status : string) (error : option string)
| DQr (qr : string)
| DPair (pairingCode : string).

Inductive body :=
| JQr (sessionId qr : string)
| JPair (sessionId pairingCode : string)
| JError (error : string) (details : option string).

(** One HTTP exchange: the response object [res] of Express, the
    [resSent] variable of the handler that serves it, and the listener for
    the [close] event of the request. *)
Record Conn := mkConn {
  headersSent : bool;
  sent : list (nat * body);
  written : list (string * sse_data);
  ended : bool;
  resSent : bool;
  on_close : option string
}.

Definition new_conn : Conn := mkConn false [] [] false false None.

(** What a [connection.update] listener closes over. *)
Inductive conn_listener :=
| QrListener (sessionId authDir : string) (res : nat)
| PairListener (sessionId authDir phoneNumber : string) (res : nat).

(** A protocol-client socket, as far as the server looks at it. *)
Record Sock := mkSock {
  ws_ready : bool;
  ws_closed : bool;
  logouts : nat;
  me : option string;
  on_creds : option (string * string);
  on_conn : option conn_listener
}.

Definition new_sock : Sock := mkSock false false 0 None None None.

Inductive level := Info | Warn | Error.

(** The state shared by all tasks of the process: the two maps of the
    server, the session objects they point to, and the environment (the
    credential directories on disk, pending timers, the clock, sockets,
    HTTP exchanges, the log). *)
Record State := mkState {
  sessions : gmap string nat;
  heap : list Session;
  activeByPhone : gmap string string;
  disk : gset string;
  timers : gmap nat (string * Z);
  next_timer : nat;
  now : Z;
  IDLE_TIMEOUT : Z;
  socks : list Sock;
  conns : list Conn;
  log : list (level * string)
}.

Definition init (idle : Z) : State :=
  mkState ∅ [] ∅ ∅ ∅ 0 0 idle [] [] [].

Definition upd_sessions (f : gmap string nat -> gmap string nat) (s : State) :=
  mkState (f (sessions s)) (heap s) (activeByPhone s) (disk s) (timers s)
    (next_timer s) (now s) (IDLE_TIMEOUT s) (socks s) (conns s) (log s).
Definition upd_heap (f : list Session -> list Session) (s : State) :=
  mkState (sessions s) (f (heap s)) (activeByPhone s) (disk s) (timers s)
    (next_timer s) (now s) (IDLE_TIMEOUT s) (socks s) (conns s) (log s).
Definition upd_activeByPhone
    (f : gmap string string -> gmap string string) (s : State) :=
  mkState (sessions s) (heap s) (f (activeByPhone s)) (disk s) (timers s)
    (next_timer s) (now s) (IDLE_TIMEOUT s) (socks s) (conns s) (log s).
Definition upd_disk (f : gset string -> gset string) (s : State) :=
  mkState (sessions s) (heap s) (activeByPhone s) (f (disk s)) (timers s)
    (next_timer s) (now s) (IDLE_TIMEOUT s) (socks s) (conns s) (log s).
Definition upd_timers
    (f : gmap nat (string * Z) -> gmap nat (string * Z)) (n : nat)
    (s : State) :=
  mkState (sessions s) (heap s) (activeByPhone s) (disk s) (f (timers s))
    n (now s) (IDLE_TIMEOUT s) (socks s) (conns s) (log s).
Definition upd_now (t : Z) (s : State) :=
  mkState (sessions s) (heap s) (activeByPhone s) (disk s) (timers s)
    (next_timer s) t (IDLE_TIMEOUT s) (socks s) (conns s) (log s).
Definition upd_socks (f : list Sock -> list Sock) (s : State) :=
  mkState (sessions s) (heap s) (activeByPhone s) (disk s) (timers s)
    (next_timer s) (now s) (IDLE_TIMEOUT s) (f (socks s)) (conns s) (log s).
Definition upd_conns (f : list Conn -> list Conn) (s : State) :=
  mkState (sessions s) (heap s) (activeByPhone s) (disk s) (timers s)
    (next_timer s) (now s) (IDLE_TIMEOUT s) (socks s) (f (conns s)) (log s).
Definition upd_log (f : list (level * string) -> list (level * string))
    (s : State) :=
  mkState (sessions s) (heap s) (activeByPhone s) (disk s) (timers s)
    (next_timer s) (now s) (IDLE_TIMEOUT s) (socks s) (conns s) (f (log s)).

(** ** Asynchronous programs

    An [async] function is a tree of synchronous steps on the state
    ([Act]), suspension points ([Await]: an operation of the environment is
    started and the task waits for its outcome), and calls of other async
    functions whose promise is not awaited ([Fork]).  [Throw] is an
    exception (a rejected promise).  Loops whose exit depends on the clock
    take fuel; [OutOfFuel] only says that the model gave up. *)

(** What a settled operation hands back. *)
Inductive answer :=
| AUnit
| AErr (message : string)
| AStr (s : string)
| ANames (names : list string)
| AStat (isFile : bool)
| ABuf (content : list byte).

(** The operations of the environment a task can wait for. *)
Inductive call :=
| CSleep (due : Z)
| CMkdir (dir : string)
| CRm (dir : string)
| CReaddir (dir : string)
| CStat (path : string)
| CReadFile (path : string)
| CAuthState (dir : string)
| CSaveCreds (dir : string)
| CLogout (sock : nat)
| CToDataURL (qr : string)
| CRequestPairingCode (sock : nat) (phoneNumber : string)
| CSendMessage (sock : nat) (jid text : string).

Inductive prog (A : Type) : Type :=
| Ret (a : A)
| Throw (e : string)
| OutOfFuel
| Act {B : Type} (f : State -> B * State) (k : B -> prog A)
| Await (c : call) (k : answer -> prog A)
| Fork (p : prog unit) (k : prog A).

Arguments Ret {A} a.
Arguments Throw {A} e.
Arguments OutOfFuel {A}.
Arguments Act {A B} f k.
Arguments Await {A} c k.
Arguments Fork {A} p k.

Fixpoint bind {A B : Type} (p : prog A) (g : A -> prog B) : prog B :=
  match p with
  | Ret a => g a
  | Throw e => Throw e
  | OutOfFuel => OutOfFuel
  | Act f k => Act f (fun b => bind (k b) g)
  | Await c k => Await c (fun r => bind (k r) g)
  | Fork p k => Fork p (bind k g)
  end.

#[export] Instance prog_ret : MRet prog := @Ret.
#[export] Instance prog_bind : MBind prog := fun A B g p => bind p g.

(** [try { p } catch (e) { h e }] *)
Fixpoint try_catch {A : Type} (p : prog A) (h : string -> prog A) : prog A :=
  match p with
  | Ret a => Ret a
  | Throw e => h e
  | OutOfFuel => OutOfFuel
  | Act f k => Act f (fun b => try_catch (k b) h)
  | Await c k => Await c (fun r => try_catch (k r) h)
  | Fork p k => Fork p (try_catch k h)
  end.

Definition act {B : Type} (f : State -> B * State) : prog B := Act f Ret.
Definition get {B : Type} (f : State -> B) : prog B := act (fun s => (f s, s)).
Definition put (f : State -> State) : prog unit := act (fun s => (tt, f s)).
Definition skip : prog unit := Ret tt.

(** [await] of an operation: a rejection is thrown at the point of the
    [await]. *)
Definition await (c : call) : prog answer :=
  Await c (fun a => match a with AErr e => Throw e | _ => Ret a end).

(** [promise.catch(() => {})], awaited or not: the outcome is dropped. *)
Definition settle_quietly (c : call) : prog unit := Await c (fun _ => Ret tt).

(** A value used as a condition: the empty string is falsy. *)
Definition truthy (o : option string) : option string :=
  match o with
  | Some "" => None
  | _ => o
  end.

(** *** The primitives the handlers are written with *)

Definition sessions_get (id : string) : prog (option nat) :=
  get (fun s => sessions s !! id).
Definition sessions_set (id : string) (l : nat) : prog unit :=
  put (upd_sessions (insert id l)).
Definition sessions_delete (id : string) : prog unit :=
  put (upd_sessions (delete id)).

Definition activeByPhone_get (p : string) : prog (option string) :=
  get (fun s => activeByPhone s !! p).
Definition activeByPhone_set (p id : string) : prog unit :=
  put (upd_activeByPhone (insert p id)).
Definition activeByPhone_delete (p : string) : prog unit :=
  put (upd_activeByPhone (delete p)).

(** Session objects are shared: the map holds references. *)
Definition new_object (o : Session) : prog nat :=
  act (fun s => (length (heap s), upd_heap (fun h => h ++ [o]) s)).
Definition read (l : nat) : prog Session :=
  get (fun s => default empty_session (heap s !! l)).
Definition modify (l : nat) (f : Session -> Session) : prog unit :=
  put (upd_heap (alter f l)).

Definition Date_now : prog Z := get now.

(** The delay Node gives a timer that was asked for [ms] milliseconds:
    a delay below 1 or above [TIMEOUT_MAX = 2^31 - 1] is replaced by 1.
    Delays are whole numbers of milliseconds here, as is [IDLE_TIMEOUT]. *)
Definition TIMEOUT_MAX : Z := 2147483647.
Definition timer_delay (ms : Z) : Z :=
  if (1 <=? ms)%Z && (ms <=? TIMEOUT_MAX)%Z then ms else 1%Z.

(** [new Promise(r => setTimeout(r, ms))] *)
Definition sleep (ms : Z) : prog unit :=
  t ← Date_now; settle_quietly (CSleep (t + timer_delay ms)%Z).

(** [setTimeout(callback of startIdleTimer(sessionId), IDLE_TIMEOUT)] *)
Definition setTimeout_idle (sessionId : string) : prog nat :=
  act (fun s =>
         let t := next_timer s in
         (t, upd_timers
               (insert t (sessionId, (now s + timer_delay (IDLE_TIMEOUT s))%Z))
               (S t) s)).
Definition clearTimeout (t : nat) : prog unit :=
  act (fun s => (tt, upd_timers (delete t) (next_timer s) s)).

Definition logger (lv : level) (msg : string) : prog unit :=
  put (upd_log (fun l => l ++ [(lv, msg)])).

(** Express response objects and the per-request variable [resSent]. *)
Definition upd_conn (r : nat) (f : Conn -> Conn) : prog unit :=
  put (upd_conns (alter f r)).
Definition conn_of (r : nat) (s : State) : Conn :=
  default new_conn (conns s !! r).

(** [res.status(code).json(b)]: Express refuses to write a response whose
    headers are already sent and throws. *)
Definition res_json (r : nat) (code : nat) (b : body) : prog unit :=
  hs ← get (fun s => headersSent (conn_of r s));
  if hs : bool then Throw "ERR_HTTP_HEADERS_SENT"
  else upd_conn r (fun c =>
         mkConn true (sent c ++ [(code, b)]) (written c) true
           (resSent c) (on_close c)).
Definition res_headersSent (r : nat) : prog bool :=
  get (fun s => headersSent (conn_of r s)).
Definition res_flushHeaders (r : nat) : prog unit :=
  upd_conn r (fun c =>
    mkConn true (sent c) (written c) (ended c) (resSent c) (on_close c)).
Definition res_write (r : nat) (event : string) (data : sse_data) : prog unit :=
  upd_conn r (fun c =>
    if ended c then c
    else mkConn (headersSent c) (sent c) (written c ++ [(event, data)])
           (ended c) (resSent c) (on_close c)).
Definition res_end (r : nat) : prog unit :=
  upd_conn r (fun c =>
    mkConn (headersSent c) (sent c) (written c) true (resSent c) (on_close c)).
Definition get_resSent (r : nat) : prog bool :=
  get (fun s => resSent (conn_of r s)).
Definition set_resSent (r : nat) : prog unit :=
  upd_conn r (fun c =>
    mkConn (headersSent c) (sent c) (written c) (ended c) true (on_close c)).
Definition req_on_close (r : nat) (id : string) : prog unit :=
  upd_conn r (fun c =>
    mkConn (headersSent c) (sent c) (written c) (ended c) (resSent c) (Some id)).

(** The protocol client. *)
Definition upd_sock (k : nat) (f : Sock -> Sock) : prog unit :=
  put (upd_socks (alter f k)).
Definition sock_of (k : nat) (s : State) : Sock :=
  default new_sock (socks s !! k).

Definition makeWASocket : prog nat :=
  act (fun s => (length (socks s), upd_socks (fun l => l ++ [new_sock]) s)).
Definition ev_on_creds (k : nat) (sessionId dir : string) : prog unit :=
  upd_sock k (fun c =>
    mkSock (ws_ready c) (ws_closed c) (logouts c) (me c)
      (Some (sessionId, dir)) (on_conn c)).
Definition ev_on_connection (k : nat) (l : conn_listener) : prog unit :=
  upd_sock k (fun c =>
    mkSock (ws_ready c) (ws_closed c) (logouts c) (me c) (on_creds c) (Some l)).
Definition ws_close (k : nat) : prog unit :=
  upd_sock k (fun c =>
    mkSock false true (logouts c) (me c) (on_creds c) (on_conn c)).
Definition ws_is_open (k : nat) : prog bool :=
  get (fun s => ws_ready (sock_of k s)).
Definition creds_me_id (k : nat) : prog (option string) :=
  get (fun s => me (sock_of k s)).
(** [socket.logout()]: the call is made now, its promise settles later. *)
Definition logout_called (k : nat) : prog unit :=
  upd_sock k (fun c =>
    mkSock (ws_ready c) (ws_closed c) (S (logouts c)) (me c)
      (on_creds c) (on_conn c)).

(** ** The functions of [src/index.js] *)

Definition sendSSE (res : nat) (event : string) (data : sse_data) : prog unit :=
  res_write res event data.

(** [if (sess && sess.sse) sendSSE(sess.sse, event, data)] *)
Definition sendSSE_if (sess : option nat) (event : string) (data : sse_data)
  : prog unit :=
  match sess with
  | None => skip
  | Some l =>
      o ← read l;
      match sse o with
      | Some r => sendSSE r event data
      | None => skip
      end
  end.

Definition cleanupDir (dir : string) : prog unit :=
  try_catch (_ ← await (CRm dir); skip)
    (fun e => logger Warn "cleanup failed").

(** [if (mapped === sessionId) activeByPhone.delete(phone)] *)
Definition unmap_phone (p : option string) (sessionId : string) : prog unit :=
  match truthy p with
  | None => skip
  | Some p =>
      mapped ← activeByPhone_get p;
      if decide (mapped = Some sessionId) then activeByPhone_delete p
      else skip
  end.

(** The callback [startIdleTimer] hands to [setTimeout]. *)
Definition idle_callback (sessionId : string) : prog unit :=
  try_catch
    (s ← sessions_get sessionId;
     match s with
     | None => skip
     | Some s =>
         o ← read s;
         logger Info "session idle timeout, cleaning up";;
         match sse o with
         | Some r =>
             sendSSE r "status" (DStatus "idle_timeout" None);;
             sendSSE r "finished" (DStatus "timeout_cleanup" None);;
             res_end r
         | None => skip
         end;;
         match socket o with
         | Some k =>
             try_catch (logout_called k;; _ ← await (CLogout k); skip)
               (fun _ => skip)
         | None => skip
         end;;
         match socket o with
         | Some k => ws_close k
         | None => skip
         end;;
         match truthy (authDir o) with
         | Some d => cleanupDir d
         | None => skip
         end;;
         sessions_delete sessionId;;
         unmap_phone (phone o) sessionId
     end)
    (fun e => logger Warn "idle cleanup error").

Definition startIdleTimer (sessionId : string) : prog unit :=
  sess ← sessions_get sessionId;
  match sess with
  | None => skip
  | Some sess =>
      o ← read sess;
      match _idleTimer o with
      | Some t => clearTimeout t
      | None => skip
      end;;
      t ← setTimeout_idle sessionId;
      modify sess (set_idleTimer (Some t));;
      sessions_set sessionId sess
  end.

Definition clearSession (sessionId : string) : prog unit :=
  s ← sessions_get sessionId;
  match s with
  | None => skip
  | Some s =>
      o ← read s;
      match _idleTimer o with
      | Some t => clearTimeout t
      | None => skip
      end;;
      match socket o with
      | Some k => ws_close k
      | None => skip
      end;;
      match socket o with
      | Some k => Fork (logout_called k;; settle_quietly (CLogout k)) skip
      | None => skip
      end;;
      match truthy (authDir o) with
      | Some d => Fork (try_catch (cleanupDir d) (fun _ => skip)) skip
      | None => skip
      end;;
      unmap_phone (phone o) sessionId;;
      sessions_delete sessionId
  end.

Definition maxWait : Z := 3000.

(** The fuel given to the two polling loops; the clock ends them long
    before it is used up (see the lifecycle controller in Part II). *)
Definition loop_fuel : nat := 64.

(** The loop of [finalizeSession]:
    [while (!s.credsSaved && Date.now() - start < maxWait)].  The result
    is the session the loop ends with, or [None] when the function
    returned from inside the loop. *)
Fixpoint finalize_wait (fuel : nat) (sessionId : string) (start : Z)
    (s : nat) : prog (option nat) :=
  o ← read s;
  t ← Date_now;
  if negb (credsSaved o) && (t - start <? maxWait)%Z then
    match fuel with
    | O => OutOfFuel
    | S fuel' =>
        sleep 200;;
        s' ← sessions_get sessionId;
        match s' with
        | None => mret None
        | Some s' => finalize_wait fuel' sessionId start s'
        end
    end
  else mret (Some s).

(** What [finalizeSession] does after the loop, on the session [s] the
    loop ended with. *)
Definition finalize_release (sessionId reason : string) (s : nat) : prog unit :=
  o ← read s;
  match socket o with
  | Some k => logout_called k;; settle_quietly (CLogout k)
  | None => skip
  end;;
  o ← read s;
  match socket o with
  | Some k => ws_close k
  | None => skip
  end;;
  o ← read s;
  match truthy (authDir o) with
  | Some d => try_catch (cleanupDir d) (fun _ => skip)
  | None => skip
  end;;
  o ← read s;
  match sse o with
  | Some r =>
      sendSSE r "finished" (DStatus reason None);;
      res_end r
  | None => skip
  end;;
  o ← read s;
  unmap_phone (phone o) sessionId;;
  sessions_delete sessionId.

Definition finalizeSession (sessionId reason : string) : prog unit :=
  s ← sessions_get sessionId;
  match s with
  | None => skip
  | Some s =>
      start ← Date_now;
      s ← finalize_wait loop_fuel sessionId start s;
      match s with
      | None => skip
      | Some s => finalize_release sessionId reason s
      end
  end.

Definition attachSSEToSession (id : string) (res : nat) : prog unit :=
  s ← sessions_get id;
  sess ← match s with
         | Some l => mret l
         | None => new_object empty_session
         end;
  modify sess (set_sse (Some res));;
  sessions_set id sess.

Definition path_join (dir f : string) : string := dir +:+ "/" +:+ f.

(** The loop of [serializeAuthDir].  [out] is mutated in place, so what
    was added before an exception stays in it: the loop hands back the
    object together with the exception that ended it, if any. *)
Fixpoint serialize_files (dir : string) (files : list string)
    (out : JsObject.obj) : prog (JsObject.obj * option string) :=
  match files with
  | [] => mret (out, None)
  | f :: rest =>
      let fp := path_join dir f in
      Await (CStat fp) (fun st =>
        match st with
        | AStat true =>
            Await (CReadFile fp) (fun buf =>
              match buf with
              | ABuf b =>
                  serialize_files dir rest
                    (JsObject.set out f (Base64.encode b))
              | AErr e => mret (out, Some e)
              | _ => mret (out, Some "TypeError")
              end)
        | AStat false => serialize_files dir rest out
        | AErr e => mret (out, Some e)
        | _ => mret (out, Some "TypeError")
        end)
  end.

Definition serializeAuthDir (dir : string) : prog JsObject.obj :=
  Await (CReaddir dir) (fun r =>
    match r with
    | ANames files =>
        '(out, err) ← serialize_files dir files [];
        match err with
        | None => mret out
        | Some _ => logger Warn "serializeAuthDir failed";; mret out
        end
    | _ => logger Warn "serializeAuthDir failed";; mret []
    end).

(** [JSON.stringify({ files: filesObj })] and
    ['SILA_' + Buffer.from(payload).toString('base64')] *)
Definition payload_of (filesObj : JsObject.obj) : string :=
  Json.stringify_envelope (JsObject.own_entries filesObj).

Definition token_of (filesObj : JsObject.obj) : string :=
  "SILA_" +:+ Base64.encode (list_byte_of_string (payload_of filesObj)).

(** *** The HTTP handlers and the listeners they install *)

Inductive connection_state := connecting | open | close.

Record update := mkUpdate {
  connection : option connection_state;
  logged_out : bool;
  qr : option string
}.

Definition auth_path (sessionId : string) : string :=
  path_join "auth" sessionId.

(** [GET /events/:id] and the [close] listener of its request. *)
Definition get_events (id : string) (res : nat) : prog unit :=
  res_flushHeaders res;;
  attachSSEToSession id res;;
  sendSSE res "status" (DStatus "waiting" None);;
  req_on_close res id.

Definition events_closed (id : string) (res : nat) : prog unit :=
  sess ← sessions_get id;
  match sess with
  | Some l => modify l (set_sse None)
  | None => skip
  end;;
  res_end res.

(** The [creds.update] listener of both flows. *)
Definition creds_update (sessionId dir : string) : prog unit :=
  _ ← await (CSaveCreds dir);
  sess ← sessions_get sessionId;
  match sess with
  | Some l => modify l (set_credsSaved true)
  | None => skip
  end.

(** An awaited operation that resolves with a string. *)
Definition await_str (c : call) : prog string :=
  a ← await c;
  match a with
  | AStr v => mret v
  | _ => Throw "TypeError"
  end.

(** What both listeners do once the connection is open: build the token,
    work out the recipient, send, report on the stream. *)
Definition deliver_token (sess : option nat) (k : nat) (dir : string)
    (recipient : prog (option string)) : prog unit :=
  filesObj ← serializeAuthDir dir;
  let token := token_of filesObj in
  jid ← recipient;
  match truthy jid with
  | Some jid =>
      try_catch
        (_ ← await (CSendMessage k jid token);
         sendSSE_if sess "status" (DStatus "token_sent" None))
        (fun e =>
           logger Warn "failed to send token via WA";;
           sendSSE_if sess "status" (DStatus "token_failed" (Some e)))
  | None => sendSSE_if sess "status" (DStatus "no_jid" None)
  end.

Definition log_closed (u : update) : prog unit :=
  match connection u with
  | Some close => logger Info "connection closed"
  | _ => skip
  end.

(** The [connection.update] listener of [POST /qr]. *)
Definition qr_connection_update (sessionId dir : string) (k res : nat)
    (u : update) : prog unit :=
  startIdleTimer sessionId;;
  sess ← sessions_get sessionId;
  sent_already ← get_resSent res;
  match truthy (qr u), sent_already with
  | Some q, false =>
      try_catch
        (dataUrl ← await_str (CToDataURL q);
         res_json res 200 (JQr sessionId dataUrl);;
         set_resSent res;;
         sendSSE_if sess "qr" (DQr dataUrl))
        (fun e =>
           logger Warn "failed generating qr dataurl";;
           sent_now ← get_resSent res;
           if sent_now : bool then skip
           else
             try_catch (res_json res 500 (JError "failed to generate qr" None))
               (fun _ => skip);;
             set_resSent res)
  | _, _ => skip
  end;;
  match connection u with
  | Some open =>
      logger Info "connection opened";;
      sendSSE_if sess "status" (DStatus "connected" None);;
      deliver_token sess k dir (creds_me_id k);;
      finalizeSession sessionId "done"
  | _ => skip
  end;;
  log_closed u.

(** The [try] block of [POST /qr] with its [catch].  Inside the [try]
    only [useMultiFileAuthState] is taken to fail, so [socket] is still
    undefined whenever the [catch] block runs and its last statement
    ([if (socket) ...]) does nothing. *)
Definition start_qr_session (sessionId dir : string) (res : nat) : prog unit :=
  try_catch
    (_ ← await (CAuthState dir);
     k ← makeWASocket;
     ev_on_creds k sessionId dir;;
     l ← new_object (mkSession (Some dir) (Some k) None None false None);
     sessions_set sessionId l;;
     startIdleTimer sessionId;;
     ev_on_connection k (QrListener sessionId dir res))
    (fun err =>
       logger Error "QR flow failed";;
       hs ← res_headersSent res;
       (if hs : bool then skip
        else try_catch
               (res_json res 500 (JError "failed to start qr session" None))
               (fun _ => skip));;
       cleanupDir dir).

(** [POST /qr]; [sessionId] is what [randomUUID()] returned.  The
    directory is created before the [try] block is entered. *)
Definition post_qr (sessionId : string) (res : nat) : prog unit :=
  let dir := auth_path sessionId in
  _ ← await (CMkdir dir);
  start_qr_session sessionId dir res.

(** [waitForWsOpen] of [POST /pair] *)
Fixpoint waitForWsOpen (fuel : nat) (k : nat) (start timeout : Z) : prog bool :=
  t ← Date_now;
  if (t - start <? timeout)%Z then
    ready ← ws_is_open k;
    if ready : bool then mret true
    else
      match fuel with
      | O => OutOfFuel
      | S fuel' => sleep 200;; waitForWsOpen fuel' k start timeout
      end
  else mret false.

(** [hay.includes(needle)] *)
Fixpoint includes (needle hay : string) : bool :=
  match Json.strip_prefix needle hay with
  | Some _ => true
  | None =>
      match hay with
      | "" => false
      | String _ hay' => includes needle hay'
      end
  end.

(** [requestPairingCode], tried again once after [Connection Closed]. *)
Definition request_code (k : nat) (phoneNumber : string) : prog string :=
  try_catch (await_str (CRequestPairingCode k phoneNumber))
    (fun msg =>
       if includes "Connection Closed" msg then
         logger Warn
           "requestPairingCode failed with Connection Closed, retrying once";;
         sleep 1000;;
         await_str (CRequestPairingCode k phoneNumber)
       else Throw msg).

(** The [connection.update] listener of [POST /pair]. *)
Definition pair_connection_update (sessionId dir phoneNumber : string)
    (k res : nat) (u : update) : prog unit :=
  startIdleTimer sessionId;;
  sess ← sessions_get sessionId;
  sent_already ← get_resSent res;
  match connection u, truthy (qr u), sent_already with
  | Some connecting, _, false | _, Some _, false =>
      start ← Date_now;
      ready ← waitForWsOpen loop_fuel k start 5000;
      (if ready : bool then skip
       else logger Warn
              "ws not ready before requesting pairing code, will attempt anyway");;
      try_catch
        (code ← request_code k phoneNumber;
         sent_now ← get_resSent res;
         (if sent_now : bool then skip
          else res_json res 200 (JPair sessionId code);; set_resSent res);;
         sendSSE_if sess "pair" (DPair code))
        (fun e =>
           logger Warn "requestPairingCode failed";;
           sent_now ← get_resSent res;
           if sent_now : bool then skip
           else
             try_catch
               (res_json res 500
                  (JError "failed request pairing code" (Some e)))
               (fun _ => skip);;
             set_resSent res)
  | _, _, _ => skip
  end;;
  match connection u with
  | Some open =>
      sendSSE_if sess "status" (DStatus "connected" None);;
      deliver_token sess k dir (mret (Some (phoneNumber +:+ "@s.whatsapp.net")));;
      finalizeSession sessionId "done";;
      sessions_delete sessionId;;
      mapped ← activeByPhone_get phoneNumber;
      if decide (mapped = Some sessionId) then activeByPhone_delete phoneNumber
      else skip
  | _ => skip
  end;;
  log_closed u.

(** The [try] block of [POST /pair] with its [catch] (see
    [start_qr_session] for [socket] in the [catch]). *)
Definition start_pair_session (sessionId dir phoneNumber : string) (res : nat)
  : prog unit :=
  try_catch
    (_ ← await (CAuthState dir);
     k ← makeWASocket;
     ev_on_creds k sessionId dir;;
     l ← new_object
           (mkSession (Some dir) (Some k) (Some phoneNumber) None false None);
     sessions_set sessionId l;;
     activeByPhone_set phoneNumber sessionId;;
     startIdleTimer sessionId;;
     ev_on_connection k (PairListener sessionId dir phoneNumber res))
    (fun err =>
       logger Error "Pair flow failed";;
       hs ← res_headersSent res;
       (if hs : bool then skip
        else try_catch
               (res_json res 500
                  (JError "failed to start pairing session" None))
               (fun _ => skip));;
       cleanupDir dir).

(** [POST /pair]; [phoneNumber] is the field of the request body (absent
    when [None]), [sessionId] is what [randomUUID()] returned. *)
Definition post_pair (phoneNumber : option string) (sessionId : string)
    (res : nat) : prog unit :=
  match truthy phoneNumber with
  | None =>
      res_json res 400 (JError "phoneNumber required in E.164 without plus" None)
  | Some phoneNumber =>
      existing ← activeByPhone_get phoneNumber;
      match truthy existing with
      | Some existing =>
          logger Info "clearing previous active pairing session for this phone";;
          clearSession existing
      | None => skip
      end;;
      let dir := auth_path sessionId in
      _ ← await (CMkdir dir);
      start_pair_session sessionId dir phoneNumber res
  end.

(** ** The event loop

    A task runs without interruption up to its next [await]; there it is
    parked with the operation it waits for.  [run] executes one such
    stretch: it returns how the task stopped, the state it left, and how
    the tasks it forked stopped. *)

Inductive status (A : Type) : Type :=
| Finished (a : A)
| Failed (e : string)
| Exhausted
| Blocked (c : call) (k : answer -> prog A).

Arguments Finished {A} a.
Arguments Failed {A} e.
Arguments Exhausted {A}.
Arguments Blocked {A} c k.

Fixpoint run {A : Type} (p : prog A) (s : State)
  : status A * State * list (status unit) :=
  match p with
  | Ret a => (Finished a, s, [])
  | Throw e => (Failed e, s, [])
  | OutOfFuel => (Exhausted, s, [])
  | Act f k => let '(b, s') := f s in run (k b) s'
  | Await c k => (Blocked c k, s, [])
  | Fork p k =>
      let '(st, s', fs) := run p s in
      let '(st', s'', fs') := run k s' in
      (st', s'', fs ++ [st] ++ fs')
  end.

Definition task : Type := call * (answer -> prog unit).

(** The process: the shared state, the parked tasks, and the rejections
    nobody handled. *)
Record World := mkWorld {
  state : State;
  pool : list task;
  unhandled : list string;
  gave_up : bool
}.

Definition parked (l : list (status unit)) : list task :=
  omap (fun st => match st with Blocked c k => Some (c, k) | _ => None end) l.
Definition rejected (l : list (status unit)) : list string :=
  omap (fun st => match st with Failed e => Some e | _ => None end) l.
Definition exhausted (l : list (status unit)) : bool :=
  existsb (fun st => match st with Exhausted => true | _ => false end) l.

(** Start (or resume) a task in a world. *)
Definition spawn (p : prog unit) (w : World) : World :=
  let '(st, s, fs) := run p (state w) in
  let all := fs ++ [st] in
  mkWorld s (pool w ++ parked all) (unhandled w ++ rejected all)
    (gave_up w || exhausted all).

(** How an operation can settle, and what it does to the disk: a timer
    is not early, [mkdir] and [rm] change the disk when they succeed. *)
Definition settles (c : call) (a : answer) (s : State) : option State :=
  match c, a with
  | CSleep due, AUnit => if decide (due <= now s)%Z then Some s else None
  | CMkdir d, AUnit => Some (upd_disk (fun D => D ∪ {[d]}) s)
  | CRm d, AUnit => Some (upd_disk (fun D => D ∖ {[d]}) s)
  | CMkdir _, AErr _ | CRm _, AErr _ => Some s
  | CReaddir _, ANames _ | CReaddir _, AErr _ => Some s
  | CStat _, AStat _ | CStat _, AErr _ => Some s
  | CReadFile _, ABuf _ | CReadFile _, AErr _ => Some s
  | CAuthState _, AUnit | CAuthState _, AErr _ => Some s
  | CSaveCreds _, AUnit | CSaveCreds _, AErr _ => Some s
  | CLogout _, AUnit | CLogout _, AErr _ => Some s
  | CToDataURL _, AStr _ | CToDataURL _, AErr _ => Some s
  | CRequestPairingCode _ _, AStr _ | CRequestPairingCode _ _, AErr _ => Some s
  | CSendMessage _ _ _, AUnit | CSendMessage _ _ _, AErr _ => Some s
  | _, _ => None
  end.

(** What can happen next. *)
Inductive event :=
| Tick (t : Z)
| Settle (i : nat) (a : answer)
| Expire (t : nat)
| GetEvents (id : string)
| PostQr (uuid : string)
| PostPair (phoneNumber : option string) (uuid : string)
| RequestClosed (res : nat)
| CredsUpdate (k : nat)
| ConnectionUpdate (k : nat) (u : update)
| WsReady (k : nat) (ready : bool)
| CredsMe (k : nat) (jid : option string).

(** What an event other than the settling of an operation does: the
    change the environment itself makes to the state (the clock moves, a
    timer is taken off the list, Express allocates the response object of
    a new request, ...) and the code that is then started. *)
Definition react (e : event) (s : State) : option (State * prog unit) :=
  match e with
  | Tick t =>
      if decide (now s <= t)%Z then Some (upd_now t s, skip) else None
  | Settle _ _ => None
  | Expire t =>
      match timers s !! t with
      | Some (sessionId, due) =>
          if decide (due <= now s)%Z then
            Some (upd_timers (delete t) (next_timer s) s,
                  idle_callback sessionId)
          else None
      | None => None
      end
  | GetEvents id =>
      Some (upd_conns (fun l => l ++ [new_conn]) s,
            get_events id (length (conns s)))
  | PostQr uuid =>
      Some (upd_conns (fun l => l ++ [new_conn]) s,
            post_qr uuid (length (conns s)))
  | PostPair phoneNumber uuid =>
      Some (upd_conns (fun l => l ++ [new_conn]) s,
            post_pair phoneNumber uuid (length (conns s)))
  | RequestClosed res =>
      match on_close (conn_of res s) with
      | Some id =>
          Some (upd_conns (alter (fun c =>
                  mkConn (headersSent c) (sent c) (written c) (ended c)
                    (resSent c) None) res) s,
                events_closed id res)
      | None => None
      end
  | CredsUpdate k =>
      match on_creds (sock_of k s) with
      | Some (sessionId, dir) => Some (s, creds_update sessionId dir)
      | None => None
      end
  | ConnectionUpdate k u =>
      match on_conn (sock_of k s) with
      | Some (QrListener sessionId dir res) =>
          Some (s, qr_connection_update sessionId dir k res u)
      | Some (PairListener sessionId dir phoneNumber res) =>
          Some (s, pair_connection_update sessionId dir phoneNumber k res u)
      | None => None
      end
  | WsReady k ready =>
      Some (upd_socks (alter (fun c =>
              mkSock ready (ws_closed c) (logouts c) (me c) (on_creds c)
                (on_conn c)) k) s, skip)
  | CredsMe k jid =>
      Some (upd_socks (alter (fun c =>
              mkSock (ws_ready c) (ws_closed c) (logouts c) jid (on_creds c)
                (on_conn c)) k) s, skip)
  end.

(** One turn of the event loop: an awaited operation settles and its task
    resumes, or something happens and the code that reacts to it runs, up
    to its first [await]. *)
Definition step (e : event) (w : World) : option World :=
  match e with
  | Settle i a =>
      match pool w !! i with
      | Some (c, k) =>
          match settles c a (state w) with
          | Some s =>
              Some (spawn (k a)
                      (mkWorld s (delete i (pool w)) (unhandled w) (gave_up w)))
          | None => None
          end
      | None => None
      end
  | _ =>
      match react e (state w) with
      | Some (s, p) =>
          Some (spawn p (mkWorld s (pool w) (unhandled w) (gave_up w)))
      | None => None
      end
  end.

(** An execution: the events in order, each enabled where it happens. *)
Fixpoint steps (es : list event) (w : World) : option World :=
  match es with
  | [] => Some w
  | e :: es' =>
      match step e w with
      | Some w' => steps es' w'
      | None => None
      end
  end.

Definition boot (idle : Z) : World := mkWorld (init idle) [] [] false.

(** *** Some executions

    A QR login whose credential directory cannot be removed when the
    session is finalized: the request, the directory and the socket are
    set up, a QR code is rendered and returned, the credentials are saved,
    the connection opens, the (empty) directory is serialized, nobody is
    logged in to send the token to, the logout succeeds and [rm] fails. *)
Definition failed_cleanup_run : list event :=
  [ PostQr "u1"; Settle 0 AUnit; Settle 0 AUnit;
    ConnectionUpdate 0 (mkUpdate None false (Some "2@abc"));
    Settle 0 (AStr "data:image/png;base64,AAAA");
    CredsUpdate 0; Settle 0 AUnit;
    ConnectionUpdate 0 (mkUpdate (Some open) false None);
    Settle 0 (ANames []); Settle 0 AUnit; Settle 0 (AErr "EBUSY") ].

(** A second pairing request for a phone whose first session is still
    waiting: the first session is set up, the second request clears it and
    sets up its own, the socket of the second connects, the pairing code
    arrives and is returned.  The logout and the removal of the directory
    of the first session, started by [clearSession], are still under way. *)
Definition superseded_run : list event :=
  [ PostPair (Some "15550001") "A"; Settle 0 AUnit; Settle 0 AUnit;
    PostPair (Some "15550001") "B"; Settle 2 AUnit; Settle 2 AUnit;
    WsReady 1 true;
    ConnectionUpdate 1 (mkUpdate (Some connecting) false None);
    Settle 2 (AStr "ABCD1234") ].

(** The state after the first three events of [superseded_run], as far as
    the registry goes: one pairing session, for one phone. *)
Definition paired_state : State :=
  mkState {[ "A" := 0 ]}
    [mkSession (Some "auth/A") (Some 0) (Some "15550001") None false (Some 0)]
    {[ "15550001" := "A" ]} {[ "auth/A" ]}
    {[ 0 := ("A", 300000%Z) ]} 1 0 300000 [new_sock] [new_conn] [].

(** Two QR codes that arrive one right after the other: both are
    rendered, the first rendering is returned, and the write of the second
    is refused by Express, which the listener logs. *)
Definition overlapping_qr_run : list event :=
  [ PostQr "u1"; Settle 0 AUnit; Settle 0 AUnit;
    ConnectionUpdate 0 (mkUpdate None false (Some "2@abc"));
    ConnectionUpdate 0 (mkUpdate None false (Some "2@def"));
    Settle 0 (AStr "data:image/png;base64,AAAA");
    Settle 0 (AStr "data:image/png;base64,BBBB") ].

(** A QR request whose directory cannot be created. *)
Definition mkdir_denied_run : list event :=
  [ PostQr "u1"; Settle 0 (AErr "EACCES") ].

(** A QR login that succeeds, after which the client opens the event
    stream of the finished session again: the record made for the stream
    is removed when the idle timer of the finished session, which nobody
    cleared, goes off. *)
Definition stale_timer_run : list event :=
  [ PostQr "u1"; Settle 0 AUnit; Settle 0 AUnit;
    CredsUpdate 0; Settle 0 AUnit;
    ConnectionUpdate 0 (mkUpdate (Some open) false None);
    Settle 0 (ANames []); Settle 0 AUnit; Settle 0 AUnit;
    GetEvents "u1";
    Tick 300000; Expire 1 ].

(** A pairing session whose stream was opened twice: the record holds
    the second stream (exchange 2); exchange 1 is the first stream. *)
Definition streamed_state : State :=
  mkState {[ "A" := 0 ]}
    [mkSession (Some "auth/A") (Some 0) (Some "15550001") (Some 2) false
       (Some 0)]
    {[ "15550001" := "A" ]} {[ "auth/A" ]}
    {[ 0 := ("A", 300000%Z) ]} 1 0 300000 [new_sock]
    [ mkConn true [(200, JPair "A" "ABCD1234")] [] true true None;
      mkConn true [] [("status", DStatus "waiting" None)] false false (Some "A");
      mkConn true [] [("status", DStatus "waiting" None)] false false (Some "A") ]
    [].

(** A QR login whose connection opens before any credentials were saved,
    so that [finalizeSession] waits for them.  Its timers fire one
    millisecond late each: the polls end at 201, 402, ..., 2814 ms, and at
    3010 ms the function still sleeps, on a timer due at 3014 ms. *)
Definition late_polls_run : list event :=
  [ PostQr "u1"; Settle 0 AUnit; Settle 0 AUnit;
    ConnectionUpdate 0 (mkUpdate (Some open) false None);
    Settle 0 (ANames []) ]
  ++ flat_map (fun i : nat => [Tick (201 * Z.of_nat i); Settle 0 AUnit])
       (seq 1 14)
  ++ [ Tick 3010 ].

(** The same login on a server whose idle timeout is one second: while
    [finalizeSession] sleeps on its first poll, the idle timer of the
    session goes off and its callback logs out, removes the directory and
    removes the session. *)
Definition vanished_run : list event :=
  [ PostQr "u1"; Settle 0 AUnit; Settle 0 AUnit;
    ConnectionUpdate 0 (mkUpdate (Some open) false None);
    Settle 0 (ANames []);
    Tick 1000; Expire 1; Settle 1 AUnit; Settle 1 AUnit ].

(** Two pairing requests for one phone, the second arriving while the
    first still awaits the creation of its directory: the first request
    goes on and registers its session, then the second does. *)
Definition overlapping_pair_run : list event :=
  [ PostPair (Some "15550001") "A"; PostPair (Some "15550001") "B";
    Settle 0 AUnit; Settle 1 AUnit; Settle 0 AUnit; Settle 0 AUnit ].

(** ** Running one task to its end

    How a task ends, and two ways of following it there: [exec] answers
    every operation at once from a fixed oracle (nothing else happens in
    between), [wp] quantifies over an environment that decides, at each
    [await], the answer and the state the task finds when it resumes. *)

Inductive outcome (A : Type) : Type :=
| Returned (a : A)
| Thrown (e : string)
| GaveUp.

Arguments Returned {A} a.
Arguments Thrown {A} e.
Arguments GaveUp {A}.

(** The result, the final state and the operations that were started.
    A forked task is followed to its end where it is forked. *)
Fixpoint exec {A : Type} (oracle : call -> answer) (p : prog A) (s : State)
  : outcome A * State * list call :=
  match p with
  | Ret a => (Returned a, s, [])
  | Throw e => (Thrown e, s, [])
  | OutOfFuel => (GaveUp, s, [])
  | Act f k => let '(b, s') := f s in exec oracle (k b) s'
  | Await c k =>
      let '(o, s', cs) := exec oracle (k (oracle c)) s in (o, s', c :: cs)
  | Fork p k =>
      let '(_, s', cs) := exec oracle p s in
      let '(o, s'', cs') := exec oracle k s' in
      (o, s'', cs ++ cs')
  end.

(** An environment: for an operation awaited in state [s], the answers it
    may give and the states in which the task may then resume. *)
Definition environment : Type := call -> State -> answer -> State -> Prop.

(** Anything may happen while the task waits, as long as the operation
    settles the way the event loop lets it. *)
Definition any_env : environment :=
  fun c s a s' => exists s1, settles c a s1 = Some s'.

(** Nothing else runs while the task waits, and timers fire when due. *)
Definition quiet_env : environment :=
  fun c s a s' =>
    match c with
    | CSleep due => a = AUnit /\ s' = upd_now due s
    | _ => settles c a s = Some s'
    end.

(** Timers fire when due; otherwise as [any_env]. *)
Definition prompt_env : environment :=
  fun c s a s' =>
    any_env c s a s' /\
    match c with
    | CSleep due => now s' = due
    | _ => True
    end.

(** While the task waits, the session [sid] stays registered with the
    socket and the directory of [o]; anything else may change, the flag
    [credsSaved] included, and timers may be late. *)
Definition steady_env (sid : string) (l : nat) (o : Session) : environment :=
  fun c s a s' =>
    any_env c s a s' /\ sessions s' !! sid = Some l /\
    exists o', heap s' !! l = Some o' /\
               socket o' = socket o /\ authDir o' = authDir o.

(** Every environment considered lets an operation settle only the way
    the event loop does. *)
Definition sound_env (E : environment) : Prop :=
  forall c s a s', E c s a s' -> exists s1, settles c a s1 = Some s'.

Definition trace : Type := list (call * answer).

(** The due times of the timers a task went to sleep on, and the other
    operations it awaited. *)
Definition sleeps (tr : trace) : list Z :=
  omap (fun ca => match ca.1 with CSleep due => Some due | _ => None end) tr.

Definition awaited (tr : trace) : list call :=
  List.filter (fun c => match c with CSleep _ => false | _ => true end)
    (map fst tr).

(** [wp E p Q tr s]: started in [s] after the operations [tr], every
    life of [p] in environment [E] ends in [Q].  A forked task lives its
    own life: only its first stretch, which runs inside the forking task,
    is seen here. *)
Fixpoint wp {A : Type} (E : environment) (p : prog A)
    (Q : trace -> outcome A -> State -> Prop) (tr : trace) (s : State)
  : Prop :=
  match p with
  | Ret a => Q tr (Returned a) s
  | Throw e => Q tr (Thrown e) s
  | OutOfFuel => Q tr GaveUp s
  | Act f k => wp E (k (f s).1) Q tr (f s).2
  | Await c k =>
      forall a s', E c s a s' -> wp E (k a) Q (tr ++ [(c, a)]) s'
  | Fork p k => wp E k Q tr (run p s).1.2
  end.

(** ** Code that ends normally

    [returns E p]: in environment [E], [p] always ends by returning;
    [halts E p]: it always ends, by returning or by throwing (the fuel of
    its loops is never used up). *)
Definition returns {A : Type} (E : environment) (p : prog A) : Prop :=
  forall Q tr s,
    (forall tr' a s', Q tr' (Returned a) s') -> wp E p Q tr s.

Definition halts {A : Type} (E : environment) (p : prog A) : Prop :=
  forall Q tr s,
    (forall tr' o s', o <> GaveUp -> Q tr' o s') -> wp E p Q tr s.

(** ** Invariants of the process

    [keeps I p Q ok s]: in every life of the task [p] started in [s],
    each stretch that starts in a state where [I] holds ends in one, and
    the same is true of the tasks [p] forks.  [ok] says whether the
    current stretch started that way ([ok -> I s] all along), and [Q] is
    what is asked at the end of [p].  A task resumes in an arbitrary
    state, and nothing is assumed about the state in which the values it
    holds were read.  The first stretch of a forked task is part of the
    stretch that forks it. *)
Fixpoint keeps {A : Type} (I : State -> Prop) (p : prog A)
    (Q : Prop -> outcome A -> State -> Prop) (ok : Prop) (s : State) : Prop :=
  match p with
  | Ret a => Q ok (Returned a) s
  | Throw e => Q ok (Thrown e) s
  | OutOfFuel => Q ok GaveUp s
  | Act f k => keeps I (k (f s).1) Q ok (f s).2
  | Await c k => (ok -> I s) /\ forall a s', keeps I (k a) Q (I s') s'
  | Fork p k =>
      keeps I p (fun ok' _ s' => ok' -> I s') False s /\
      keeps I k Q ok (run p s).1.2
  end.

Definition ends_well {A : Type} (I : State -> Prop)
  : Prop -> outcome A -> State -> Prop :=
  fun ok _ s => ok -> I s.

(** A piece of code that keeps [I] wherever it is used. *)
Definition safe {A : Type} (I : State -> Prop) (p : prog A) : Prop :=
  forall Q ok s,
    (ok -> I s) ->
    (forall ok' o s', (ok' -> I s') -> Q ok' o s') ->
    keeps I p Q ok s.

Definition task_safe (I : State -> Prop) (t : task) : Prop :=
  forall a s', keeps I (t.2 a) (ends_well I) (I s') s'.

Definition pool_safe (I : State -> Prop) (w : World) : Prop :=
  Forall (task_safe I) (pool w).

(** An invariant [I] of the states of the process comes with the parked
    code keeping it; a second invariant [I'], which need not hold yet, is
    carried along for the parked code. *)
Definition inv (I I' : State -> Prop) (w : World) : Prop :=
  I (state w) /\ pool_safe I w /\ pool_safe I' w.

(** At most one response has been written to an exchange, and none while
    its headers are unsent. *)
Definition replied_once (c : Conn) : Prop :=
  length (sent c) <= 1 /\ (headersSent c = false -> sent c = []).

Definition responds_once (s : State) : Prop := Forall replied_once (conns s).

(** ** Ids that no flow was given

    The session id a listener was installed for, and the session id a
    request is given by [randomUUID()]. *)
Definition listens_to (l : conn_listener) : string :=
  match l with
  | QrListener sessionId _ _ | PairListener sessionId _ _ _ => sessionId
  end.

Definition issues (e : event) : option string :=
  match e with
  | PostQr uuid | PostPair _ uuid => Some uuid
  | _ => None
  end.

(** Nothing in the process is waiting to act on [id]: no idle timer was
    set for it, no [connection.update] listener was installed for it, and
    no phone is mapped to it. *)
Definition unissued (id : string) (s : State) : Prop :=
  (forall t x, timers s !! t = Some x -> x.1 <> id) /\
  (forall k c l, socks s !! k = Some c -> on_conn c = Some l ->
                 listens_to l <> id) /\
  (forall p v, activeByPhone s !! p = Some v -> v <> id).

(** A record that holds at most a stream. *)
Definition bare (o : Session) : Prop :=
  socket o = None /\ authDir o = None /\ _idleTimer o = None.

(** Every record of the registry is an object of the heap. *)
Definition allocated (s : State) : Prop :=
  forall sid l, sessions s !! sid = Some l -> l < length (heap s).

(** If [id] is in the registry, its record is bare and is the record of
    no other id. *)
Definition record_ok (id : string) (s : State) : Prop :=
  forall l, sessions s !! id = Some l ->
    (exists o, heap s !! l = Some o /\ bare o) /\
    forall sid, sessions s !! sid = Some l -> sid = id.

(** ... and, when [b] is set, [id] is in the registry. *)
Definition lasting (b : bool) (id : string) (s : State) : Prop :=
  unissued id s /\ allocated s /\ record_ok id s /\
  (b = true -> is_Some (sessions s !! id)).

(** Every record of the registry is an object of the heap, and the
    directory of a registered session is the one named after its id. *)
Definition own_dir (s : State) : Prop :=
  allocated s /\
  forall sid l o d,
    sessions s !! sid = Some l -> heap s !! l = Some o ->
    authDir o = Some d -> d = auth_path sid.

(** ** The credential directory as the serializer sees it

    The three file-system operations of [serializeAuthDir], each of which
    may fail ([None]); [fs_stat] tells whether the path is a regular
    file. *)
Record FS := mkFS {
  fs_readdir : string -> option (list string);
  fs_stat : string -> option bool;
  fs_readFile : string -> option (list byte)
}.

Definition fs_answer (fs : FS) (c : call) : answer :=
  match c with
  | CReaddir d =>
      match fs_readdir fs d with Some l => ANames l | None => AErr "ENOENT" end
  | CStat p =>
      match fs_stat fs p with Some b => AStat b | None => AErr "ENOENT" end
  | CReadFile p =>
      match fs_readFile fs p with Some b => ABuf b | None => AErr "EACCES" end
  | _ => AUnit
  end.

(** The regular files directly inside [dir], with their content. *)
Definition regular_file (fs : FS) (dir f : string) : option (list byte) :=
  match fs_stat fs (path_join dir f) with
  | Some true => fs_readFile fs (path_join dir f)
  | _ => None
  end.

Definition is_regular (fs : FS) (dir f : string) : bool :=
  match fs_stat fs (path_join dir f) with
  | Some true => true
  | _ => false
  end.

(** An operation on a direct entry of [dir]. *)
Definition child_call (dir : string) (files : list string) (c : call) : Prop :=
  exists f, f ∈ files /\
    (c = CStat (path_join dir f) \/ c = CReadFile (path_join dir f)).

(** What a token is expected to carry: the regular files among [files],
    base64-encoded. *)
Definition file_entries (fs : FS) (dir : string) (files : list string)
  : JsObject.obj :=
  omap (fun f => match regular_file fs dir f with
                 | Some b => Some (f, Base64.encode b)
                 | None => None
                 end) files.

(** A directory whose first entry cannot be examined (a dangling link,
    or a file removed since the listing was read) and whose second entry
    is a regular file. *)
Definition broken_dir : FS :=
  mkFS (fun d => if String.eqb d "auth/s" then Some ["a"; "creds.json"] else None)
       (fun p => if String.eqb p "auth/s/creds.json" then Some true else None)
       (fun p => if String.eqb p "auth/s/creds.json" then Some [x7b; x7d] else None).

(** A credential directory with two regular files and a subdirectory. *)
Definition sample_dir : FS :=
  mkFS (fun d => if String.eqb d "auth/s"
                 then Some ["creds.json"; "keys"; "pre-key-1.json"] else None)
       (fun p => if String.eqb p "auth/s/keys" then Some false else Some true)
       (fun p => if String.eqb p "auth/s/creds.json" then Some [x7b; x7d]
                 else if String.eqb p "auth/s/pre-key-1.json" then Some [x31]
                 else None).

(** What the loop of [serializeAuthDir] has put into [out] once it has
    gone through [files] without an exception. *)
Definition collect (fs : FS) (dir : string) (files : list string)
    (out : JsObject.obj) : JsObject.obj :=
  foldl (fun o f => match regular_file fs dir f with
                    | Some b => JsObject.set o f (Base64.encode b)
                    | None => o
                    end) out files.

(** The operations the loop starts on an entry. *)
Definition entry_calls (fs : FS) (dir f : string) : list call :=
  if is_regular fs dir f
  then [CStat (path_join dir f); CReadFile (path_join dir f)]
  else [CStat (path_join dir f)].

(** A directory whose second entry cannot be examined, between two
    regular files. *)
Definition partial_dir : FS :=
  mkFS (fun d => if String.eqb d "auth/s"
                 then Some ["pre-key-1.json"; "a"; "creds.json"] else None)
       (fun p => if String.eqb p "auth/s/a" then None else Some true)
       (fun p => if String.eqb p "auth/s/creds.json" then Some [x7b; x7d]
                 else if String.eqb p "auth/s/pre-key-1.json" then Some [x31]
                 else None).

(** A directory with a regular file called [__proto__]. *)
Definition proto_dir : FS :=
  mkFS (fun d => if String.eqb d "auth/s" then Some ["__proto__"] else None)
       (fun _ => Some true)
       (fun _ => Some [x7b; x7d]).

(** ** Reading a token back

    What the consumer of a token does: strip the tag, decode the base64
    text, parse the envelope, decode every entry. *)
Definition decode_entry (kv : string * string) : option (string * list byte) :=
  match Base64.decode kv.2 with
  | Some b => Some (kv.1, b)
  | None => None
  end.

Definition decode_token (token : string) : option (gmap string (list byte)) :=
  match Json.strip_prefix "SILA_" token with
  | Some text =>
      match Base64.decode text with
      | Some bytes =>
          match Json.parse_envelope (string_of_list_byte bytes) with
          | Some entries =>
              match mapM decode_entry entries with
              | Some files =>
                  Some (foldl (fun m kv => <[kv.1 := kv.2]> m) ∅ files)
              | None => None
              end
          | None => None
          end
      | None => None
      end
  | None => None
  end.

(* ===================================================================== *)
(** * Part II: properties                                                 *)
(* ===================================================================== *)

(** ** Base64: decoding inverts encoding *)

Module Base64Facts.
Import Base64.

Lemma all_below_spec n P :
  all_below n P = true -> forall x, (x < N.of_nat n)%N -> P x = true.
Proof.
  unfold all_below. rewrite forallb_forall. intros H x Hx.
  apply H. apply in_map_iff. exists (N.to_nat x). split; [lia|].
  apply in_seq. lia.
Qed.

Lemma bytes2 (P : N -> N -> bool) :
  all_below 256 (fun x => all_below 256 (P x)) = true ->
  forall a b, (a < 256)%N -> (b < 256)%N -> P a b = true.
Proof.
  intros H a b Ha Hb.
  pose proof (all_below_spec _ _ H a Ha) as H1. simpl in H1.
  exact (all_below_spec _ _ H1 b Hb).
Qed.

Lemma dec_enc_char n : (n < 64)%N -> dec_char (enc_char n) = Some n.
Proof.
  intros Hn.
  assert (H : all_below 64 (fun k => match dec_char (enc_char k) with
                                     | Some m => N.eqb m k
                                     | None => false
                                     end) = true)
    by (vm_compute; reflexivity).
  pose proof (all_below_spec _ _ H n Hn) as Hk. simpl in Hk.
  destruct (dec_char (enc_char n)); [|discriminate].
  apply N.eqb_eq in Hk. congruence.
Qed.

Lemma enc_char_not_pad n : (n < 64)%N -> Ascii.eqb (enc_char n) pad = false.
Proof.
  intros Hn.
  assert (H : all_below 64 (fun k => negb (Ascii.eqb (enc_char k) pad)) = true)
    by (vm_compute; reflexivity).
  pose proof (all_below_spec _ _ H n Hn) as Hk. simpl in Hk.
  destruct (Ascii.eqb (enc_char n) pad); [discriminate|reflexivity].
Qed.

Lemma to_N_lt b : (Byte.to_N b < 256)%N.
Proof. pose proof (Byte.to_N_bounded b). lia. Qed.

Lemma byte_of_to_N b : byte_of_N (Byte.to_N b) = b.
Proof. unfold byte_of_N. now rewrite Byte.of_to_N. Qed.

Lemma front_ok_all a b : (a < 256)%N -> (b < 256)%N -> front_ok a b = true.
Proof. apply bytes2. vm_compute. reflexivity. Qed.

Lemma back_ok_all b c : (b < 256)%N -> (c < 256)%N -> back_ok b c = true.
Proof. apply bytes2. vm_compute. reflexivity. Qed.

Lemma octets_sextets a b c :
  (a < 256)%N -> (b < 256)%N -> (c < 256)%N ->
  let '(s1, s2, s3, s4) := sextets a b c in
  octets s1 s2 s3 s4 = (a, b, c) /\
  (s1 < 64)%N /\ (s2 < 64)%N /\ (s3 < 64)%N /\ (s4 < 64)%N.
Proof.
  intros Ha Hb Hc.
  pose proof (front_ok_all a b Ha Hb) as H12.
  pose proof (back_ok_all b c Hb Hc) as H34.
  unfold front_ok, back_ok, sextets in *. unfold octets.
  repeat (apply andb_prop in H12; destruct H12 as [H12 ?]).
  repeat (apply andb_prop in H34; destruct H34 as [H34 ?]).
  repeat match goal with
         | H : (_ =? _)%N = true |- _ => apply N.eqb_eq in H
         | H : (_ <? _)%N = true |- _ => apply N.ltb_lt in H
         end.
  repeat split; try assumption.
  f_equal; [f_equal|]; try assumption.
  match goal with H : N.land _ 15 = _ |- _ => rewrite H end. assumption.
Qed.

Lemma list_ind3 {A} (P : list A -> Prop) :
  P [] -> (forall a, P [a]) -> (forall a b, P [a; b]) ->
  (forall a b c l, P l -> P (a :: b :: c :: l)) ->
  forall l, P l.
Proof.
  intros H0 H1 H2 H3.
  fix IH 1.
  intros [|a [|b [|c l]]]; [exact H0 | apply H1 | apply H2 | apply H3, IH].
Qed.

Theorem decode_encode bs : decode (encode bs) = Some bs.
Proof.
  induction bs as [|a|a b|a b c l IH] using list_ind3.
  - reflexivity.
  - pose proof (octets_sextets _ _ _ (to_N_lt a)
                  (N.lt_0_succ 255) (N.lt_0_succ 255)) as H.
    cbn [encode]. destruct (sextets (to_N a) 0 0) as [[[s1 s2] s3] s4].
    destruct H as (Ho & H1 & H2 & H3 & H4).
    cbn [decode]. rewrite !dec_enc_char by assumption.
    change (Ascii.eqb "=" pad) with true. cbn [is_empty negb].
    unfold octets in *. injection Ho as Ha _ _.
    rewrite Ha, byte_of_to_N. reflexivity.
  - pose proof (octets_sextets _ _ _ (to_N_lt a) (to_N_lt b)
                  (N.lt_0_succ 255)) as H.
    cbn [encode]. destruct (sextets (to_N a) (to_N b) 0) as [[[s1 s2] s3] s4].
    destruct H as (Ho & H1 & H2 & H3 & H4).
    cbn [decode]. rewrite !dec_enc_char by assumption.
    change (Ascii.eqb "=" pad) with true. cbn [is_empty negb].
    rewrite (enc_char_not_pad s3) by assumption.
    unfold octets in *. injection Ho as Ha Hb _.
    rewrite Ha, Hb, !byte_of_to_N. reflexivity.
  - pose proof (octets_sextets _ _ _ (to_N_lt a) (to_N_lt b) (to_N_lt c)) as H.
    cbn [encode].
    destruct (sextets (to_N a) (to_N b) (to_N c)) as [[[s1 s2] s3] s4].
    destruct H as (Ho & H1 & H2 & H3 & H4).
    cbn [decode]. rewrite !dec_enc_char by assumption.
    rewrite (enc_char_not_pad s4) by assumption.
    rewrite IH, Ho, !byte_of_to_N. reflexivity.
Qed.

Example encode_Man : encode [x4d; x61; x6e] = "TWFu".
Proof. reflexivity. Qed.
Example encode_Ma : encode [x4d; x61] = "TWE=".
Proof. reflexivity. Qed.
Example encode_M : encode [x4d] = "TQ==".
Proof. reflexivity. Qed.

End Base64Facts.

(** ** JSON: parsing inverts [JSON.stringify] on the envelope *)

Module JsonFacts.
Import Json.

Lemma app_assoc (a b c : string) : (a +:+ b) +:+ c = a +:+ (b +:+ c).
Proof. induction a as [|x a IH]; cbn [append]; [reflexivity | now f_equal]. Qed.

Lemma parse_chars_escape_char c t s r :
  parse_chars t = Some (s, r) ->
  parse_chars (escape_char c +:+ t) = Some (String c s, r).
Proof.
  intros H.
  destruct c as [[] [] [] [] [] [] [] []];
    match goal with
    | |- context [escape_char ?c] =>
        let e := eval vm_compute in (escape_char c) in
        change (escape_char c) with e
    end;
    cbn; rewrite H; reflexivity.
Qed.

Lemma parse_chars_escape s r :
  parse_chars (escape s +:+ String dquote r) = Some (s, r).
Proof.
  induction s as [|c s IH]; [reflexivity|].
  cbn [escape]. rewrite app_assoc. now apply parse_chars_escape_char.
Qed.

Lemma parse_string_quote s r : parse_string (quote s +:+ r) = Some (s, r).
Proof.
  unfold quote. cbn [append parse_string].
  change (Ascii.eqb dquote dquote) with true.
  cbn iota. rewrite app_assoc. apply parse_chars_escape.
Qed.

Lemma parse_members_stringify l :
  l <> [] -> forall fuel r, (length l <= fuel)%nat ->
  parse_members fuel (stringify_members l +:+ String "}" r) = Some (l, r).
Proof.
  induction l as [|[k v] l IH]; [congruence|]. intros _ fuel r Hf.
  destruct fuel as [|fuel]; [simpl in Hf; lia|].
  destruct l as [|kv l].
  - cbn [stringify_members parse_members].
    rewrite !app_assoc, parse_string_quote. cbn [append].
    rewrite parse_string_quote. reflexivity.
  - change (stringify_members ((k, v) :: kv :: l))
      with (quote k +:+ ":" +:+ quote v +:+ "," +:+ stringify_members (kv :: l)).
    cbn [parse_members].
    rewrite !app_assoc, parse_string_quote. cbn [append].
    rewrite parse_string_quote. cbn [append].
    rewrite IH; [reflexivity | congruence | simpl in *; lia].
Qed.

End JsonFacts.

Module JsonFacts2.
Import Json JsonFacts.

Lemma length_app (a b : string) :
  String.length (a +:+ b) = (String.length a + String.length b)%nat.
Proof. induction a; cbn [append String.length]; lia. Qed.

Lemma length_members_le l r :
  (length l <= String.length (stringify_members l +:+ r))%nat.
Proof.
  rewrite length_app.
  enough (length l <= String.length (stringify_members l))%nat by lia.
  induction l as [|[k v] l IH]; [simpl; lia|].
  destruct l as [|kv l].
  - cbn [stringify_members length]. unfold quote.
    cbn [append String.length]. lia.
  - change (stringify_members ((k, v) :: kv :: l))
      with (quote k +:+ ":" +:+ quote v +:+ "," +:+ stringify_members (kv :: l)).
    rewrite !length_app. cbn [length String.length] in *. lia.
Qed.

Lemma parse_object_members t r :
  parse_object (String "{" (String dquote t +:+ r))
  = parse_members (String.length (String dquote t +:+ r)) (String dquote t +:+ r).
Proof. reflexivity. Qed.

Lemma members_start kv l : exists t, stringify_members (kv :: l) = String dquote t.
Proof.
  destruct kv as [k v].
  destruct l as [|kv' l]; cbn [stringify_members]; unfold quote at 1;
    cbn [append]; eauto.
Qed.

Theorem parse_stringify_envelope l :
  parse_envelope (stringify_envelope l) = Some l.
Proof.
  unfold parse_envelope, stringify_envelope, stringify_object.
  destruct l as [|kv l]; [reflexivity|].
  set (m := stringify_members (kv :: l)).
  change (strip_prefix ("{" +:+ quote "files" +:+ ":")
            ("{" +:+ quote "files" +:+ ":" +:+ ("{" +:+ m +:+ "}") +:+ "}"))
    with (Some (("{" +:+ m +:+ "}") +:+ "}")).
  cbn [append]. rewrite app_assoc. cbn [append].
  destruct (members_start kv l) as [t Ht]. fold m in Ht.
  assert (Hp : parse_members (String.length (m +:+ String "}" "}"))
                 (m +:+ String "}" "}") = Some (kv :: l, "}")).
  { subst m. apply parse_members_stringify; [discriminate|].
    apply length_members_le. }
  rewrite Ht in *. rewrite parse_object_members, Hp. reflexivity.
Qed.

End JsonFacts2.

(** ** The object [out]: membership and enumeration order *)

Module JsObjectFacts.
Import JsObject.

Lemma elem_of_set o k v kv :
  kv ∈ set o k v -> kv ∈ o \/ kv = (k, v).
Proof.
  unfold set. destruct (String.eqb k "__proto__"); [auto|].
  destruct (has_key o k).
  - intros H. apply list_elem_of_fmap in H as (x & -> & Hx).
    destruct (String.eqb x.1 k); auto.
  - intros H. apply elem_of_app in H as [H|H]; [auto|].
    apply list_elem_of_singleton in H. auto.
Qed.

Lemma has_key_false o k : k ∉ o.*1 -> has_key o k = false.
Proof.
  intros H. unfold has_key. apply not_true_is_false. intros He.
  apply existsb_exists in He as (x & Hx & Hk).
  apply String.eqb_eq in Hk. apply H. subst k.
  apply list_elem_of_fmap. exists x. split; [reflexivity|].
  now apply list_elem_of_In.
Qed.

Lemma set_fresh o k v :
  k <> "__proto__" -> k ∉ o.*1 -> set o k v = o ++ [(k, v)].
Proof.
  intros Hp Hk. unfold set.
  destruct (String.eqb_spec k "__proto__"); [contradiction|].
  now rewrite has_key_false.
Qed.

Lemma insert_by_index_perm e l : insert_by_index e l ≡ₚ e :: l.
Proof.
  induction l as [|x l IH]; [reflexivity|]. cbn [insert_by_index].
  destruct (e.1 <=? x.1)%N; [reflexivity|].
  rewrite IH. apply Permutation_swap.
Qed.

Lemma sort_by_index_perm l : sort_by_index l ≡ₚ l.
Proof.
  induction l as [|x l IH]; [reflexivity|].
  cbn [sort_by_index foldr]. rewrite insert_by_index_perm.
  now apply Permutation_skip.
Qed.

Lemma split_perm o : map snd (indexed o) ++ named o ≡ₚ o.
Proof.
  induction o as [|kv o IH]; [reflexivity|].
  unfold indexed, named in *. cbn [omap list_omap List.filter].
  destruct (array_index kv.1); cbn [map snd fmap list_fmap app].
  - now apply Permutation_skip.
  - rewrite <- Permutation_middle. now apply Permutation_skip.
Qed.

(** Enumeration visits every own property exactly once. *)
Theorem own_entries_perm o : own_entries o ≡ₚ o.
Proof.
  unfold own_entries. etransitivity; [|apply split_perm].
  apply Permutation_app_tail, Permutation_map, sort_by_index_perm.
Qed.

Example own_entries_order :
  own_entries [("creds.json", "a"); ("10", "b"); ("2", "c"); ("01", "d")]
  = [("2", "c"); ("10", "b"); ("creds.json", "a"); ("01", "d")].
Proof. reflexivity. Qed.

Example set_proto : set [("a", "x")] "__proto__" "y" = [("a", "x")].
Proof. reflexivity. Qed.

Lemma elem_of_set_own o k v kv :
  kv ∈ set o k v -> kv ∈ o \/ (kv = (k, v) /\ k <> "__proto__").
Proof.
  destruct (decide (k = "__proto__")) as [->|Hk]; [now left|].
  intros H. apply elem_of_set in H as [H|H]; auto.
Qed.

Lemma set_keeps o k v k' v' :
  (k, v) ∈ o -> k <> k' -> (k, v) ∈ set o k' v'.
Proof.
  intros H Hne. unfold set. destruct (String.eqb k' "__proto__"); [exact H|].
  destruct (has_key o k').
  - apply list_elem_of_fmap. exists (k, v). split; [|exact H]. cbn.
    destruct (String.eqb_spec k k'); [contradiction | reflexivity].
  - apply elem_of_app. now left.
Qed.

Lemma set_has o k v : k <> "__proto__" -> (k, v) ∈ set o k v.
Proof.
  intros Hk. unfold set.
  destruct (String.eqb_spec k "__proto__"); [contradiction|].
  destruct (has_key o k) eqn:Hh.
  - unfold has_key in Hh. apply existsb_exists in Hh as (x & Hx & Hxk).
    apply list_elem_of_fmap. exists x. rewrite Hxk.
    split; [reflexivity | now apply list_elem_of_In].
  - apply elem_of_app. right. apply list_elem_of_singleton. reflexivity.
Qed.

End JsObjectFacts.

(** ** Following a task with [exec] *)

Lemma exec_bind {A B : Type} (o : call -> answer) (p : prog A) (g : A -> prog B) s :
  exec o (p ≫= g) s =
  let '(r, s', cs) := exec o p s in
  match r with
  | Returned a => let '(r', s'', cs') := exec o (g a) s' in (r', s'', cs ++ cs')
  | Thrown e => (Thrown e, s', cs)
  | GaveUp => (GaveUp, s', cs)
  end.
Proof.
  change (p ≫= g) with (bind p g).
  revert g s.
  induction p as [A a|A e|A|A B' f k IH|A c k IH|A p1 IH1 p2 IH2];
    intros g s; cbn [bind exec].
  - destruct (exec o (g a) s) as [[r s'] cs]. reflexivity.
  - reflexivity.
  - reflexivity.
  - destruct (f s) as [b s']. apply IH.
  - rewrite IH. destruct (exec o (k (o c)) s) as [[r s'] cs].
    destruct r as [a|e|]; [|reflexivity|reflexivity].
    destruct (exec o (g a) s') as [[r' s''] cs']. reflexivity.
  - destruct (exec o p1 s) as [[r1 s1] cs1]. rewrite IH2.
    destruct (exec o p2 s1) as [[r s'] cs].
    destruct r as [a|e|]; [|reflexivity|reflexivity].
    destruct (exec o (g a) s') as [[r' s''] cs']. now rewrite app_assoc.
Qed.

(** ** The serializer *)

Module SerializerFacts.

Lemma child_call_cons dir f files c :
  child_call dir files c -> child_call dir (f :: files) c.
Proof. intros (g & Hg & Hc). exists g. split; [now right | assumption]. Qed.

(** Whatever the file system answers, the loop ends normally, touches only
    the entries of the listing, and adds to [out] only regular files with
    their encoded content. *)
Lemma exec_serialize_files fs dir files :
  forall out s, exists out' err cs,
    exec (fs_answer fs) (serialize_files dir files out) s
    = (Returned (out', err), s, cs) /\
    (forall kv, kv ∈ out' ->
       kv ∈ out \/
       (kv.1 ∈ files /\ fs_stat fs (path_join dir kv.1) = Some true /\
        exists b, fs_readFile fs (path_join dir kv.1) = Some b /\
                  kv.2 = Base64.encode b)) /\
    Forall (child_call dir files) cs.
Proof.
  induction files as [|f files IH]; intros out s.
  - exists out, None, []. cbn. repeat split; auto.
  - cbn [serialize_files exec fs_answer].
    destruct (fs_stat fs (path_join dir f)) as [[|]|] eqn:Hst.
    + cbn [exec fs_answer].
      destruct (fs_readFile fs (path_join dir f)) as [b|] eqn:Hrd.
      * destruct (IH (JsObject.set out f (Base64.encode b)) s)
          as (out' & err & cs & -> & Hin & Hcs).
        exists out', err, (CStat (path_join dir f) :: CReadFile (path_join dir f) :: cs).
        split; [reflexivity|]. split.
        -- intros kv Hkv. destruct (Hin kv Hkv) as [H|(H1 & H2 & H3)].
           ++ apply JsObjectFacts.elem_of_set in H as [H| ->]; [now left|].
              right. cbn. split; [left|]. eauto.
           ++ right. split; [now right | eauto].
        -- repeat constructor.
           ++ exists f. split; [left | auto].
           ++ exists f. split; [left | auto].
           ++ eapply Forall_impl; [exact Hcs|]. intros c. apply child_call_cons.
      * exists out, (Some "EACCES"),
          [CStat (path_join dir f); CReadFile (path_join dir f)].
        cbn. split; [reflexivity|]. split; [auto|].
        repeat constructor; exists f; (split; [left | auto]).
    + destruct (IH out s) as (out' & err & cs & -> & Hin & Hcs).
      exists out', err, (CStat (path_join dir f) :: cs).
      split; [reflexivity|]. split.
      * intros kv Hkv. destruct (Hin kv Hkv) as [H|(H1 & H2)]; [now left|].
        right. split; [now right | assumption].
      * constructor; [exists f; split; [left | auto]|].
        eapply Forall_impl; [exact Hcs|]. intros c. apply child_call_cons.
    + exists out, (Some "ENOENT"), [CStat (path_join dir f)].
      cbn. split; [reflexivity|]. split; [auto|].
      repeat constructor; exists f; (split; [left | auto]).
Qed.


(** When every entry can be examined and every regular file read, the
    loop collects exactly the regular files, in the order of the
    listing. *)
Lemma exec_serialize_files_ok fs dir files :
  NoDup files ->
  (forall f, f ∈ files -> is_Some (fs_stat fs (path_join dir f))) ->
  (forall f, f ∈ files -> is_regular fs dir f = true ->
             is_Some (fs_readFile fs (path_join dir f)) /\ f <> "__proto__") ->
  forall out s, (forall f, f ∈ files -> f ∉ out.*1) ->
  exists cs,
    exec (fs_answer fs) (serialize_files dir files out) s
    = (Returned (out ++ file_entries fs dir files, None), s, cs).
Proof.
  induction files as [|f files IH]; intros Hnd Hst Hrd out s Hout.
  - exists []. cbn. now rewrite app_nil_r.
  - apply NoDup_cons in Hnd as [Hf Hnd].
    assert (Hst' : forall g, g ∈ files -> is_Some (fs_stat fs (path_join dir g)))
      by (intros g Hg; apply Hst; now right).
    assert (Hrd' : forall g, g ∈ files -> is_regular fs dir g = true ->
              is_Some (fs_readFile fs (path_join dir g)) /\ g <> "__proto__")
      by (intros g Hg; apply Hrd; now right).
    destruct (Hst f) as [b Hb]; [left|].
    pose proof (Hrd f (list_elem_of_here _ _)) as Hrf.
    unfold file_entries, regular_file, is_regular in *.
    cbn [serialize_files exec fs_answer omap list_omap].
    rewrite Hb in *. destruct b.
    + destruct Hrf as [[c Hc] Hp]; [reflexivity|].
      cbn [exec fs_answer]. rewrite Hc.
      destruct (IH Hnd Hst' Hrd' (JsObject.set out f (Base64.encode c)) s)
        as [cs Hcs].
      { intros g Hg. rewrite JsObjectFacts.set_fresh by (auto using list_elem_of_here).
        rewrite fmap_app. cbn. intros Hin.
        apply elem_of_app in Hin as [Hin|Hin].
        - revert Hin. apply Hout. now right.
        - apply list_elem_of_singleton in Hin. subst g. contradiction. }
      rewrite Hcs. eexists.
      rewrite JsObjectFacts.set_fresh by (auto using list_elem_of_here).
      rewrite <- app_assoc. reflexivity.
    + destruct (IH Hnd Hst' Hrd' out s) as [cs Hcs].
      { intros g Hg. apply Hout. now right. }
      rewrite Hcs. eexists. reflexivity.
Qed.

(** *** What the loop collects *)

Lemma collect_elem fs dir files :
  forall out kv, kv ∈ collect fs dir files out ->
    kv ∈ out \/
    (kv.1 ∈ files /\ kv.1 <> "__proto__" /\
     exists b, regular_file fs dir kv.1 = Some b /\ kv.2 = Base64.encode b).
Proof.
  induction files as [|f files IH]; intros out kv H; cbn in H; [now left|].
  apply IH in H as [H|(H1 & H2 & H3)].
  - destruct (regular_file fs dir f) as [b|] eqn:Hb; [|now left].
    apply JsObjectFacts.elem_of_set_own in H as [H|[-> Hp]]; [now left|].
    right. cbn. split; [left|]. eauto.
  - right. split; [now right | auto].
Qed.

Lemma collect_keeps fs dir files :
  forall out k v, (k, v) ∈ out ->
    (k ∈ files -> forall b, regular_file fs dir k = Some b ->
                            v = Base64.encode b) ->
    (k, v) ∈ collect fs dir files out.
Proof.
  induction files as [|f files IH]; intros out k v H Hv; cbn; [exact H|].
  apply IH; [|intros Hk; apply Hv; now right].
  destruct (regular_file fs dir f) as [b|] eqn:Hb; [|exact H].
  destruct (decide (k = f)) as [->|Hne].
  - rewrite (Hv (list_elem_of_here _ _) b Hb).
    destruct (decide (f = "__proto__")) as [->|Hp].
    + rewrite <- (Hv (list_elem_of_here _ _) b Hb). exact H.
    + now apply JsObjectFacts.set_has.
  - now apply JsObjectFacts.set_keeps.
Qed.

Lemma collect_has fs dir files :
  forall out f b, f ∈ files -> f <> "__proto__" ->
    regular_file fs dir f = Some b ->
    (f, Base64.encode b) ∈ collect fs dir files out.
Proof.
  induction files as [|g files IH]; intros out f b Hf Hp Hb;
    [now apply elem_of_nil in Hf|].
  apply elem_of_cons in Hf as [->|Hf]; [|now apply IH].
  cbn. rewrite Hb. apply collect_keeps.
  - now apply JsObjectFacts.set_has.
  - intros _ b' Hb'. congruence.
Qed.

(** Starting from the empty object, the loop collects the regular files
    it went through, those called [__proto__] apart. *)
Lemma collect_nil fs dir files k v :
  (k, v) ∈ collect fs dir files [] <->
  k ∈ files /\ k <> "__proto__" /\
  exists b, regular_file fs dir k = Some b /\ v = Base64.encode b.
Proof.
  split.
  - intros H. apply collect_elem in H as [H|H]; [now apply elem_of_nil in H|].
    exact H.
  - intros (Hk & Hp & b & Hb & ->). now apply collect_has.
Qed.

Lemma collect_fresh fs dir files :
  NoDup files ->
  (forall f, f ∈ files -> is_regular fs dir f = true -> f <> "__proto__") ->
  forall out, (forall f, f ∈ files -> f ∉ out.*1) ->
  collect fs dir files out = out ++ file_entries fs dir files.
Proof.
  induction files as [|f files IH]; intros Hnd Hp out Hout.
  - cbn. now rewrite app_nil_r.
  - change (collect fs dir (f :: files) out)
      with (collect fs dir files
              match regular_file fs dir f with
              | Some b => JsObject.set out f (Base64.encode b)
              | None => out
              end).
    apply NoDup_cons in Hnd as [Hf Hnd].
    assert (Hp' : forall g, g ∈ files -> is_regular fs dir g = true ->
                            g <> "__proto__")
      by (intros g Hg; apply Hp; now right).
    unfold file_entries. cbn [omap list_omap].
    destruct (regular_file fs dir f) as [b|] eqn:Hb.
    + assert (Hfp : f <> "__proto__").
      { apply Hp; [left|]. unfold regular_file, is_regular in *.
        destruct (fs_stat fs (path_join dir f)) as [[|]|]; congruence. }
      rewrite JsObjectFacts.set_fresh by (auto using list_elem_of_here).
      rewrite IH; [now rewrite <- app_assoc | exact Hnd | exact Hp' |].
      intros g Hg. rewrite fmap_app. cbn. intros Hin.
      apply elem_of_app in Hin as [Hin|Hin].
      * revert Hin. apply Hout. now right.
      * apply list_elem_of_singleton in Hin. subst g. contradiction.
    + apply IH; [exact Hnd | exact Hp' |]. intros g Hg. apply Hout. now right.
Qed.

(** *** The loop, entry by entry *)

(** As long as the entries can be examined and the regular files read,
    the loop goes on. *)
Lemma exec_serialize_files_app fs dir pre :
  (forall f, f ∈ pre -> is_Some (fs_stat fs (path_join dir f))) ->
  (forall f, f ∈ pre -> is_regular fs dir f = true ->
             is_Some (fs_readFile fs (path_join dir f))) ->
  forall rest out s,
    exec (fs_answer fs) (serialize_files dir (pre ++ rest) out) s
    = let '(r, s', cs) :=
        exec (fs_answer fs) (serialize_files dir rest (collect fs dir pre out)) s
      in (r, s', flat_map (entry_calls fs dir) pre ++ cs).
Proof.
  induction pre as [|f pre IH]; intros Hst Hrd rest out s.
  - cbn. now destruct (exec _ _ _) as [[r s'] cs].
  - assert (Hst' : forall g, g ∈ pre -> is_Some (fs_stat fs (path_join dir g)))
      by (intros g Hg; apply Hst; now right).
    assert (Hrd' : forall g, g ∈ pre -> is_regular fs dir g = true ->
              is_Some (fs_readFile fs (path_join dir g)))
      by (intros g Hg; apply Hrd; now right).
    destruct (Hst f) as [b Hb]; [left|].
    pose proof (Hrd f (list_elem_of_here _ _)) as Hrf.
    change (collect fs dir (f :: pre) out)
      with (collect fs dir pre
              match regular_file fs dir f with
              | Some b => JsObject.set out f (Base64.encode b)
              | None => out
              end).
    cbn [app serialize_files exec fs_answer flat_map].
    unfold entry_calls at 1. unfold regular_file, is_regular in *.
    rewrite Hb in *. destruct b.
    + destruct Hrf as [c Hc]; [reflexivity|].
      cbn [exec fs_answer]. rewrite Hc.
      rewrite (IH Hst' Hrd').
      now destruct (exec _ _ _) as [[r s'] cs].
    + rewrite (IH Hst' Hrd').
      now destruct (exec _ _ _) as [[r s'] cs].
Qed.

(** An entry that cannot be examined, or a regular file that cannot be
    read, ends the loop with what was collected before it. *)
Lemma exec_serialize_files_stop fs dir f post out s :
  fs_stat fs (path_join dir f) = None \/
  (is_regular fs dir f = true /\ fs_readFile fs (path_join dir f) = None) ->
  exists e,
    exec (fs_answer fs) (serialize_files dir (f :: post) out) s
    = (Returned (out, Some e), s, entry_calls fs dir f).
Proof.
  unfold entry_calls, is_regular. cbn [serialize_files exec fs_answer].
  intros [H|[H1 H2]].
  - rewrite H. eexists. reflexivity.
  - destruct (fs_stat fs (path_join dir f)) as [[|]|]; try discriminate.
    cbn [exec fs_answer]. rewrite H2. eexists. reflexivity.
Qed.

Lemma child_call_entry fs dir files f :
  f ∈ files -> Forall (child_call dir files) (entry_calls fs dir f).
Proof.
  intros Hf. unfold entry_calls.
  destruct (is_regular fs dir f); repeat constructor; exists f; auto.
Qed.

(** *** The whole function *)

Lemma exec_serializeAuthDir_all fs dir names s :
  fs_readdir fs dir = Some names ->
  (forall f, f ∈ names -> is_Some (fs_stat fs (path_join dir f))) ->
  (forall f, f ∈ names -> is_regular fs dir f = true ->
             is_Some (fs_readFile fs (path_join dir f))) ->
  exec (fs_answer fs) (serializeAuthDir dir) s
  = (Returned (collect fs dir names []), s,
     CReaddir dir :: flat_map (entry_calls fs dir) names).
Proof.
  intros Hrd Hst Hrf. unfold serializeAuthDir. cbn [exec fs_answer].
  rewrite Hrd, exec_bind.
  rewrite <- (app_nil_r names) at 1.
  rewrite (exec_serialize_files_app fs dir names Hst Hrf). cbn.
  now rewrite !app_nil_r.
Qed.

Lemma exec_serializeAuthDir_stop fs dir pre f post s :
  fs_readdir fs dir = Some (pre ++ f :: post) ->
  (forall g, g ∈ pre -> is_Some (fs_stat fs (path_join dir g))) ->
  (forall g, g ∈ pre -> is_regular fs dir g = true ->
             is_Some (fs_readFile fs (path_join dir g))) ->
  fs_stat fs (path_join dir f) = None \/
  (is_regular fs dir f = true /\ fs_readFile fs (path_join dir f) = None) ->
  exec (fs_answer fs) (serializeAuthDir dir) s
  = (Returned (collect fs dir pre []),
     upd_log (fun l => l ++ [(Warn, "serializeAuthDir failed")]) s,
     CReaddir dir :: flat_map (entry_calls fs dir) pre ++ entry_calls fs dir f).
Proof.
  intros Hrd Hst Hrf Hbad. unfold serializeAuthDir. cbn [exec fs_answer].
  rewrite Hrd, exec_bind.
  rewrite (exec_serialize_files_app fs dir pre Hst Hrf).
  destruct (exec_serialize_files_stop fs dir f post (collect fs dir pre []) s Hbad)
    as [e ->].
  cbn. now rewrite !app_nil_r.
Qed.

End SerializerFacts.

(** ** The token *)

Module TokenFacts.

Lemma foldl_insert_lookup (l : list (string * list byte)) :
  NoDup l.*1 -> forall (m : gmap string (list byte)) k v,
  (foldl (fun m kv => <[kv.1 := kv.2]> m) m l) !! k = Some v <->
  (k, v) ∈ l \/ ((k ∉ l.*1) /\ m !! k = Some v).
Proof.
  induction l as [|[k0 v0] l IH]; intros Hnd m k v; cbn [foldl fmap list_fmap].
  - split; [intros H; right; split; [apply not_elem_of_nil | exact H]|].
    intros [H|[_ H]]; [now apply elem_of_nil in H | exact H].
  - cbn in Hnd. apply NoDup_cons in Hnd as [Hk0 Hnd].
    rewrite (IH Hnd). cbn [fst snd]. split.
    + intros [H|[Hk H]]; [left; now right|].
      destruct (decide (k0 = k)) as [->|Hne].
      * rewrite lookup_insert_eq in H. injection H as ->. left. left.
      * rewrite lookup_insert_ne in H by assumption. right. split; [|exact H].
        intros Hin. apply elem_of_cons in Hin as [Hin|Hin]; [congruence|auto].
    + intros [H|[Hk H]].
      * apply elem_of_cons in H as [H|H]; [|now left].
        injection H as -> ->. right. split; [exact Hk0|]. apply lookup_insert_eq.
      * right. split.
        -- intros Hin. apply Hk. now right.
        -- rewrite lookup_insert_ne; [exact H|].
           intros ->. apply Hk. left.
Qed.

Lemma mapM_decode_entry (l : list (string * string)) :
  (forall kv, kv ∈ l -> exists b, kv.2 = Base64.encode b) ->
  exists l', mapM decode_entry l = Some l' /\
    Forall2 (fun kv kb => kb.1 = kv.1 /\ kv.2 = Base64.encode kb.2) l l'.
Proof.
  induction l as [|[k v] l IH]; intros H.
  - exists []. split; [reflexivity | constructor].
  - destruct (H (k, v)) as [b Hb]; [left|]. cbn in Hb. subst v.
    destruct IH as (l' & Hl' & HF); [intros kv Hkv; apply H; now right|].
    exists ((k, b) :: l'). split.
    + assert (He : decode_entry (k, Base64.encode b) = Some (k, b)).
      { unfold decode_entry. cbn [fst snd].
        now rewrite Base64Facts.decode_encode. }
      cbn. rewrite He. cbn. rewrite Hl'. reflexivity.
    + constructor; [split; reflexivity | exact HF].
Qed.

Lemma decode_token_of (entries : list (string * string)) :
  decode_token
    ("SILA_" +:+ Base64.encode (list_byte_of_string
                                  (Json.stringify_envelope entries)))
  = match mapM decode_entry entries with
    | Some files => Some (foldl (fun m kv => <[kv.1 := kv.2]> m) ∅ files)
    | None => None
    end.
Proof.
  unfold decode_token.
  change (Json.strip_prefix "SILA_" ("SILA_" +:+ ?x)) with (Some x).
  cbv beta iota.
  rewrite Base64Facts.decode_encode, string_of_list_byte_of_string.
  now rewrite JsonFacts2.parse_stringify_envelope.
Qed.

(** The token made from the regular files among [files] reads back as
    exactly these files. *)
Lemma token_of_file_entries fs dir (files : list string) :
  NoDup files ->
  exists entries M,
    entries ≡ₚ file_entries fs dir files /\
    token_of (file_entries fs dir files)
    = "SILA_" +:+ Base64.encode (list_byte_of_string
                                   (Json.stringify_envelope entries)) /\
    decode_token (token_of (file_entries fs dir files)) = Some M /\
    forall f, M !! f = if decide (f ∈ files) then regular_file fs dir f
                       else None.
Proof.
  intros Hnd. set (out := file_entries fs dir files) in *.
  assert (Hout : forall k v, (k, v) ∈ out <->
                   k ∈ files /\ exists b, regular_file fs dir k = Some b /\
                                          v = Base64.encode b).
  { intros k v. unfold out, file_entries. rewrite list_elem_of_omap. split.
    - intros (f & Hf & Hm). destruct (regular_file fs dir f) as [b|] eqn:Hb;
        [|discriminate]. injection Hm as <- <-. eauto.
    - intros (Hk & b & Hb & ->). exists k. split; [exact Hk|]. now rewrite Hb. }
  assert (Hkeys : NoDup (JsObject.own_entries out).*1).
  { rewrite JsObjectFacts.own_entries_perm.
    unfold out, file_entries. clear -Hnd.
    induction files as [|f files IH]; [constructor|].
    apply NoDup_cons in Hnd as [Hf Hnd]. cbn [omap list_omap].
    destruct (regular_file fs dir f) as [b|]; [|auto].
    cbn. apply NoDup_cons. split; [|auto].
    intros Hin. apply Hf. apply list_elem_of_fmap in Hin as ([k v] & -> & Hkv).
    apply list_elem_of_omap in Hkv as (g & Hg & Hm).
    destruct (regular_file fs dir g); [|discriminate].
    injection Hm as <- _. exact Hg. }
  destruct (mapM_decode_entry (JsObject.own_entries out))
    as (decoded & Hdecoded & HF).
  { intros [k v] Hkv. rewrite JsObjectFacts.own_entries_perm in Hkv.
    apply Hout in Hkv as (_ & b & _ & ->). eauto. }
  exists (JsObject.own_entries out),
    (foldl (fun m kv => <[kv.1 := kv.2]> m) ∅ decoded).
  split; [apply JsObjectFacts.own_entries_perm|].
  split; [reflexivity|]. split.
  { unfold token_of, payload_of.
    now rewrite decode_token_of, Hdecoded. }
  assert (Hk1 : decoded.*1 = (JsObject.own_entries out).*1).
  { clear -HF. induction HF as [|x y l l' [H1 _] _ IH]; [reflexivity|].
    cbn. now rewrite H1, IH. }
  assert (Hmem : forall k b, (k, b) ∈ decoded <->
                   (k, Base64.encode b) ∈ JsObject.own_entries out).
  { clear -HF. intros k b. induction HF as [|[k1 v1] [k2 b2] l l' [H1 H2] _ IH].
    - split; intros H; now apply elem_of_nil in H.
    - cbn in H1, H2. subst k2 v1. rewrite !elem_of_cons, IH. split.
      + intros [[= -> ->]|H]; [now left | now right].
      + intros [[= -> H]|H]; [|now right].
        left. f_equal.
        pose proof (Base64Facts.decode_encode b) as E1.
        rewrite H, Base64Facts.decode_encode in E1. congruence. }
  intros f. apply option_eq. intros b.
  rewrite foldl_insert_lookup by (rewrite Hk1; exact Hkeys).
  rewrite lookup_empty, Hmem, JsObjectFacts.own_entries_perm, Hout.
  destruct (decide (f ∈ files)) as [Hf|Hf]; split.
  - intros [(_ & b' & Hb' & Henc)|[_ H]]; [|discriminate].
    rewrite Hb'. f_equal.
    pose proof (Base64Facts.decode_encode b) as E1.
    rewrite Henc, Base64Facts.decode_encode in E1. congruence.
  - intros Hb. left. eauto.
  - intros [(H & _)|[_ H]]; [contradiction | discriminate].
  - discriminate.
Qed.

End TokenFacts.

(** ** Credential serializer: what the specification states *)

(** On the directory [partial_dir] the second entry cannot be examined:
    the loop stops there, a warning is logged, and the mapping returned has
    the regular file listed before that entry and not the one listed after
    it. *)
Example serialize_partial_dir :
  exec (fs_answer partial_dir) (serializeAuthDir "auth/s") (init 0)
  = (Returned [("pre-key-1.json", "MQ==")],
     upd_log (fun l => l ++ [(Warn, "serializeAuthDir failed")]) (init 0),
     [CReaddir "auth/s"; CStat "auth/s/pre-key-1.json";
      CReadFile "auth/s/pre-key-1.json"; CStat "auth/s/a"]).
Proof. reflexivity. Qed.

(** C9, as stated, fails.  The directory of [partial_dir] can be listed
    and [creds.json] is a regular file directly inside it, yet the mapping
    returned is neither empty nor has an entry for [creds.json].  In
    [proto_dir] every entry can be examined and read, and the regular file
    [__proto__] has no entry. *)
Lemma C9_counterexample :
  (fs_readdir partial_dir "auth/s"
   = Some ["pre-key-1.json"; "a"; "creds.json"] /\
   regular_file partial_dir "auth/s" "creds.json" = Some [x7b; x7d] /\
   exists out,
     (exec (fs_answer partial_dir) (serializeAuthDir "auth/s") (init 0)).1.1
     = Returned out /\
     out <> [] /\ forall v, ("creds.json", v) ∉ out) /\
  (fs_readdir proto_dir "auth/s" = Some ["__proto__"] /\
   regular_file proto_dir "auth/s" "__proto__" = Some [x7b; x7d] /\
   exec (fs_answer proto_dir) (serializeAuthDir "auth/s") (init 0)
   = (Returned [], init 0,
      [CReaddir "auth/s"; CStat "auth/s/__proto__";
       CReadFile "auth/s/__proto__"])).
Proof.
  split; [|repeat split].
  split; [reflexivity|]. split; [reflexivity|].
  exists [("pre-key-1.json", "MQ==")]. split; [reflexivity|].
  split; [discriminate|].
  intros v H. apply list_elem_of_singleton in H. discriminate.
Qed.

(** C9 (amended).  [serializeAuthDir] never fails its caller.  When the
    directory is missing or unreadable it returns the empty mapping and
    logs one warning.  When the directory can be listed, every entry of
    the result is a regular file directly inside it, mapped to the base64
    text of its content, and the only operations started are the listing
    of the directory itself and [stat] and [readFile] on its direct
    entries: no subdirectory is ever listed.  If every entry can be
    examined and every regular file read, nothing is logged and the result
    has an entry for each regular file directly inside the directory, one
    called [__proto__] apart, and no other entry.  If an entry cannot be
    examined, or is a regular file that cannot be read, a warning is logged
    and the result has an entry for each regular file listed before the
    first such entry, one called [__proto__] apart, and no other entry. *)
Theorem C9_serializeAuthDir_tolerant (fs : FS) (dir : string) (s : State) :
  exists out s' cs,
    exec (fs_answer fs) (serializeAuthDir dir) s = (Returned out, s', cs) /\
    (fs_readdir fs dir = None ->
       out = [] /\ cs = [CReaddir dir] /\
       s' = upd_log (fun l => l ++ [(Warn, "serializeAuthDir failed")]) s) /\
    (forall names, fs_readdir fs dir = Some names ->
       (forall k v, (k, v) ∈ out ->
          k ∈ names /\ fs_stat fs (path_join dir k) = Some true /\
          exists b, fs_readFile fs (path_join dir k) = Some b /\
                    v = Base64.encode b) /\
       (exists cs', cs = CReaddir dir :: cs' /\
                    Forall (child_call dir names) cs') /\
       ((forall f, f ∈ names -> is_Some (fs_stat fs (path_join dir f))) ->
        (forall f, f ∈ names -> is_regular fs dir f = true ->
                   is_Some (fs_readFile fs (path_join dir f))) ->
        s' = s /\
        forall k v, (k, v) ∈ out <->
          k ∈ names /\ k <> "__proto__" /\
          exists b, regular_file fs dir k = Some b /\ v = Base64.encode b) /\
       (forall pre f post, names = pre ++ f :: post ->
        (forall g, g ∈ pre -> is_Some (fs_stat fs (path_join dir g))) ->
        (forall g, g ∈ pre -> is_regular fs dir g = true ->
                   is_Some (fs_readFile fs (path_join dir g))) ->
        fs_stat fs (path_join dir f) = None \/
        (is_regular fs dir f = true /\
         fs_readFile fs (path_join dir f) = None) ->
        s' = upd_log (fun l => l ++ [(Warn, "serializeAuthDir failed")]) s /\
        forall k v, (k, v) ∈ out <->
          k ∈ pre /\ k <> "__proto__" /\
          exists b, regular_file fs dir k = Some b /\ v = Base64.encode b)).
Proof.
  destruct (exec (fs_answer fs) (serializeAuthDir dir) s) as [[r s'] cs] eqn:He.
  assert (Hr : exists out, r = Returned out /\
            (fs_readdir fs dir = None ->
             out = [] /\ cs = [CReaddir dir] /\
             s' = upd_log (fun l => l ++ [(Warn, "serializeAuthDir failed")]) s) /\
            (forall names, fs_readdir fs dir = Some names ->
               (forall k v, (k, v) ∈ out ->
                  k ∈ names /\ fs_stat fs (path_join dir k) = Some true /\
                  exists b, fs_readFile fs (path_join dir k) = Some b /\
                            v = Base64.encode b) /\
               (exists cs', cs = CReaddir dir :: cs' /\
                            Forall (child_call dir names) cs'))).
  { revert He. unfold serializeAuthDir. cbn [exec fs_answer].
    destruct (fs_readdir fs dir) as [names|] eqn:Hrd.
    - rewrite exec_bind.
      destruct (SerializerFacts.exec_serialize_files fs dir names [] s)
        as (out & err & cs0 & -> & Hin & Hcs).
      assert (Hout : forall k v, (k, v) ∈ out ->
                k ∈ names /\ fs_stat fs (path_join dir k) = Some true /\
                exists b, fs_readFile fs (path_join dir k) = Some b /\
                          v = Base64.encode b).
      { intros k v Hkv. destruct (Hin _ Hkv) as [H|H]; [|exact H].
        now apply elem_of_nil in H. }
      destruct err as [e|]; cbn; intros [= <- <- <-]; exists out;
        (split; [reflexivity|]); (split; [discriminate|]);
        intros names' [= <-]; (split; [exact Hout|]);
        eexists; (split; [reflexivity|]); now rewrite !app_nil_r.
    - cbn. intros [= <- <- <-]. exists []. split; [reflexivity|]. split.
      + intros _. repeat split.
      + discriminate. }
  destruct Hr as (out & -> & Hnone & Hsome).
  exists out, s', cs. split; [reflexivity|]. split; [exact Hnone|].
  intros names Hrd. destruct (Hsome names Hrd) as [Hup Hcs].
  split; [exact Hup|]. split; [exact Hcs|]. split.
  - intros Hst Hrf.
    rewrite (SerializerFacts.exec_serializeAuthDir_all fs dir names s Hrd Hst Hrf)
      in He.
    injection He as <- <- <-. split; [reflexivity|].
    intros k v. apply SerializerFacts.collect_nil.
  - intros pre f post -> Hst Hrf Hbad.
    rewrite (SerializerFacts.exec_serializeAuthDir_stop fs dir pre f post s
               Hrd Hst Hrf Hbad) in He.
    injection He as <- <- <-. split; [reflexivity|].
    intros k v. apply SerializerFacts.collect_nil.
Qed.

(** On the directory [broken_dir] the first entry cannot be examined: the
    loop stops there, and the regular file that follows is not in the
    result. *)
Example serialize_broken_dir :
  exec (fs_answer broken_dir) (serializeAuthDir "auth/s") (init 0)
  = (Returned [],
     upd_log (fun l => l ++ [(Warn, "serializeAuthDir failed")]) (init 0),
     [CReaddir "auth/s"; CStat "auth/s/a"]).
Proof. reflexivity. Qed.

(** C2, as stated, fails: the token made from [broken_dir] decodes to no
    file at all, although [creds.json] is a regular file directly inside
    the directory. *)
Lemma C2_counterexample :
  fs_readdir broken_dir "auth/s" = Some ["a"; "creds.json"] /\
  regular_file broken_dir "auth/s" "creds.json" = Some [x7b; x7d] /\
  (exec (fs_answer broken_dir) (serializeAuthDir "auth/s") (init 0)).1.1
  = Returned [] /\
  exists M, decode_token (token_of []) = Some M /\ M !! "creds.json" = None.
Proof.
  repeat split. exists ∅. split; [|reflexivity].
  unfold token_of, payload_of. rewrite TokenFacts.decode_token_of. reflexivity.
Qed.

(** C2 (amended).  When the directory can be listed, every entry examined
    and every regular file read, and no regular file is called
    [__proto__], the token is ['SILA_'] followed by the base64 text of the
    envelope whose members are exactly the regular files directly inside
    the directory with their base64 content; reading the token back
    (strip the tag, decode, parse, decode each entry) yields exactly these
    files with their original bytes.  When an entry cannot be examined, or
    is a regular file that cannot be read, the enumeration stops there
    with a warning, and the same holds of the token with the regular files
    listed before that entry in place of those of the whole directory. *)
Theorem C2_token_roundtrip (fs : FS) (dir : string) (names : list string)
    (s : State) :
  fs_readdir fs dir = Some names ->
  NoDup names ->
  ((forall f, f ∈ names -> is_Some (fs_stat fs (path_join dir f))) ->
   (forall f, f ∈ names -> is_regular fs dir f = true ->
              is_Some (fs_readFile fs (path_join dir f)) /\ f <> "__proto__") ->
   exists out cs entries M,
     exec (fs_answer fs) (serializeAuthDir dir) s = (Returned out, s, cs) /\
     entries ≡ₚ file_entries fs dir names /\
     token_of out
     = "SILA_" +:+ Base64.encode (list_byte_of_string
                                    (Json.stringify_envelope entries)) /\
     decode_token (token_of out) = Some M /\
     forall f, M !! f = if decide (f ∈ names) then regular_file fs dir f
                        else None) /\
  (forall pre f post, names = pre ++ f :: post ->
   (forall g, g ∈ pre -> is_Some (fs_stat fs (path_join dir g))) ->
   (forall g, g ∈ pre -> is_regular fs dir g = true ->
              is_Some (fs_readFile fs (path_join dir g)) /\ g <> "__proto__") ->
   fs_stat fs (path_join dir f) = None \/
   (is_regular fs dir f = true /\ fs_readFile fs (path_join dir f) = None) ->
   exists out cs entries M,
     exec (fs_answer fs) (serializeAuthDir dir) s
     = (Returned out,
        upd_log (fun l => l ++ [(Warn, "serializeAuthDir failed")]) s, cs) /\
     entries ≡ₚ file_entries fs dir pre /\
     token_of out
     = "SILA_" +:+ Base64.encode (list_byte_of_string
                                    (Json.stringify_envelope entries)) /\
     decode_token (token_of out) = Some M /\
     forall g, M !! g = if decide (g ∈ pre) then regular_file fs dir g
                        else None).
Proof.
  intros Hrd Hnd. split.
  - intros Hst Hrf.
    destruct (TokenFacts.token_of_file_entries fs dir names Hnd)
      as (entries & M & Hperm & Htok & Hdec & HM).
    exists (file_entries fs dir names), (CReaddir dir :: flat_map (entry_calls fs dir) names),
      entries, M.
    split; [|auto].
    rewrite (SerializerFacts.exec_serializeAuthDir_all fs dir names s Hrd Hst)
      by (intros g Hg Hr; now apply Hrf).
    rewrite SerializerFacts.collect_fresh; [reflexivity | exact Hnd | |].
    + intros g Hg Hr. now apply Hrf.
    + intros g _ H. now apply elem_of_nil in H.
  - intros pre f post -> Hst Hrf Hbad.
    apply NoDup_app in Hnd as (Hnd & _ & _).
    destruct (TokenFacts.token_of_file_entries fs dir pre Hnd)
      as (entries & M & Hperm & Htok & Hdec & HM).
    exists (file_entries fs dir pre),
      (CReaddir dir :: flat_map (entry_calls fs dir) pre ++ entry_calls fs dir f),
      entries, M.
    split; [|auto].
    rewrite (SerializerFacts.exec_serializeAuthDir_stop fs dir pre f post s Hrd Hst)
      by (first [exact Hbad | intros g Hg Hr; now apply Hrf]).
    rewrite SerializerFacts.collect_fresh; [reflexivity | exact Hnd | |].
    + intros g Hg Hr. now apply Hrf.
    + intros g _ H. now apply elem_of_nil in H.
Qed.

Lemma C2_token_roundtrip_witness :
  (exists out cs entries M,
     exec (fs_answer sample_dir) (serializeAuthDir "auth/s") (init 0)
     = (Returned out, init 0, cs) /\
     entries ≡ₚ file_entries sample_dir "auth/s"
                  ["creds.json"; "keys"; "pre-key-1.json"] /\
     token_of out
     = "SILA_" +:+ Base64.encode (list_byte_of_string
                                    (Json.stringify_envelope entries)) /\
     decode_token (token_of out) = Some M /\
     forall f, M !! f =
               if decide (f ∈ ["creds.json"; "keys"; "pre-key-1.json"])
               then regular_file sample_dir "auth/s" f
               else None) /\
  (exists out cs entries M,
     exec (fs_answer partial_dir) (serializeAuthDir "auth/s") (init 0)
     = (Returned out,
        upd_log (fun l => l ++ [(Warn, "serializeAuthDir failed")]) (init 0),
        cs) /\
     entries ≡ₚ file_entries partial_dir "auth/s" ["pre-key-1.json"] /\
     token_of out
     = "SILA_" +:+ Base64.encode (list_byte_of_string
                                    (Json.stringify_envelope entries)) /\
     decode_token (token_of out) = Some M /\
     forall g, M !! g =
               if decide (g ∈ ["pre-key-1.json"])
               then regular_file partial_dir "auth/s" g
               else None).
Proof.
  split.
  - apply (C2_token_roundtrip sample_dir "auth/s"
             ["creds.json"; "keys"; "pre-key-1.json"] (init 0)).
    + reflexivity.
    + refine (bool_decide_unpack (NoDup _) _). vm_compute. exact I.
    + intros f Hf.
      repeat (apply elem_of_cons in Hf as [->|Hf]);
        [vm_compute; eauto | vm_compute; eauto | vm_compute; eauto
        |now apply elem_of_nil in Hf].
    + intros f Hf.
      repeat (apply elem_of_cons in Hf as [->|Hf]);
        [vm_compute; intros _; split; [eauto | discriminate]
        |vm_compute; discriminate
        |vm_compute; intros _; split; [eauto | discriminate]
        |now apply elem_of_nil in Hf].
  - apply (C2_token_roundtrip partial_dir "auth/s"
             ["pre-key-1.json"; "a"; "creds.json"] (init 0))
      with (pre := ["pre-key-1.json"]) (f := "a") (post := ["creds.json"]).
    + reflexivity.
    + refine (bool_decide_unpack (NoDup _) _). vm_compute. exact I.
    + reflexivity.
    + intros g Hg. apply list_elem_of_singleton in Hg as ->.
      vm_compute. eauto.
    + intros g Hg. apply list_elem_of_singleton in Hg as ->.
      vm_compute. intros _. split; [eauto | discriminate].
    + left. reflexivity.
Defined.

Example token_sample :
  token_of (file_entries sample_dir "auth/s"
              ["creds.json"; "keys"; "pre-key-1.json"])
  = "SILA_eyJmaWxlcyI6eyJjcmVkcy5qc29uIjoiZTMwPSIsInByZS1rZXktMS5qc29uIjoiTVE9PSJ9fQ==".
Proof. reflexivity. Qed.

(** ** Reasoning about one task: rules for [wp] and [run] *)

Lemma wp_mono {A : Type} E (p : prog A) (Q Q' : trace -> outcome A -> State -> Prop) :
  (forall tr o s, Q tr o s -> Q' tr o s) ->
  forall tr s, wp E p Q tr s -> wp E p Q' tr s.
Proof.
  intros HQ.
  induction p as [A a|A e|A|A B' f k IH|A c k IH|A p1 IH1 p2 IH2];
    intros tr s; cbn [wp]; auto.
  - apply IH; assumption.
  - intros H a s' He. eapply IH; eauto.
  - apply IH2; assumption.
Qed.

Lemma wp_bind {A B : Type} E (p : prog A) (g : A -> prog B) Q tr s :
  wp E p (fun tr' o s' =>
            match o with
            | Returned a => wp E (g a) Q tr' s'
            | Thrown e => Q tr' (Thrown e) s'
            | GaveUp => Q tr' GaveUp s'
            end) tr s ->
  wp E (p ≫= g) Q tr s.
Proof.
  change (p ≫= g) with (bind p g). revert g Q tr s.
  induction p as [A a|A e|A|A B' f k IH|A c k IH|A p1 IH1 p2 IH2];
    intros g Q tr s; cbn [wp bind]; auto.
Qed.

Lemma wp_try_catch {A : Type} E (p : prog A) (h : string -> prog A) Q tr s :
  wp E p (fun tr' o s' =>
            match o with
            | Returned a => Q tr' (Returned a) s'
            | Thrown e => wp E (h e) Q tr' s'
            | GaveUp => Q tr' GaveUp s'
            end) tr s ->
  wp E (try_catch p h) Q tr s.
Proof.
  revert h Q tr s.
  induction p as [A a|A e|A|A B' f k IH|A c k IH|A p1 IH1 p2 IH2];
    intros h Q tr s; cbn [wp try_catch]; auto.
Qed.

Lemma any_env_sound : sound_env any_env.
Proof. intros c s a s' H. exact H. Qed.

Lemma prompt_env_sound : sound_env prompt_env.
Proof. intros c s a s' [H _]. exact H. Qed.

Lemma quiet_env_sound : sound_env quiet_env.
Proof.
  intros c s a s' H. destruct c; try (exists s; exact H).
  destruct H as [-> ->]. exists (upd_now due s). cbn.
  destruct (decide (due <= due)%Z); [reflexivity | lia].
Qed.

Lemma settles_sleep due a s s' :
  settles (CSleep due) a s = Some s' -> a = AUnit /\ s' = s /\ (due <= now s)%Z.
Proof.
  destruct a; cbn; try discriminate.
  destruct (decide (due <= now s)%Z); [|discriminate].
  intros [= ->]. auto.
Qed.

Lemma settles_rm d a s s' :
  settles (CRm d) a s = Some s' ->
  (a = AUnit /\ s' = upd_disk (fun D => D ∖ {[d]}) s) \/
  (exists e, a = AErr e /\ s' = s).
Proof.
  destruct a; cbn; try discriminate; intros [= <-]; eauto.
Qed.

(** ** The directory cleaner *)

(** C8. [cleanupDir] never raises: whatever the outcome of the removal
    and whatever else happens meanwhile, it returns normally.  A failed
    removal is logged and nothing else changes.  On a path that is not on
    disk (for instance after a first successful removal) a further call
    returns normally and leaves the disk as it is; when its [rm] reports
    success, as [force: true] makes it do for a missing path, the whole
    state is unchanged. *)
Theorem C8_cleanupDir_never_raises (dir : string) (s : State) :
  wp any_env (cleanupDir dir) (fun _ o _ => o = Returned tt) [] s /\
  wp quiet_env (cleanupDir dir)
    (fun tr o s' =>
       o = Returned tt /\
       ((tr = [(CRm dir, AUnit)] /\ s' = upd_disk (fun D => D ∖ {[dir]}) s) \/
        (exists e, tr = [(CRm dir, AErr e)] /\
           s' = upd_log (fun l => l ++ [(Warn, "cleanup failed")]) s))) [] s /\
  (dir ∉ disk s ->
   wp quiet_env (cleanupDir dir)
     (fun tr o s' =>
        o = Returned tt /\ disk s' = disk s /\
        (tr = [(CRm dir, AUnit)] -> s' = s)) [] s).
Proof.
  split; [|split].
  - cbn. intros a s' _. destruct a; reflexivity.
  - cbn. intros a s' H. apply settles_rm in H as [[-> ->]|(e & -> & ->)]; cbn.
    + split; [reflexivity|]. left. auto.
    + split; [reflexivity|]. right. eauto.
  - intros Hd. cbn. intros a s' H.
    apply settles_rm in H as [[-> ->]|(e & -> & ->)]; cbn.
    + assert (Hs : disk s ∖ {[dir]} = disk s)
        by (apply difference_disjoint_L, disjoint_singleton_r; exact Hd).
      split; [reflexivity|]. split; [exact Hs|]. intros _.
      destruct s. unfold upd_disk. cbn in *. now rewrite Hs.
    + split; [reflexivity|]. split; [reflexivity|]. discriminate.
Qed.

(** ** The lifecycle controller *)

(** Symbolic execution of a task: unfold the program, and split on
    whatever the next step depends on. *)
Ltac wp_case :=
  match goal with
  | |- context [match ?x with _ => _ end] => destruct x eqn:?
  end.

Ltac wp_go :=
  repeat first
    [ progress cbn -[truthy maxWait]
    | progress unfold unmap_phone
    | intro
    | wp_case ].

Lemma settles_logout k a s s' :
  settles (CLogout k) a s = Some s' -> s' = s.
Proof. destruct a; cbn; try discriminate; now intros [= <-]. Qed.

Lemma not_in_removed (d : string) (D : gset string) : d ∉ D ∖ {[d]}.
Proof. rewrite elem_of_difference, elem_of_singleton. tauto. Qed.

Lemma wp_finalize_release E sid reason l Q tr s :
  sound_env E ->
  (forall tr' s',
     sessions s' !! sid = None ->
     (forall d, (CRm d, AUnit) ∈ tr' -> d ∉ disk s') ->
     sleeps tr' = [] ->
     Q (tr ++ tr') (Returned tt) s') ->
  wp E (finalize_release sid reason l) Q tr s.
Proof.
  intros HE HQ. unfold finalize_release.
  wp_go.
  all: rewrite <- ?app_assoc; cbn [app].
  all: lazymatch goal with |- _ (_ ++ _) _ _ => idtac | |- _ ?t _ _ => rewrite <- (app_nil_r t) end.
  all: apply HQ; [cbn; apply lookup_delete_eq| |reflexivity].
  all: intros d Hd; repeat (apply elem_of_cons in Hd as [Hd|Hd]); try discriminate Hd;
       try (now apply elem_of_nil in Hd).
  all: injection Hd as <-.
  all: cbn.
  all: match goal with
       | H : _ (CRm _) _ AUnit _ |- _ =>
           apply HE in H as [? Hrm];
           apply settles_rm in Hrm as [[_ ->]|(? & Hrm & _)];
           [|discriminate Hrm]
       end.
  all: cbn; apply not_in_removed.
Qed.

Lemma wp_finalize_wait_step E fuel sid start l Q tr s :
  wp E (finalize_wait (S fuel) sid start l) Q tr s <->
  (if negb (credsSaved (default empty_session (heap s !! l)))
      && (now s - start <? maxWait)%Z
   then forall a s', E (CSleep (now s + 200)%Z) s a s' ->
          match sessions s' !! sid with
          | None => Q (tr ++ [(CSleep (now s + 200)%Z, a)]) (Returned None) s'
          | Some l' =>
              wp E (finalize_wait fuel sid start l') Q
                (tr ++ [(CSleep (now s + 200)%Z, a)]) s'
          end
   else Q tr (Returned (Some l)) s).
Proof.
  cbn [finalize_wait]. cbn -[finalize_wait maxWait Z.ltb Z.sub Z.add].
  destruct (negb _ && _); cbn -[finalize_wait maxWait Z.ltb Z.sub Z.add];
    [|reflexivity].
  split; intros H a s' He; specialize (H a s' He);
    destruct (sessions s' !! sid); exact H.
Qed.

Lemma wp_finalize_wait_zero E sid start l Q tr s :
  wp E (finalize_wait 0 sid start l) Q tr s <->
  (if negb (credsSaved (default empty_session (heap s !! l)))
      && (now s - start <? maxWait)%Z
   then Q tr GaveUp s
   else Q tr (Returned (Some l)) s).
Proof.
  cbn [finalize_wait]. cbn -[maxWait Z.ltb Z.sub Z.add].
  destruct (negb _ && _); reflexivity.
Qed.

(** The loop ends: each poll resumes no earlier than 200 ms after it went
    to sleep, so the budget of [maxWait] is used up after 15 polls. *)
Lemma wp_finalize_wait E sid start fuel :
  sound_env E -> forall l Q tr s,
  (start <= now s)%Z ->
  (maxWait - (now s - start) <= 200 * Z.of_nat fuel)%Z ->
  (forall tr' r s',
     Forall (fun ca => exists due, ca = (CSleep due, AUnit) /\
                                   (due < start + maxWait + 200)%Z) tr' ->
     (200 * Z.of_nat (length tr') < Z.max 0 (maxWait - (now s - start)) + 200)%Z ->
     match r with
     | None => sessions s' !! sid = None
     | Some l' => (tr' = [] /\ s' = s /\ l' = l) \/ sessions s' !! sid = Some l'
     end ->
     Q (tr ++ tr') (Returned r) s') ->
  wp E (finalize_wait fuel sid start l) Q tr s.
Proof.
  intros HE. unfold maxWait.
  induction fuel as [|fuel IH]; intros l Q tr s Hstart Hfuel HQ.
  - apply wp_finalize_wait_zero. unfold maxWait.
    replace (now s - start <? 3000)%Z with false by (symmetry; apply Z.ltb_ge; lia).
    rewrite andb_false_r, <- (app_nil_r tr).
    apply HQ; [constructor | cbn; lia | auto].
  - apply wp_finalize_wait_step. unfold maxWait.
    destruct (negb _ && _) eqn:Hc.
    + apply andb_prop in Hc as [_ Hlt]. apply Z.ltb_lt in Hlt.
      intros a s' He. apply HE in He as [s1 Hs1].
      apply settles_sleep in Hs1 as (-> & <- & Hdue).
      assert (Hx : exists due, (CSleep (now s + 200)%Z, AUnit) = (CSleep due, AUnit) /\
                               (due < start + 3000 + 200)%Z)
        by (eexists; split; [reflexivity | lia]).
      destruct (sessions s' !! sid) as [l'|] eqn:Hl'.
      * apply IH; [lia | lia |].
        intros tr' r s'' HF Hlen Hr. rewrite <- app_assoc. cbn [app].
        apply HQ.
        -- constructor; assumption.
        -- cbn [length]. lia.
        -- destruct r as [l''|]; [|exact Hr]. right.
           destruct Hr as [(-> & -> & ->)|Hr]; assumption.
      * apply (HQ [_] None); [repeat constructor; exact Hx | cbn; lia | exact Hl'].
    + rewrite <- (app_nil_r tr). apply HQ; [constructor | cbn; lia | auto].
Qed.

Lemma sleeps_app tr1 tr2 : sleeps (tr1 ++ tr2) = sleeps tr1 ++ sleeps tr2.
Proof. unfold sleeps. apply omap_app. Qed.

Lemma sleeps_all tr :
  Forall (fun ca => exists due, ca = (CSleep due, AUnit)) tr ->
  tr = map (fun due => (CSleep due, AUnit)) (sleeps tr).
Proof.
  induction 1 as [|ca tr (due & ->) _ IH]; [reflexivity|].
  cbn. f_equal. exact IH.
Qed.

(** [finalizeSession] in any environment that settles operations the way
    the event loop does. *)
Lemma wp_finalizeSession E sid reason Q s :
  sound_env E ->
  (forall tr s',
     sessions s' !! sid = None ->
     (length (sleeps tr) <= 15)%nat ->
     Forall (fun due => (due < now s + maxWait + 200)%Z) (sleeps tr) ->
     (forall d, (CRm d, AUnit) ∈ tr -> d ∉ disk s') ->
     Q tr (Returned tt) s') ->
  wp E (finalizeSession sid reason) Q [] s.
Proof.
  intros HE HQ. unfold finalizeSession.
  cbn -[finalize_wait finalize_release loop_fuel maxWait].
  destruct (sessions s !! sid) as [l|] eqn:Hl.
  - cbn -[finalize_wait finalize_release loop_fuel maxWait].
    apply (wp_bind E (finalize_wait loop_fuel sid (now s) l)).
    apply wp_finalize_wait; [exact HE | lia | unfold maxWait, loop_fuel; lia |].
    intros tr' r s' HF Hlen Hr. cbn [app].
    assert (Hn : (length (sleeps tr') <= 15)%nat).
    { assert (length (sleeps tr') = length tr') as ->.
      { clear -HF. induction HF as [|ca tr (due & -> & _) _ IH]; [reflexivity|].
        cbn. f_equal. exact IH. }
      unfold maxWait in Hlen. lia. }
    assert (Hd : Forall (fun due => (due < now s + maxWait + 200)%Z) (sleeps tr')).
    { clear -HF. induction HF as [|ca tr (due & -> & Hdue) _ IH]; [constructor|].
      cbn. constructor; assumption. }
    destruct r as [l'|].
    + apply wp_finalize_release; [exact HE|].
      intros tr2 s2 Hs2 Hrm Hsl. apply HQ; auto.
      * now rewrite sleeps_app, Hsl, app_nil_r.
      * now rewrite sleeps_app, Hsl, app_nil_r.
      * intros d Hin. apply elem_of_app in Hin as [Hin|Hin]; [|auto].
        exfalso. rewrite Forall_forall in HF.
        destruct (HF _ Hin) as (due & Heq & _). discriminate Heq.
    + cbn. apply HQ; auto.
      intros d Hin. exfalso. rewrite Forall_forall in HF.
      destruct (HF _ Hin) as (due & Heq & _). discriminate Heq.
  - cbn. apply HQ; [exact Hl | cbn; lia | constructor |].
    intros d Hin. now apply elem_of_nil in Hin.
Qed.

(** With timers that fire when due, the polls are 200 ms apart and none
    is due later than [maxWait] after the start. *)
Lemma wp_finalize_wait_prompt sid start fuel :
  forall l Q tr s j,
  (0 <= j)%Z -> now s = (start + 200 * j)%Z ->
  (forall tr' o s',
     Forall (fun due => (due <= start + maxWait)%Z) (sleeps tr') ->
     Q (tr ++ tr') o s') ->
  wp prompt_env (finalize_wait fuel sid start l) Q tr s.
Proof.
  unfold maxWait.
  induction fuel as [|fuel IH]; intros l Q tr s j Hj Hnow HQ.
  - apply wp_finalize_wait_zero.
    destruct (negb _ && _); rewrite <- (app_nil_r tr); apply HQ; constructor.
  - apply wp_finalize_wait_step. unfold maxWait.
    destruct (negb _ && _) eqn:Hc.
    + apply andb_prop in Hc as [_ Hlt]. apply Z.ltb_lt in Hlt.
      intros a s' [_ Hs'].
      destruct (sessions s' !! sid) as [l'|].
      * apply (IH _ _ _ _ (j + 1)%Z); [lia | lia |].
        intros tr' o s'' HF. rewrite <- app_assoc. apply HQ.
        cbn. constructor; [lia | exact HF].
      * apply (HQ [_]). cbn. repeat constructor. lia.
    + rewrite <- (app_nil_r tr). apply HQ. constructor.
Qed.

Lemma wp_finalizeSession_prompt sid reason s :
  wp prompt_env (finalizeSession sid reason)
    (fun tr _ _ => Forall (fun due => (due <= now s + maxWait)%Z) (sleeps tr))
    [] s.
Proof.
  unfold finalizeSession.
  cbn -[finalize_wait finalize_release loop_fuel maxWait].
  destruct (sessions s !! sid) as [l|]; [|constructor].
  cbn -[finalize_wait finalize_release loop_fuel maxWait].
  apply (wp_bind prompt_env (finalize_wait loop_fuel sid (now s) l)).
  apply (wp_finalize_wait_prompt _ _ _ _ _ _ _ 0%Z); [lia | lia |].
  intros tr' o s' HF. cbn [app].
  destruct o as [[l'|]|e|]; try exact HF.
  apply wp_finalize_release; [exact prompt_env_sound|].
  intros tr2 s2 _ _ Hsl. now rewrite sleeps_app, Hsl, app_nil_r.
Qed.

(** When nothing else runs and the flag is never set, the loop polls
    exactly 15 times and leaves at [start + maxWait]. *)
Lemma wp_finalize_wait_quiet sid start l o :
  credsSaved o = false ->
  forall n fuel Q tr s,
  (n <= fuel)%nat ->
  sessions s !! sid = Some l -> heap s !! l = Some o ->
  now s = (start + maxWait - 200 * Z.of_nat n)%Z ->
  Q (tr ++ map (fun i : nat => (CSleep (now s + 200 * Z.of_nat (S i))%Z, AUnit))
             (seq 0 n))
    (Returned (Some l)) (upd_now (start + maxWait)%Z s) ->
  wp quiet_env (finalize_wait fuel sid start l) Q tr s.
Proof.
  intros Ho. unfold maxWait.
  induction n as [|n IH]; intros fuel Q tr s Hf Hs Hh Hnow HQ.
  - assert (Hc : negb (credsSaved (default empty_session (heap s !! l)))
                 && (now s - start <? 3000)%Z = false).
    { replace (now s - start <? 3000)%Z with false
        by (symmetry; apply Z.ltb_ge; lia).
      apply andb_false_r. }
    assert (Hs' : upd_now (start + 3000)%Z s = s).
    { destruct s. unfold upd_now. cbn in *. f_equal. lia. }
    rewrite Hs' in HQ. cbn [seq map] in HQ. rewrite app_nil_r in HQ.
    destruct fuel.
    + apply wp_finalize_wait_zero. unfold maxWait. now rewrite Hc.
    + apply wp_finalize_wait_step. unfold maxWait. now rewrite Hc.
  - destruct fuel as [|fuel]; [lia|].
    apply wp_finalize_wait_step. unfold maxWait.
    rewrite Hh. change (default empty_session (Some o)) with o.
    rewrite Ho. cbn [negb andb].
    replace (now s - start <? 3000)%Z with true
      by (symmetry; apply Z.ltb_lt; lia).
    intros a s' [-> ->]. cbn. rewrite Hs.
    apply IH; [lia | exact Hs | exact Hh | cbn; lia |].
    cbn [seq map] in HQ. rewrite <- app_assoc. cbn [app now upd_now].
    rewrite <- seq_shift, map_map in HQ.
    replace (map (fun i : nat => (CSleep (now s + 200 + 200 * Z.of_nat (S i))%Z, AUnit)) (seq 0 n))
      with (map (fun x : nat => (CSleep (now s + 200 * Z.of_nat (S (S x)))%Z, AUnit)) (seq 0 n))
      by (apply map_ext; intros i; do 2 f_equal; lia).
    replace (now s + 200 * Z.of_nat 1)%Z with (now s + 200)%Z in HQ by lia.
    exact HQ.
Qed.

Lemma wp_finalize_release_quiet sid reason l o d Q tr s :
  heap s !! l = Some o -> truthy (authDir o) = Some d ->
  (forall tr' a s',
     awaited tr' = match socket o with
                   | Some k => [CLogout k; CRm d]
                   | None => [CRm d]
                   end ->
     sleeps tr' = [] ->
     (CRm d, a) ∈ tr' ->
     sessions s' !! sid = None ->
     (a = AUnit -> d ∉ disk s') ->
     (a <> AUnit -> disk s' = disk s /\ (Warn, "cleanup failed") ∈ log s') ->
     Q (tr ++ tr') (Returned tt) s') ->
  wp quiet_env (finalize_release sid reason l) Q tr s.
Proof.
  intros Hh Hd HQ. unfold finalize_release.
  cbn -[truthy]. rewrite Hh. cbn -[truthy].
  destruct (socket o) as [k|] eqn:Hk; cbn -[truthy].
  - intros a1 s1 H1. destruct a1; try discriminate H1; injection H1 as <-.
    all: cbn -[truthy]; rewrite Hh; cbn -[truthy]; rewrite Hk; cbn -[truthy].
    all: rewrite Hh; cbn -[truthy]; rewrite Hd; cbn -[truthy].
    all: intros a2 s2 H2; destruct a2; try discriminate H2; injection H2 as <-.
    all: wp_go.
    all: rewrite <- ?app_assoc; cbn [app].
    all: eapply HQ; [reflexivity | reflexivity | | cbn; apply lookup_delete_eq | |].
    all: try (apply list_elem_of_In; cbn; tauto).
    all: try (intros _; cbn; apply not_in_removed).
    all: try discriminate.
    all: try (intros Hne; now contradiction Hne).
    all: intros _; cbn; split; [reflexivity|].
    all: apply elem_of_app; right; left.
  - rewrite Hh; cbn -[truthy]; rewrite Hk; cbn -[truthy].
    rewrite Hh; cbn -[truthy]; rewrite Hd; cbn -[truthy].
    intros a2 s2 H2; destruct a2; try discriminate H2; injection H2 as <-.
    all: wp_go.
    all: rewrite <- ?app_assoc; cbn [app].
    all: eapply HQ; [reflexivity | reflexivity | | cbn; apply lookup_delete_eq | |].
    all: try (apply list_elem_of_In; cbn; tauto).
    all: try (intros _; cbn; apply not_in_removed).
    all: try discriminate.
    all: try (intros Hne; now contradiction Hne).
    all: intros _; cbn; split; [reflexivity|].
    all: apply elem_of_app; right; left.
Qed.

Lemma wp_conj {A : Type} E (p : prog A) Q1 Q2 :
  forall tr s, wp E p Q1 tr s -> wp E p Q2 tr s ->
  wp E p (fun tr o s => Q1 tr o s /\ Q2 tr o s) tr s.
Proof.
  induction p as [A a|A e|A|A B' f k IH|A c k IH|A p1 IH1 p2 IH2];
    intros tr s; cbn [wp]; auto.
Qed.

(** When nothing else runs, the loop leaves everything but the clock as
    it found it. *)
Lemma wp_finalize_wait_alone sid start l fuel :
  forall tr s, sessions s !! sid = Some l ->
  wp quiet_env (finalize_wait fuel sid start l)
    (fun _ o s' => (forall r, o = Returned r -> r = Some l) /\
                   exists t, s' = upd_now t s) tr s.
Proof.
  assert (Hs : forall s, upd_now (now s) s = s) by (intros []; reflexivity).
  induction fuel as [|fuel IH]; intros tr s Hl.
  - apply wp_finalize_wait_zero.
    destruct (negb _ && _); (split; [|exists (now s); now rewrite Hs]).
    + discriminate.
    + now intros r [= <-].
  - apply wp_finalize_wait_step.
    destruct (negb _ && _).
    + intros a s' [-> ->]. cbn. rewrite Hl.
      eapply wp_mono; [|apply IH; exact Hl].
      cbn. intros tr' o s' (Hr & t & ->). split; [exact Hr|]. now exists t.
    + split; [now intros r [= <-] | exists (now s); now rewrite Hs].
Qed.

(** [finalizeSession] when nothing else runs, on a registered session that
    owns a credential directory: the removal of that directory is
    attempted, and it is the last thing awaited. *)
Lemma wp_finalizeSession_quiet sid reason l o d Q s :
  sessions s !! sid = Some l -> heap s !! l = Some o ->
  truthy (authDir o) = Some d ->
  (forall tr a s',
     awaited tr = match socket o with
                  | Some k => [CLogout k; CRm d]
                  | None => [CRm d]
                  end ->
     (CRm d, a) ∈ tr ->
     sessions s' !! sid = None ->
     (a = AUnit -> d ∉ disk s') ->
     (a <> AUnit -> disk s' = disk s /\ (Warn, "cleanup failed") ∈ log s') ->
     Q tr (Returned tt) s') ->
  wp quiet_env (finalizeSession sid reason) Q [] s.
Proof.
  intros Hl Hh Hd HQ. unfold finalizeSession.
  cbn -[finalize_wait finalize_release loop_fuel maxWait]. rewrite Hl.
  cbn -[finalize_wait finalize_release loop_fuel maxWait].
  apply (wp_bind quiet_env (finalize_wait loop_fuel sid (now s) l)).
  eapply wp_mono;
    [|apply wp_conj;
      [apply (wp_finalize_wait quiet_env sid (now s) loop_fuel quiet_env_sound l
                (fun tr o _ => awaited tr = [] /\ exists r, o = Returned r));
       [lia | unfold maxWait, loop_fuel; lia |]
      |apply wp_finalize_wait_alone; exact Hl]].
  - cbn beta. intros tr out s' [[Haw [r ->]] [Hr [t ->]]].
    rewrite (Hr r eq_refl).
    apply wp_finalize_release_quiet with (o := o) (d := d); [exact Hh | exact Hd|].
    intros tr' a s'' Htr' _ Hin Hs'' Hok Hko. apply (HQ _ a); auto.
    + unfold awaited in *. rewrite List.map_app, List.filter_app, Haw. exact Htr'.
    + apply elem_of_app. now right.
  - intros tr' r s' HF _ _. cbn [app]. split; [|eauto].
    clear -HF. induction HF as [|ca tr (due & -> & _) _ IH]; [reflexivity|].
    exact IH.
Qed.

Lemma steady_env_sound sid l o : sound_env (steady_env sid l o).
Proof. intros c s a s' [H _]. exact H. Qed.

(** A steady environment is not an empty one: when nothing else runs, the
    session stays as it is. *)
Lemma steady_env_quiet sid l o c s a s' :
  sessions s !! sid = Some l ->
  (exists o', heap s !! l = Some o' /\
              socket o' = socket o /\ authDir o' = authDir o) ->
  quiet_env c s a s' -> steady_env sid l o c s a s'.
Proof.
  intros Hl Ho H. split; [exact (quiet_env_sound _ _ _ _ H)|].
  assert (Hs : sessions s' = sessions s /\ heap s' = heap s).
  { destruct c; cbn in H;
      try (destruct a; try discriminate H; injection H as <-; split; reflexivity).
    destruct H as [_ ->]. split; reflexivity. }
  destruct Hs as [-> ->]. split; assumption.
Qed.

(** The loop in a steady environment: it ends with the session it
    started with. *)
Lemma wp_finalize_wait_steady sid l o start fuel :
  forall Q tr s,
  (start <= now s)%Z ->
  (maxWait - (now s - start) <= 200 * Z.of_nat fuel)%Z ->
  (forall tr' s',
     Forall (fun ca => exists due, ca = (CSleep due, AUnit) /\
                                   (due < start + maxWait + 200)%Z) tr' ->
     (200 * Z.of_nat (length tr') < Z.max 0 (maxWait - (now s - start)) + 200)%Z ->
     (tr' = [] /\ s' = s) \/
     (exists o', heap s' !! l = Some o' /\
                 socket o' = socket o /\ authDir o' = authDir o) ->
     Q (tr ++ tr') (Returned (Some l)) s') ->
  wp (steady_env sid l o) (finalize_wait fuel sid start l) Q tr s.
Proof.
  unfold maxWait.
  induction fuel as [|fuel IH]; intros Q tr s Hstart Hfuel HQ.
  - apply wp_finalize_wait_zero. unfold maxWait.
    replace (now s - start <? 3000)%Z with false by (symmetry; apply Z.ltb_ge; lia).
    rewrite andb_false_r, <- (app_nil_r tr).
    apply HQ; [constructor | cbn; lia | auto].
  - apply wp_finalize_wait_step. unfold maxWait.
    destruct (negb _ && _) eqn:Hc.
    + apply andb_prop in Hc as [_ Hlt]. apply Z.ltb_lt in Hlt.
      intros a s' (He & Hl' & Ho'). destruct He as [s1 Hs1].
      apply settles_sleep in Hs1 as (-> & <- & Hdue).
      assert (Hx : exists due, (CSleep (now s + 200)%Z, AUnit) = (CSleep due, AUnit) /\
                               (due < start + 3000 + 200)%Z)
        by (eexists; split; [reflexivity | lia]).
      rewrite Hl'. apply IH; [lia | lia |].
      intros tr' s'' HF Hlen Hr. rewrite <- app_assoc. cbn [app].
      apply HQ.
      * constructor; assumption.
      * cbn [length]. lia.
      * right. destruct Hr as [[-> ->]|Hr]; assumption.
    + rewrite <- (app_nil_r tr). apply HQ; [constructor | cbn; lia | auto].
Qed.

(** What follows the loop, in a steady environment: the logout is awaited
    if the session has a socket, then the removal of the directory if it
    has one, and the session leaves the registry. *)
Lemma wp_finalize_release_steady sid reason l o Q tr s :
  (exists o', heap s !! l = Some o' /\
              socket o' = socket o /\ authDir o' = authDir o) ->
  (forall tr' s',
     map fst tr'
     = match socket o with Some k => [CLogout k] | None => [] end
       ++ match truthy (authDir o) with Some d => [CRm d] | None => [] end ->
     sessions s' !! sid = None ->
     Q (tr ++ tr') (Returned tt) s') ->
  wp (steady_env sid l o) (finalize_release sid reason l) Q tr s.
Proof.
  intros (o0 & Hh0 & Hk0 & Hd0) HQ. unfold finalize_release.
  cbn -[truthy]. rewrite Hh0. cbn -[truthy]. rewrite Hk0.
  destruct (socket o) as [k|] eqn:Hk; cbn -[truthy].
  - intros a1 s1 (_ & _ & o1 & Hh1 & Hk1 & Hd1).
    rewrite Hh1. cbn -[truthy]. rewrite Hk1, Hk. cbn -[truthy].
    rewrite Hh1. cbn -[truthy]. rewrite Hd1.
    destruct (truthy (authDir o)) as [d|] eqn:Hd; cbn -[truthy].
    + intros a2 s2 (_ & _ & o2 & Hh2 & _ & _).
      wp_go.
      all: rewrite <- ?app_assoc; cbn [app].
      all: apply (HQ [_; _]); [reflexivity | cbn; apply lookup_delete_eq].
    + wp_go.
      all: apply (HQ [_]); [reflexivity | cbn; apply lookup_delete_eq].
  - rewrite Hh0. cbn -[truthy]. rewrite Hk0. cbn -[truthy].
    rewrite Hh0. cbn -[truthy]. rewrite Hd0.
    destruct (truthy (authDir o)) as [d|] eqn:Hd; cbn -[truthy].
    + intros a2 s2 (_ & _ & o2 & Hh2 & _ & _).
      wp_go.
      all: apply (HQ [_]); [reflexivity | cbn; apply lookup_delete_eq].
    + wp_go.
      all: rewrite <- (app_nil_r tr).
      all: apply (HQ []); [reflexivity | cbn; apply lookup_delete_eq].
Qed.

Lemma polls_only tr :
  Forall (fun ca => exists due, ca = (CSleep due, AUnit)) tr ->
  map fst tr = map CSleep (sleeps tr) /\ awaited tr = [].
Proof.
  induction 1 as [|ca tr (due & ->) _ [IH1 IH2]]; [split; reflexivity|].
  split; [cbn; f_equal; exact IH1 | exact IH2].
Qed.

Lemma released_only tr (cs : list call) :
  map fst tr = cs ->
  Forall (fun c => match c with CSleep _ => False | _ => True end) cs ->
  sleeps tr = [] /\ awaited tr = cs.
Proof.
  intros <-. induction tr as [|[c a] tr IH]; [split; reflexivity|].
  intros HF. apply Forall_cons in HF as [Hc HF]. destruct (IH HF) as [IH1 IH2].
  unfold sleeps, awaited in *. cbn.
  destruct c; try contradiction; cbn; rewrite ?IH1; (split; [reflexivity|]);
    f_equal; exact IH2.
Qed.

Lemma awaited_app tr1 tr2 : awaited (tr1 ++ tr2) = awaited tr1 ++ awaited tr2.
Proof. unfold awaited. now rewrite List.map_app, List.filter_app. Qed.

(** [finalizeSession] on a session that stays registered while the
    function waits: whatever becomes of [credsSaved], the polls are
    followed by the logout and by the removal of the directory, and the
    session leaves the registry. *)
Lemma wp_finalizeSession_steady sid reason l o s :
  sessions s !! sid = Some l -> heap s !! l = Some o ->
  wp (steady_env sid l o) (finalizeSession sid reason)
    (fun tr out s' =>
       out = Returned tt /\
       (length (sleeps tr) <= 15)%nat /\
       Forall (fun due => (due < now s + maxWait + 200)%Z) (sleeps tr) /\
       awaited tr
       = match socket o with Some k => [CLogout k] | None => [] end
         ++ match truthy (authDir o) with Some d => [CRm d] | None => [] end /\
       map fst tr = map CSleep (sleeps tr) ++ awaited tr /\
       sessions s' !! sid = None) [] s.
Proof.
  intros Hl Hh. unfold finalizeSession.
  cbn -[finalize_wait finalize_release loop_fuel maxWait]. rewrite Hl.
  cbn -[finalize_wait finalize_release loop_fuel maxWait].
  apply (wp_bind (steady_env sid l o) (finalize_wait loop_fuel sid (now s) l)).
  apply wp_finalize_wait_steady; [lia | unfold maxWait, loop_fuel; lia |].
  intros tr1 s1 HF Hlen Hr. cbn [app].
  assert (HF' : Forall (fun ca => exists due, ca = (CSleep due, AUnit)) tr1).
  { eapply Forall_impl; [exact HF|]. intros ca (due & -> & _). eauto. }
  destruct (polls_only tr1 HF') as [Hp1 Hp2].
  assert (Hn : (length (sleeps tr1) <= 15)%nat).
  { assert (length (sleeps tr1) = length tr1) as ->.
    { rewrite <- (length_map CSleep), <- Hp1. apply length_map. }
    unfold maxWait in Hlen. lia. }
  assert (Hd : Forall (fun due => (due < now s + maxWait + 200)%Z) (sleeps tr1)).
  { clear -HF. induction HF as [|ca tr (due & -> & Hdue) _ IH]; [constructor|].
    cbn. constructor; assumption. }
  apply wp_finalize_release_steady.
  { destruct Hr as [[_ ->]|Hr]; [eauto | exact Hr]. }
  intros tr2 s2 Htr2 Hs2.
  destruct (released_only tr2 _ Htr2) as [Hq1 Hq2].
  { destruct (socket o), (truthy (authDir o)); repeat constructor. }
  rewrite sleeps_app, awaited_app, Hq1, Hq2, Hp2, app_nil_r. cbn [app].
  repeat split; try assumption.
  rewrite List.map_app, Hp1, Htr2. reflexivity.
Qed.

(** With timers that fire when due, the polls are exactly 200 ms apart. *)
Lemma wp_finalize_wait_spaced sid start fuel :
  forall l Q tr s (j : nat),
  now s = (start + 200 * Z.of_nat j)%Z ->
  (forall tr' o s',
     (forall i due, sleeps tr' !! i = Some due ->
                    due = (start + 200 * Z.of_nat (j + S i))%Z) ->
     Q (tr ++ tr') o s') ->
  wp prompt_env (finalize_wait fuel sid start l) Q tr s.
Proof.
  assert (Hnil : forall (j i : nat) due, sleeps [] !! i = Some due ->
                   due = (start + 200 * Z.of_nat (j + S i))%Z)
    by (intros j [|i] due H; discriminate H).
  induction fuel as [|fuel IH]; intros l Q tr s j Hnow HQ.
  - apply wp_finalize_wait_zero.
    destruct (negb _ && _); rewrite <- (app_nil_r tr); apply HQ; apply Hnil.
  - apply wp_finalize_wait_step.
    destruct (negb _ && _) eqn:Hc.
    + intros a s' [_ Hs'].
      assert (Hcons : forall tr' : trace,
                (forall i due, sleeps tr' !! i = Some due ->
                   due = (start + 200 * Z.of_nat (S j + S i))%Z) ->
                forall i due,
                  sleeps ((CSleep (now s + 200)%Z, a) :: tr') !! i = Some due ->
                  due = (start + 200 * Z.of_nat (j + S i))%Z).
      { intros tr' H [|i] due; cbn.
        - intros [= <-]. lia.
        - intros Hi. rewrite (H i due Hi). lia. }
      destruct (sessions s' !! sid) as [l'|].
      * apply (IH _ _ _ _ (S j)); [lia|].
        intros tr' o s'' HF. rewrite <- app_assoc. apply HQ.
        apply Hcons. exact HF.
      * apply (HQ [_]). apply Hcons. apply Hnil.
    + rewrite <- (app_nil_r tr). apply HQ. apply Hnil.
Qed.

Lemma wp_finalizeSession_spaced sid reason s :
  wp prompt_env (finalizeSession sid reason)
    (fun tr _ _ => forall i due, sleeps tr !! i = Some due ->
                     due = (now s + 200 * Z.of_nat (S i))%Z)
    [] s.
Proof.
  unfold finalizeSession.
  cbn -[finalize_wait finalize_release loop_fuel maxWait].
  destruct (sessions s !! sid) as [l|];
    [|cbn; intros [|i] due H; discriminate H].
  cbn -[finalize_wait finalize_release loop_fuel maxWait].
  apply (wp_bind prompt_env (finalize_wait loop_fuel sid (now s) l)).
  apply (wp_finalize_wait_spaced _ _ _ _ _ _ _ 0%nat); [lia|].
  intros tr' o s' HF. cbn [app].
  destruct o as [[l'|]|e|]; try exact HF.
  apply wp_finalize_release; [exact prompt_env_sound|].
  intros tr2 s2 _ _ Hsl. now rewrite sleeps_app, Hsl, app_nil_r.
Qed.



(** The idle-timeout callback, in any environment.  The fields of the
    session are read once, when the callback starts, so the directory it
    removes is the one the session owned at that moment. *)
Lemma wp_idle_callback E sid Q s :
  sound_env E ->
  (forall tr s',
     sessions s' !! sid = None ->
     (forall d, (CRm d, AUnit) ∈ tr -> d ∉ disk s') ->
     (forall l o d, sessions s !! sid = Some l -> heap s !! l = Some o ->
                    truthy (authDir o) = Some d -> exists a, (CRm d, a) ∈ tr) ->
     Q tr (Returned tt) s') ->
  wp E (idle_callback sid) Q [] s.
Proof.
  intros HE HQ. unfold idle_callback.
  wp_go.
  all: rewrite <- ?app_assoc; cbn [app].
  all: apply HQ; [cbn; first [apply lookup_delete_eq | assumption]| |].
  all: try (intros l' o' d' Hl' Hh' Hd';
            try discriminate Hl'; try (injection Hl' as <-);
            repeat match goal with
              | H : context [heap _ !! _] |- _ =>
                  tryif constr_eq H Hh' then fail else
                    (rewrite Hh' in H; cbn -[truthy] in H)
              end;
            try congruence;
            match goal with
            | H1 : truthy (authDir ?o) = Some ?x,
              H2 : truthy (authDir ?o) = Some ?y |- _ =>
                assert (x = y) by congruence; subst
            end;
            eexists; apply list_elem_of_In; cbn; eauto).
  all: intros d Hd; repeat (apply elem_of_cons in Hd as [Hd|Hd]);
       try discriminate Hd; try (now apply elem_of_nil in Hd).
  all: injection Hd as <-.
  all: cbn.
  all: match goal with
       | H : _ (CRm _) _ AUnit _ |- _ =>
           apply HE in H as [? Hrm];
           apply settles_rm in Hrm as [[_ ->]|(? & Hrm & _)];
           [|discriminate Hrm]
       end.
  all: cbn; apply not_in_removed.
Qed.

(** [clearSession] is synchronous: it runs to its end in one stretch and
    leaves the logout and the removal of the directory to forked tasks,
    which are parked when it returns.  The directory is still on disk at
    that point. *)
Lemma run_clearSession sid s :
  exists s' fs,
    run (clearSession sid) s = (Finished tt, s', fs) /\
    sessions s' = delete sid (sessions s) /\
    disk s' = disk s /\ heap s' = heap s /\ conns s' = conns s /\
    log s' = log s /\
    (forall c k, (c, k) ∈ parked fs ->
       (exists n, c = CLogout n) \/
       (exists d, c = CRm d /\
          forall a s1, exists s2,
            run (k a) s1 = (Finished tt, s2, []) /\ disk s2 = disk s1)) /\
    (forall l o, sessions s !! sid = Some l -> heap s !! l = Some o ->
       (forall d, truthy (authDir o) = Some d -> CRm d ∈ map fst (parked fs)) /\
       (forall p, truthy (phone o) = Some p ->
          activeByPhone s !! p = Some sid -> activeByPhone s' !! p = None)) /\
    (forall p, activeByPhone s' !! p = activeByPhone s !! p \/
               activeByPhone s' !! p = None).
Proof.
  unfold clearSession. cbn -[truthy].
  destruct (sessions s !! sid) as [l|] eqn:Hl; cbn -[truthy].
  2: { eexists _, _. split; [reflexivity|].
       split; [symmetry; now apply delete_id|].
       repeat split; auto.
       - intros c k H. now apply elem_of_nil in H.
       - discriminate.
       - discriminate. }
  destruct (heap s !! l) as [o|] eqn:Hh; cbn -[truthy].
  - destruct (_idleTimer o), (socket o), (truthy (authDir o)) eqn:Hd,
      (truthy (phone o)) eqn:Hp; cbn -[truthy]; unfold unmap_phone;
      rewrite ?Hp; cbn -[truthy].
    all: repeat match goal with
           | |- context [decide ?P] => destruct (decide P); cbn -[truthy]
           end.
    all: eexists _, _; split; [reflexivity|]; cbn -[truthy].
    all: repeat split; auto.
    all: try (intros c k Hin;
              repeat (apply elem_of_cons in Hin as [Hin|Hin]);
              try (now apply elem_of_nil in Hin);
              injection Hin as -> ->;
              first [ left; eexists; reflexivity
                    | right; eexists; split; [reflexivity|];
                      intros ans st; destruct ans; eexists; split; reflexivity ]).
    all: try (intros; simplify_eq; apply list_elem_of_In; cbn; tauto).
    all: try (intros; simplify_eq; first [apply lookup_delete_eq | congruence]).
    all: intros p'; try (left; reflexivity).
    all: match goal with
         | |- context [delete ?q _ !! _] =>
             destruct (decide (p' = q)) as [->|Hne];
             [right; apply lookup_delete_eq | left; now apply lookup_delete_ne]
         end.
  - cbn. eexists _, _. split; [reflexivity|]. cbn.
    repeat split; auto.
    + intros c k H. now apply elem_of_nil in H.
    + intros; simplify_eq.
    + intros; simplify_eq.
Qed.



(** ** The pairing request *)

Lemma run_bind {A B : Type} (p : prog A) (g : A -> prog B) s :
  run (bind p g) s =
  let '(st, s', fs) := run p s in
  match st with
  | Finished a => let '(st', s'', fs') := run (g a) s' in (st', s'', fs ++ fs')
  | Failed e => (Failed e, s', fs)
  | Exhausted => (Exhausted, s', fs)
  | Blocked c k => (Blocked c (fun a => bind (k a) g), s', fs)
  end.
Proof.
  revert g s.
  induction p as [A a|A e|A|A B' f k IH|A c k IH|A p1 IH1 p2 IH2];
    intros g s; cbn [bind run].
  - destruct (run (g a) s) as [[st s'] fs]. reflexivity.
  - reflexivity.
  - reflexivity.
  - destruct (f s) as [b s']. apply IH.
  - reflexivity.
  - destruct (run p1 s) as [[st1 s1] fs1]. rewrite IH2.
    destruct (run p2 s1) as [[st s'] fs].
    destruct st as [a|e| |c k]; try reflexivity.
    + destruct (run (g a) s') as [[st' s''] fs']. now rewrite <- !app_assoc.
Qed.

Lemma lookup_snoc {A : Type} (h : list A) (x : A) : (h ++ [x]) !! length h = Some x.
Proof. rewrite lookup_app_r by lia. now rewrite Nat.sub_diag. Qed.

(** Registration of a pairing session: suspended on
    [useMultiFileAuthState]; when that succeeds, the rest runs in one
    stretch and leaves the new session in both maps. *)
Lemma run_start_pair_session sid p res s :
  exists k,
    run (start_pair_session sid (auth_path sid) p res) s
    = (Blocked (CAuthState (auth_path sid)) k, s, []) /\
    forall s', exists s'',
      run (k AUnit) s' = (Finished tt, s'', []) /\
      activeByPhone s'' = <[p := sid]> (activeByPhone s') /\
      sessions s'' = <[sid := length (heap s')]> (sessions s') /\
      heap s'' !! length (heap s') =
        Some (mkSession (Some (auth_path sid)) (Some (length (socks s')))
                (Some p) None false (Some (next_timer s'))) /\
      conns s'' = conns s' /\ disk s'' = disk s' /\
      on_conn (sock_of (length (socks s')) s'')
      = Some (PairListener sid (auth_path sid) p res).
Proof.
  eexists. split; [reflexivity|].
  intros s'. cbn -[auth_path].
  rewrite lookup_insert_eq. cbn -[auth_path].
  rewrite lookup_snoc. cbn -[auth_path].
  eexists. split; [reflexivity|]. cbn -[auth_path].
  repeat split.
  - apply insert_insert_eq.
  - rewrite list_lookup_alter_eq, lookup_snoc. reflexivity.
  - unfold sock_of. cbn.
    rewrite !list_lookup_alter_eq, lookup_snoc. reflexivity.
Qed.

(** The first stretch of [POST /pair] for a phone that has an active
    session: the handler logs, clears that session, and is then suspended
    on the creation of the new directory.  Nothing of the new session is
    registered yet and no response is written. *)
Lemma run_post_pair_first p new res s old :
  p <> "" -> old <> "" -> activeByPhone s !! p = Some old ->
  exists s1 fs k,
    run (clearSession old)
        (upd_log (fun l => l ++ [(Info, "clearing previous active pairing session for this phone")]) s)
    = (Finished tt, s1, fs) /\
    run (post_pair (Some p) new res) s
    = (Blocked (CMkdir (auth_path new)) k, s1, fs) /\
    (forall s2, run (k AUnit) s2
                = run (start_pair_session new (auth_path new) p res) s2) /\
    (forall e s2, run (k (AErr e)) s2 = (Failed e, s2, [])).
Proof.
  intros Hp Hold Hact.
  destruct (run_clearSession old (upd_log (fun l => l ++ [(Info, "clearing previous active pairing session for this phone")]) s))
    as (s1 & fs & Hrun & _).
  exists s1, fs. eexists. split; [exact Hrun|].
  unfold post_pair.
  assert (Ht : truthy (Some p) = Some p) by (destruct p; [contradiction | reflexivity]).
  rewrite Ht. cbn -[clearSession truthy auth_path start_pair_session].
  rewrite Hact.
  assert (Ht' : truthy (Some old) = Some old) by (destruct old; [contradiction | reflexivity]).
  rewrite Ht'. cbn -[clearSession truthy auth_path start_pair_session].
  rewrite run_bind, Hrun. cbn -[auth_path start_pair_session].
  rewrite app_nil_r. split; [reflexivity|]. split; reflexivity.
Qed.


(** C3 on the code.  The handler of [POST /pair] reads the phone index
    before its first [await] and writes it after its second.  In
    [overlapping_pair_run] the second request for the phone arrives while
    the first awaits [mkdir]: the index has no entry for the phone yet, so
    the second request clears nothing.  When both have registered, the two
    sessions are in the registry for the same phone, the index names the
    second only, the socket of the first is neither closed nor logged out,
    its idle timer and its directory are still there, and the line that
    announces a clearing was never logged. *)
Theorem C3_overlapping_pair_requests :
  (fun w => (activeByPhone (state w) !! "15550001", map fst (pool w)))
    <$> steps (take 2 overlapping_pair_run) (boot 300000)
  = Some (None, [CMkdir "auth/A"; CMkdir "auth/B"]) /\
  (fun w => (sessions (state w) !! "A", sessions (state w) !! "B",
             heap (state w),
             activeByPhone (state w) !! "15550001",
             (fun k => (ws_closed k, logouts k)) <$> socks (state w),
             map_to_list (timers (state w)),
             elements (disk (state w)),
             log (state w), map fst (pool w)))
    <$> steps overlapping_pair_run (boot 300000)
  = Some (Some 0%nat, Some 1%nat,
          [ mkSession (Some "auth/A") (Some 0%nat) (Some "15550001") None
              false (Some 0%nat);
            mkSession (Some "auth/B") (Some 1%nat) (Some "15550001") None
              false (Some 1%nat) ],
          Some "B",
          [(false, 0%nat); (false, 0%nat)],
          [(1%nat, ("B", 300000%Z)); (0%nat, ("A", 300000%Z))],
          ["auth/A"; "auth/B"],
          [], []).
Proof. split; vm_compute; reflexivity. Qed.

(** C4, as stated, fails: in the execution [superseded_run] the second
    request for the phone is answered with the id of its session while the
    directory of the first session is still on disk; its removal, which
    [clearSession] started and did not wait for, is still parked. *)
Lemma C4_counterexample :
  exists w, steps superseded_run (boot 300000) = Some w /\
            sent (conn_of 1 (state w)) = [(200, JPair "B" "ABCD1234")] /\
            "auth/A" ∈ disk (state w) /\
            CRm "auth/A" ∈ map fst (pool w).
Proof.
  eexists. split; [vm_compute; reflexivity|].
  split; [reflexivity|]. split.
  - apply elem_of_elements, list_elem_of_In. vm_compute. left. reflexivity.
  - apply list_elem_of_In. cbn. tauto.
Qed.

(** C4 (amended).  When [POST /pair] arrives for a phone [p] whose
    session [old] is registered with directory [d], then at the end of the
    first stretch of the handler, before anything is written to the
    response, the phone index no longer resolves [p] and [old] is out of
    the registry; the removal of [d] has been started and is not waited
    for: the disk is as it was, the removal is a parked task that never
    fails, and [d] is gone once it succeeds. *)
Theorem C4_pair_clears_previous (p old new d : string) (res l : nat)
    (o : Session) (s : State) :
  p <> "" -> old <> "" ->
  activeByPhone s !! p = Some old ->
  sessions s !! old = Some l -> heap s !! l = Some o ->
  phone o = Some p -> truthy (authDir o) = Some d ->
  exists s1 fs k,
    run (post_pair (Some p) new res) s
    = (Blocked (CMkdir (auth_path new)) k, s1, fs) /\
    activeByPhone s1 !! p = None /\
    sessions s1 !! old = None /\
    conns s1 = conns s /\
    disk s1 = disk s /\
    exists k', (CRm d, k') ∈ parked fs /\
      forall a s2 s3, settles (CRm d) a s2 = Some s3 ->
        exists s4, run (k' a) s3 = (Finished tt, s4, []) /\
                   (a = AUnit -> d ∉ disk s4).
Proof.
  intros Hp Hold Hact Hl Hh Hph Hd.
  destruct (run_post_pair_first p new res s old Hp Hold Hact)
    as (s1 & fs & k & Hclear & Hrun & _).
  exists s1, fs, k. split; [exact Hrun|].
  destruct (run_clearSession old
              (upd_log (fun l => l ++ [(Info, "clearing previous active pairing session for this phone")]) s))
    as (s1' & fs' & Hrun' & Hs & Hdisk & _ & Hconns & _ & Hpark & Hreg & _).
  rewrite Hclear in Hrun'. injection Hrun' as <- <-.
  destruct (Hreg l o Hl Hh) as [Hrm Hidx].
  split.
  { apply (Hidx p); [|exact Hact].
    rewrite Hph. destruct p; [contradiction | reflexivity]. }
  split; [rewrite Hs; apply lookup_delete_eq|].
  split; [exact Hconns|]. split; [exact Hdisk|].
  specialize (Hrm d Hd).
  apply list_elem_of_fmap in Hrm as ([c k'] & Hc & Hin). cbn in Hc. subst c.
  exists k'. split; [exact Hin|].
  intros a s2 s3 Hset.
  destruct (Hpark _ _ Hin) as [[n Hn]|(d' & Hd' & Hk)]; [discriminate Hn|].
  destruct (Hk a s3) as (s4 & Hr & Hd4). exists s4. split; [exact Hr|].
  intros ->. rewrite Hd4.
  apply settles_rm in Hset as [[_ ->]|(e & He & _)]; [|discriminate He].
  cbn. apply not_in_removed.
Qed.

Lemma C4_pair_clears_previous_witness :
  exists s1 fs k,
    run (post_pair (Some "15550001") "B" 1) paired_state
    = (Blocked (CMkdir (auth_path "B")) k, s1, fs) /\
    activeByPhone s1 !! "15550001" = None /\
    sessions s1 !! "A" = None /\
    conns s1 = conns paired_state /\
    disk s1 = disk paired_state /\
    exists k', (CRm "auth/A", k') ∈ parked fs /\
      forall a s2 s3, settles (CRm "auth/A") a s2 = Some s3 ->
        exists s4, run (k' a) s3 = (Finished tt, s4, []) /\
                   (a = AUnit -> "auth/A" ∉ disk s4).
Proof.
  apply (C4_pair_clears_previous "15550001" "A" "B" "auth/A" 1 0
           (mkSession (Some "auth/A") (Some 0) (Some "15550001") None false
              (Some 0)) paired_state);
    [discriminate | discriminate | reflexivity | reflexivity | reflexivity
    | reflexivity | reflexivity].
Defined.

(** ** The QR request *)

Lemma delete_snoc {A : Type} (l : list A) (x : A) :
  delete (length l) (l ++ [x]) = l.
Proof. induction l as [|y l IH]; cbn; [reflexivity | f_equal; exact IH]. Qed.

(** C5 on the code: when the creation of the directory fails, the
    handler of [POST /qr] is rejected where it awaits [mkdir], before its
    [try] block is entered.  Nothing is written to the response (no
    status 500, no [error] body), the rejection is handled by nobody, and
    the registry is as it was. *)
Theorem C5_mkdir_failure_unreported (uuid e : string) (w : World) :
  exists w1 k w2,
    step (PostQr uuid) w = Some w1 /\
    pool w1 = pool w ++ [(CMkdir (auth_path uuid), k)] /\
    step (Settle (length (pool w)) (AErr e)) w1 = Some w2 /\
    conn_of (length (conns (state w))) (state w2) = new_conn /\
    unhandled w2 = unhandled w ++ [e] /\
    pool w2 = pool w /\
    sessions (state w2) = sessions (state w).
Proof.
  eexists _, _, _. split; [reflexivity|]. split; [reflexivity|].
  cbn -[auth_path]. rewrite lookup_snoc. cbn -[auth_path].
  split; [reflexivity|].
  unfold conn_of. cbn. rewrite lookup_snoc.
  rewrite !app_nil_r.
  split; [reflexivity|]. split; [reflexivity|]. split; [|reflexivity].
  apply delete_snoc.
Qed.

Example mkdir_denied :
  exists w, steps mkdir_denied_run (boot 300000) = Some w /\
            conns (state w) = [new_conn] /\
            unhandled w = ["EACCES"] /\ pool w = [] /\
            sessions (state w) = ∅.
Proof. eexists. split; [vm_compute; reflexivity|]. repeat split. Qed.

(** ** Invariants *)

Lemma keeps_mono {A : Type} I (p : prog A) (Q Q' : Prop -> outcome A -> State -> Prop) ok s :
  (forall ok o s, Q ok o s -> Q' ok o s) ->
  keeps I p Q ok s -> keeps I p Q' ok s.
Proof.
  revert Q Q' ok s.
  induction p as [A a|A e|A|A B' f k IH|A c k IH|A p1 IH1 p2 IH2];
    intros Q Q' ok s HQ; cbn.
  - apply HQ.
  - apply HQ.
  - apply HQ.
  - apply IH, HQ.
  - intros [H1 H2]. split; [exact H1|]. intros a s'.
    apply (IH a Q Q' _ _ HQ), H2.
  - intros [H1 H2]. split; [exact H1|]. apply (IH2 Q Q' _ _ HQ), H2.
Qed.

Lemma keeps_bind {A B : Type} I (p : prog A) (g : A -> prog B) Q ok s :
  keeps I p (fun ok' o s' =>
               match o with
               | Returned a => keeps I (g a) Q ok' s'
               | Thrown e => Q ok' (Thrown e) s'
               | GaveUp => Q ok' GaveUp s'
               end) ok s ->
  keeps I (bind p g) Q ok s.
Proof.
  revert g Q ok s.
  induction p as [A a|A e|A|A B' f k IH|A c k IH|A p1 IH1 p2 IH2];
    intros g Q ok s; cbn.
  - exact id.
  - exact id.
  - exact id.
  - apply IH.
  - intros [H1 H2]. split; [exact H1|]. intros a s'. apply IH, H2.
  - intros [H1 H2]. split; [exact H1|]. apply IH2, H2.
Qed.

Lemma keeps_try_catch {A : Type} I (p : prog A) (h : string -> prog A) Q ok s :
  keeps I p (fun ok' o s' =>
               match o with
               | Thrown e => keeps I (h e) Q ok' s'
               | _ => Q ok' o s'
               end) ok s ->
  keeps I (try_catch p h) Q ok s.
Proof.
  revert h Q ok s.
  induction p as [A a|A e|A|A B' f k IH|A c k IH|A p1 IH1 p2 IH2];
    intros h Q ok s; cbn.
  - exact id.
  - exact id.
  - exact id.
  - apply IH.
  - intros [H1 H2]. split; [exact H1|]. intros a s'. apply IH, H2.
  - intros [H1 H2]. split; [exact H1|]. apply IH2, H2.
Qed.

(** What [keeps] says about one stretch. *)
Lemma keeps_run {A : Type} I (p : prog A) Q ok s :
  keeps I p Q ok s ->
  match (run p s).1.1 with
  | Finished a => Q ok (Returned a) (run p s).1.2
  | Failed e => Q ok (Thrown e) (run p s).1.2
  | Exhausted => Q ok GaveUp (run p s).1.2
  | Blocked c k =>
      (ok -> I (run p s).1.2) /\ forall a s', keeps I (k a) Q (I s') s'
  end /\
  Forall (fun st => match st with
                    | Blocked c k => task_safe I (c, k)
                    | _ => True
                    end) (run p s).2.
Proof.
  revert Q ok s.
  induction p as [A a|A e|A|A B' f k IH|A c k IH|A p1 IH1 p2 IH2];
    intros Q ok s; cbn.
  - intros H. split; [exact H | constructor].
  - intros H. split; [exact H | constructor].
  - intros H. split; [exact H | constructor].
  - intros H. destruct (f s) as [b s1] eqn:Hf. cbn in H. apply IH, H.
  - intros H. split; [exact H | constructor].
  - intros [H1 H2].
    destruct (IH1 _ _ _ H1) as [Ha Hb]. destruct (IH2 _ _ _ H2) as [Hc Hd].
    destruct (run p1 s) as [[st1 s1] fs1]. cbn in *.
    destruct (run p2 s1) as [[st2 s2] fs2]. cbn in *.
    split; [exact Hc|].
    apply Forall_app. split; [exact Hb|].
    apply Forall_cons. split; [|exact Hd].
    destruct st1; auto. intros a s'. apply Ha.
Qed.

Lemma keeps_run_state {A : Type} I (p : prog A) ok s :
  keeps I p (ends_well I) ok s -> ok -> I (run p s).1.2.
Proof.
  intros H Hok. apply keeps_run in H as [H _].
  destruct ((run p s).1.1); apply H, Hok.
Qed.

Section Safe.
Context (I : State -> Prop).

Lemma safe_ret {A : Type} (a : A) : safe I (Ret a).
Proof. intros Q ok s Hs HQ. apply HQ, Hs. Qed.

Lemma safe_throw {A : Type} e : safe I (@Throw A e).
Proof. intros Q ok s Hs HQ. apply HQ, Hs. Qed.

Lemma safe_out_of_fuel {A : Type} : safe I (@OutOfFuel A).
Proof. intros Q ok s Hs HQ. apply HQ, Hs. Qed.

Lemma safe_act {A B : Type} (f : State -> B * State) (k : B -> prog A) :
  (forall s, I s -> I (f s).2) -> (forall b, safe I (k b)) -> safe I (Act f k).
Proof. intros Hf Hk Q ok s Hs HQ. cbn. apply Hk; auto. Qed.

Lemma safe_await {A : Type} c (k : answer -> prog A) :
  (forall a, safe I (k a)) -> safe I (Await c k).
Proof.
  intros Hk Q ok s Hs HQ. cbn. split; [exact Hs|].
  intros a s'. apply Hk; auto.
Qed.

Lemma safe_fork {A : Type} (p : prog unit) (k : prog A) :
  safe I p -> safe I k -> safe I (Fork p k).
Proof.
  intros Hp Hk Q ok s Hs HQ. cbn.
  split; [apply Hp; [tauto | auto]|]. apply Hk; [|exact HQ].
  apply keeps_run_state, Hp; auto.
Qed.

Lemma safe_bind {A B : Type} (p : prog A) (g : A -> prog B) :
  safe I p -> (forall a, safe I (g a)) -> safe I (p ≫= g).
Proof.
  intros Hp Hg Q ok s Hs HQ. apply keeps_bind, Hp; [exact Hs|].
  intros ok' [a|e|] s' Hs'; [apply Hg; auto | apply HQ, Hs' ..].
Qed.

Lemma safe_try_catch {A : Type} (p : prog A) (h : string -> prog A) :
  safe I p -> (forall e, safe I (h e)) -> safe I (try_catch p h).
Proof.
  intros Hp Hh Q ok s Hs HQ. apply keeps_try_catch, Hp; [exact Hs|].
  intros ok' [a|e|] s' Hs'; [apply HQ, Hs' | apply Hh; auto | apply HQ, Hs'].
Qed.

Lemma safe_get {B : Type} (f : State -> B) : safe I (get f).
Proof. apply safe_act; [auto | intros; apply safe_ret]. Qed.

Lemma safe_put (f : State -> State) :
  (forall s, I s -> I (f s)) -> safe I (put f).
Proof. intros Hf. apply safe_act; [exact Hf | intros; apply safe_ret]. Qed.

Lemma safe_skip : safe I skip.
Proof. apply safe_ret. Qed.

Lemma safe_await_op c : safe I (await c).
Proof.
  apply safe_await. intros []; first [apply safe_ret | apply safe_throw].
Qed.

Lemma safe_settle_quietly c : safe I (settle_quietly c).
Proof. apply safe_await. intros _. apply safe_ret. Qed.

Lemma safe_await_str c : safe I (await_str c).
Proof.
  unfold await_str. apply safe_bind; [apply safe_await_op|].
  intros []; first [apply safe_ret | apply safe_throw].
Qed.

(** Starting a task in a world. *)
Lemma spawn_safe (p : prog unit) (w : World) ok :
  keeps I p (ends_well I) ok (state w) ->
  pool_safe I w ->
  pool_safe I (spawn p w) /\ (ok -> I (state (spawn p w))).
Proof.
  intros Hp Hw. pose proof (keeps_run_state _ _ _ _ Hp) as Hst.
  apply keeps_run in Hp as [Hlast Hforked].
  unfold spawn, pool_safe in *.
  destruct (run p (state w)) as [[st s'] fs]. cbn in *.
  split; [|exact Hst].
  apply Forall_app. split; [exact Hw|].
  unfold parked. apply Forall_forall. intros [c k] Hin.
  apply list_elem_of_omap in Hin as (st' & Hin & Hst').
  destruct st'; try discriminate Hst'. injection Hst' as -> ->.
  apply elem_of_app in Hin as [Hin|Hin].
  - rewrite Forall_forall in Hforked. apply (Hforked _ Hin).
  - apply list_elem_of_singleton in Hin. subst st.
    intros a s1. apply Hlast.
Qed.

End Safe.

(** [inv] is kept by every step, if the environment and the handlers
    keep the invariant. *)
Section Invariant.
Context (I I' : State -> Prop) (allowed : event -> Prop).
Hypothesis settles_I : forall c a s s', settles c a s = Some s' -> I s -> I s'.
Hypothesis react_I : forall e s s' p,
  allowed e -> I s -> react e s = Some (s', p) ->
  I s' /\ safe I p /\ safe I' p.

Lemma pool_safe_delete J i (w : World) s u g :
  pool_safe J w -> pool_safe J (mkWorld s (delete i (pool w)) u g).
Proof.
  unfold pool_safe. cbn. intros H. apply Forall_forall. intros t Ht.
  rewrite Forall_forall in H. apply H.
  eapply elem_of_sublist; [exact Ht | apply sublist_delete].
Qed.

Lemma step_inv e w w' :
  allowed e -> inv I I' w -> step e w = Some w' -> inv I I' w'.
Proof.
  intros Ha (Hs & Hp & Hp') Hstep.
  destruct e; unfold step in Hstep.
  2: { (* an operation settles *)
    destruct (pool w !! i) as [[c k]|] eqn:Hi; [|discriminate].
    destruct (settles c a (state w)) as [s1|] eqn:Hset; [|discriminate].
    injection Hstep as <-.
    assert (Hin : (c, k) ∈ pool w) by (eapply list_elem_of_lookup_2; eauto).
    pose proof (settles_I _ _ _ _ Hset Hs) as Hs1.
    unfold pool_safe in Hp, Hp'. rewrite Forall_forall in Hp, Hp'.
    destruct (spawn_safe I (k a)
                (mkWorld s1 (delete i (pool w)) (unhandled w) (gave_up w)) (I s1))
      as [Hq Hst].
    { apply (Hp _ Hin). }
    { apply pool_safe_delete. apply Forall_forall, Hp. }
    destruct (spawn_safe I' (k a)
                (mkWorld s1 (delete i (pool w)) (unhandled w) (gave_up w)) (I' s1))
      as [Hq' _].
    { apply (Hp' _ Hin). }
    { apply pool_safe_delete. apply Forall_forall, Hp'. }
    split; [apply Hst, Hs1|]. split; assumption. }
  all: match type of Hstep with
       | match ?r with _ => _ end = _ =>
           destruct r as [[s1 p]|] eqn:Hr; [|discriminate]
       end.
  all: injection Hstep as <-.
  all: destruct (react_I _ _ _ _ Ha Hs Hr) as (Hs1 & Hsafe & Hsafe').
  all: destruct (spawn_safe I p
                   (mkWorld s1 (pool w) (unhandled w) (gave_up w)) True)
         as [Hq Hst]; [apply Hsafe; cbn; auto | exact Hp |].
  all: destruct (spawn_safe I' p
                   (mkWorld s1 (pool w) (unhandled w) (gave_up w)) False)
         as [Hq' _]; [apply Hsafe'; cbn; tauto | exact Hp' |].
  all: split; [apply Hst; exact Logic.I|]; split; assumption.
Qed.

Lemma steps_inv es : forall w w',
  Forall allowed es -> inv I I' w -> steps es w = Some w' -> inv I I' w'.
Proof.
  induction es as [|e es IH]; intros w w' Hall Hw Hsteps; cbn in Hsteps.
  - now injection Hsteps as <-.
  - apply Forall_cons in Hall as [He Hall].
    destruct (step e w) as [w1|] eqn:Hstep; [|discriminate].
    apply (IH w1 w' Hall); [|exact Hsteps].
    eapply step_inv; eauto.
Qed.

End Invariant.

(** *** Walking through a piece of code

    [safe_go lem stable] proves [safe I p] along the structure of [p]:
    [lem] is tried first on every piece (for the loops and for what needs
    a look at the state), [stable] shows that a synchronous step keeps [I]. *)
Ltac head_of t :=
  lazymatch t with
  | ?f _ => head_of f
  | _ => t
  end.

Ltac safe_step lem stable :=
  first
    [ lem
    | lazymatch goal with
      | |- safe _ (Ret _) => apply safe_ret
      | |- safe _ (mret _) => apply safe_ret
      | |- safe _ skip => apply safe_skip
      | |- safe _ (Throw _) => apply safe_throw
      | |- safe _ OutOfFuel => apply safe_out_of_fuel
      | |- safe _ (mbind _ _) => apply safe_bind; [|intros ?]
      | |- safe _ (try_catch _ _) => apply safe_try_catch; [|intros ?]
      | |- safe _ (Fork _ _) => apply safe_fork
      | |- safe _ (Await _ _) => apply safe_await; intros ?
      | |- safe _ (get _) => apply safe_get
      | |- safe _ (put _) => apply safe_put; intros ? ?; stable
      | |- safe _ (Act _ _) => apply safe_act; [intros ? ?; stable | intros ?]
      | |- safe _ (match ?x with _ => _ end) => destruct x
      | |- safe _ ?p => let h := head_of p in progress unfold h
      end ].

Ltac safe_go lem stable := repeat safe_step lem stable.

(** ** One response per request *)

Lemma responds_once_alter (f : Conn -> Conn) r s :
  (forall c, replied_once c -> replied_once (f c)) ->
  responds_once s -> responds_once (upd_conns (alter f r) s).
Proof.
  intros Hf Hs. unfold responds_once. cbn.
  apply Forall_alter; [exact Hs|]. intros c _. apply Hf.
Qed.

Ltac responds_once_step :=
  first
    [ eassumption
    | apply responds_once_alter; [|eassumption];
      let c := fresh "c" in
      intros c [? ?]; try destruct (ended c); split; cbn in *; auto; congruence ].

(** Express refuses a second response: [res.json] writes only while the
    headers are unsent. *)
Lemma safe_res_json r code b : safe responds_once (res_json r code b).
Proof.
  intros Q ok s Hs HQ. unfold res_json. cbn.
  destruct (headersSent (conn_of r s)) eqn:Hh; cbn; apply HQ; [exact Hs|].
  intros Hok. specialize (Hs Hok). unfold responds_once in *. cbn.
  apply Forall_alter; [exact Hs|].
  intros c Hc [_ Hnone]. unfold conn_of in Hh. rewrite Hc in Hh. cbn in Hh.
  split; cbn; [|discriminate]. rewrite (Hnone Hh). cbn. lia.
Qed.

Lemma safe_finalize_wait_once fuel : forall sid start l,
  safe responds_once (finalize_wait fuel sid start l).
Proof.
  induction fuel as [|fuel IH]; intros sid start l; cbn [finalize_wait].
  - safe_go fail responds_once_step.
  - safe_go ltac:(apply IH) responds_once_step.
Qed.

Lemma safe_waitForWsOpen_once fuel : forall k start timeout,
  safe responds_once (waitForWsOpen fuel k start timeout).
Proof.
  induction fuel as [|fuel IH]; intros k start timeout; cbn [waitForWsOpen].
  - safe_go fail responds_once_step.
  - safe_go ltac:(apply IH) responds_once_step.
Qed.

Lemma safe_serialize_files_once dir files : forall out,
  safe responds_once (serialize_files dir files out).
Proof.
  induction files as [|f files IH]; intros out; cbn [serialize_files].
  - safe_go fail responds_once_step.
  - safe_go ltac:(apply IH) responds_once_step.
Qed.

Ltac once_lemmas :=
  first [ apply safe_res_json | apply safe_finalize_wait_once
        | apply safe_waitForWsOpen_once | apply safe_serialize_files_once ].

Lemma safe_idle_callback_once sid : safe responds_once (idle_callback sid).
Proof. safe_go once_lemmas responds_once_step. Qed.

Lemma safe_get_events_once id res : safe responds_once (get_events id res).
Proof. safe_go once_lemmas responds_once_step. Qed.

Lemma safe_events_closed_once id res : safe responds_once (events_closed id res).
Proof. safe_go once_lemmas responds_once_step. Qed.

Lemma safe_creds_update_once sid dir : safe responds_once (creds_update sid dir).
Proof. safe_go once_lemmas responds_once_step. Qed.

Lemma safe_post_qr_once uuid res : safe responds_once (post_qr uuid res).
Proof. safe_go once_lemmas responds_once_step. Qed.

Lemma safe_post_pair_once p uuid res : safe responds_once (post_pair p uuid res).
Proof. safe_go once_lemmas responds_once_step. Qed.

Lemma safe_qr_connection_update_once sid dir k res u :
  safe responds_once (qr_connection_update sid dir k res u).
Proof. safe_go once_lemmas responds_once_step. Qed.

Lemma safe_pair_connection_update_once sid dir p k res u :
  safe responds_once (pair_connection_update sid dir p k res u).
Proof. safe_go once_lemmas responds_once_step. Qed.

Lemma responds_once_settles c a s s' :
  settles c a s = Some s' -> responds_once s -> responds_once s'.
Proof.
  intros Hset Hs. destruct c, a; cbn in Hset; try discriminate Hset;
    try (destruct (decide _); [|discriminate Hset]);
    injection Hset as <-; exact Hs.
Qed.

Lemma responds_once_new s :
  responds_once s -> responds_once (upd_conns (fun l => l ++ [new_conn]) s).
Proof.
  intros Hs. unfold responds_once. cbn. apply Forall_app. split; [exact Hs|].
  apply Forall_cons. split; [|constructor]. split; cbn; auto.
Qed.

Lemma responds_once_react e s s' p :
  responds_once s -> react e s = Some (s', p) ->
  responds_once s' /\ safe responds_once p.
Proof.
  intros Hs Hr. destruct e; cbn in Hr.
  - destruct (decide _); [|discriminate Hr]. injection Hr as <- <-.
    split; [exact Hs | apply safe_skip].
  - discriminate Hr.
  - destruct (timers s !! t) as [[sid due]|]; [|discriminate Hr].
    destruct (decide _); [|discriminate Hr]. injection Hr as <- <-.
    split; [exact Hs | apply safe_idle_callback_once].
  - injection Hr as <- <-.
    split; [now apply responds_once_new | apply safe_get_events_once].
  - injection Hr as <- <-.
    split; [now apply responds_once_new | apply safe_post_qr_once].
  - injection Hr as <- <-.
    split; [now apply responds_once_new | apply safe_post_pair_once].
  - destruct (on_close (conn_of res s)); [|discriminate Hr].
    injection Hr as <- <-. split; [|apply safe_events_closed_once].
    apply responds_once_alter; [|exact Hs]. intros c [? ?]. split; auto.
  - destruct (on_creds (sock_of k s)) as [[sid dir]|]; [|discriminate Hr].
    injection Hr as <- <-. split; [exact Hs | apply safe_creds_update_once].
  - destruct (on_conn (sock_of k s)) as [[sid dir res|sid dir ph res]|];
      [| |discriminate Hr]; injection Hr as <- <-; (split; [exact Hs|]).
    + apply safe_qr_connection_update_once.
    + apply safe_pair_connection_update_once.
  - injection Hr as <- <-. split; [exact Hs | apply safe_skip].
  - injection Hr as <- <-. split; [exact Hs | apply safe_skip].
Qed.



(** The listener of [POST /qr] looks at [resSent] before it renders the
    code, not when it writes: of two codes rendered at the same time only
    the first reaches the client. *)
Example second_qr_refused :
  exists w, steps overlapping_qr_run (boot 300000) = Some w /\
            sent (conn_of 0 (state w))
            = [(200, JQr "u1" "data:image/png;base64,AAAA")] /\
            log (state w) = [(Warn, "failed generating qr dataurl")] /\
            pool w = [] /\ unhandled w = [].
Proof. eexists. split; [vm_compute; reflexivity|]. repeat split. Qed.

(** ** The record of an event stream *)

Section Lasting.
Context (b : bool) (id : string).

Lemma lasting_sessions_delete sid s :
  sid <> id -> lasting b id s -> lasting b id (upd_sessions (delete sid) s).
Proof.
  intros Hne (Hu & Ha & Hr & Hs). split; [exact Hu|]. split; [|split].
  - intros sid' l Hl. cbn in Hl. apply lookup_delete_Some in Hl as [_ Hl].
    apply (Ha _ _ Hl).
  - intros l Hl. cbn in Hl. rewrite lookup_delete_ne in Hl by exact Hne.
    destruct (Hr l Hl) as [Ho Hal]. split; [exact Ho|].
    intros sid' Hl'. cbn in Hl'. apply lookup_delete_Some in Hl' as [_ Hl'].
    auto.
  - intros Hb. cbn. rewrite lookup_delete_ne by exact Hne. auto.
Qed.

(** [sessions.set(sid, sess)] for the record [sid] already has. *)
Lemma lasting_sessions_reset sid l s :
  sessions s !! sid = Some l ->
  lasting b id s -> lasting b id (upd_sessions (insert sid l) s).
Proof.
  intros Hl Hs.
  assert (Heq : upd_sessions (insert sid l) s = s).
  { destruct s. unfold upd_sessions. cbn in *. f_equal.
    now apply insert_id. }
  rewrite Heq. exact Hs.
Qed.

(** A new object, registered at once. *)
Lemma lasting_alloc_set sid o' s :
  (sid = id -> bare o') ->
  lasting b id s ->
  lasting b id (upd_sessions (insert sid (length (heap s)))
                  (upd_heap (fun h => h ++ [o']) s)).
Proof.
  intros Ho' (Hu & Ha & Hr & Hs). split; [exact Hu|]. split; [|split].
  - intros sid' l Hl. cbn in *. rewrite length_app. cbn.
    apply lookup_insert_Some in Hl as [[_ <-]|[_ Hl]]; [lia|].
    specialize (Ha _ _ Hl). lia.
  - intros l Hl. cbn in *.
    apply lookup_insert_Some in Hl as [[-> <-]|[Hne Hl]].
    + split.
      * exists o'. split; [apply lookup_snoc | auto].
      * intros sid' Hl'.
        apply lookup_insert_Some in Hl' as [[<- _]|[_ Hl']]; [reflexivity|].
        specialize (Ha _ _ Hl'). lia.
    + destruct (Hr l Hl) as [(o & Ho & Hbare) Hal]. split.
      * exists o. split; [|exact Hbare].
        rewrite lookup_app_l by (eapply lookup_lt_Some; eauto). exact Ho.
      * intros sid' Hl'.
        apply lookup_insert_Some in Hl' as [[_ <-]|[_ Hl']]; [|auto].
        specialize (Ha _ _ Hl). lia.
  - intros Hb. cbn. apply lookup_insert_is_Some.
    destruct (decide (sid = id)); auto.
Qed.

Lemma lasting_heap_new o' s :
  lasting b id s -> lasting b id (upd_heap (fun h => h ++ [o']) s).
Proof.
  intros (Hu & Ha & Hr & Hs). split; [exact Hu|]. split; [|split; [|exact Hs]].
  - intros sid l Hl. cbn in *. rewrite length_app. specialize (Ha _ _ Hl). lia.
  - intros l Hl. destruct (Hr l Hl) as [(o & Ho & Hbare) Hal].
    split; [|exact Hal]. exists o. split; [|exact Hbare]. cbn.
    rewrite lookup_app_l by (eapply lookup_lt_Some; eauto). exact Ho.
Qed.

(** A change of a record that leaves a bare record bare. *)
Lemma lasting_heap_alter (f : Session -> Session) l' s :
  (forall o, bare o -> bare (f o)) ->
  lasting b id s -> lasting b id (upd_heap (alter f l') s).
Proof.
  intros Hf (Hu & Ha & Hr & Hs). split; [exact Hu|]. split; [|split; [|exact Hs]].
  - intros sid l Hl. cbn in *. rewrite length_alter. eauto.
  - intros l Hl. destruct (Hr l Hl) as [(o & Ho & Hbare) Hal].
    split; [|exact Hal]. cbn. destruct (decide (l = l')) as [->|Hne].
    + exists (f o). rewrite list_lookup_alter_eq, Ho. split; [reflexivity|auto].
    + exists o. rewrite list_lookup_alter_ne by auto. auto.
Qed.

(** Any change of the record of another id. *)
Lemma lasting_heap_alter_other (f : Session -> Session) sid l' s :
  sid <> id -> sessions s !! sid = Some l' ->
  lasting b id s -> lasting b id (upd_heap (alter f l') s).
Proof.
  intros Hne Hl' (Hu & Ha & Hr & Hs).
  split; [exact Hu|]. split; [|split; [|exact Hs]].
  - intros sid' l Hl. cbn in *. rewrite length_alter. eauto.
  - intros l Hl. destruct (Hr l Hl) as [(o & Ho & Hbare) Hal].
    split; [|exact Hal]. exists o. split; [|exact Hbare]. cbn.
    rewrite list_lookup_alter_ne; [exact Ho|].
    intros ->. apply Hne. apply Hal. exact Hl'.
Qed.

Lemma lasting_phone_set p sid s :
  sid <> id -> lasting b id s -> lasting b id (upd_activeByPhone (insert p sid) s).
Proof.
  intros Hne [(Ht & Hl & Hp) Hs]. split; [|exact Hs].
  split; [exact Ht|]. split; [exact Hl|]. cbn. intros p' v Hv.
  apply lookup_insert_Some in Hv as [[_ <-]|[_ Hv]]; [exact Hne | eauto].
Qed.

Lemma lasting_phone_delete p s :
  lasting b id s -> lasting b id (upd_activeByPhone (delete p) s).
Proof.
  intros [(Ht & Hl & Hp) Hs]. split; [|exact Hs].
  split; [exact Ht|]. split; [exact Hl|]. cbn. intros p' v Hv.
  apply lookup_delete_Some in Hv as [_ Hv]. eauto.
Qed.

Lemma lasting_timer_set t sid due n s :
  sid <> id -> lasting b id s ->
  lasting b id (upd_timers (insert t (sid, due)) n s).
Proof.
  intros Hne [(Ht & Hl & Hp) Hs]. split; [|exact Hs].
  split; [|split; [exact Hl | exact Hp]]. cbn. intros t' x Hx.
  apply lookup_insert_Some in Hx as [[_ <-]|[_ Hx]]; [exact Hne | eauto].
Qed.

Lemma lasting_timer_delete t n s :
  lasting b id s -> lasting b id (upd_timers (delete t) n s).
Proof.
  intros [(Ht & Hl & Hp) Hs]. split; [|exact Hs].
  split; [|split; [exact Hl | exact Hp]]. cbn. intros t' x Hx.
  apply lookup_delete_Some in Hx as [_ Hx]. eauto.
Qed.

Lemma lasting_sock_alter (f : Sock -> Sock) k s :
  (forall c l, on_conn (f c) = Some l ->
               on_conn c = Some l \/ listens_to l <> id) ->
  lasting b id s -> lasting b id (upd_socks (alter f k) s).
Proof.
  intros Hf [(Ht & Hl & Hp) Hs]. split; [|exact Hs].
  split; [exact Ht|]. split; [|exact Hp]. cbn. intros k' c' l Hc' Hl'.
  destruct (decide (k' = k)) as [->|Hne].
  - rewrite list_lookup_alter_eq in Hc'.
    destruct (socks s !! k) as [c|] eqn:Hc; [|discriminate Hc'].
    injection Hc' as <-. destruct (Hf _ _ Hl') as [H|H]; eauto.
  - rewrite list_lookup_alter_ne in Hc' by auto. eauto.
Qed.

Lemma lasting_sock_new s :
  lasting b id s -> lasting b id (upd_socks (fun l => l ++ [new_sock]) s).
Proof.
  intros [(Ht & Hl & Hp) Hs]. split; [|exact Hs].
  split; [exact Ht|]. split; [|exact Hp]. cbn. intros k c l Hc Hl'.
  apply lookup_app_Some in Hc as [Hc|[_ Hc]]; [eauto|].
  apply list_lookup_singleton_Some in Hc as [_ <-]. discriminate Hl'.
Qed.

End Lasting.

Ltac bare_step :=
  let o := fresh "o" in
  intros o (? & ? & ?); repeat split; cbn; assumption.

Ltac lasting_step1 :=
  first
    [ eassumption
    | apply lasting_sessions_delete; [assumption|]
    | apply lasting_sessions_reset; [cbn; eassumption|]
    | apply lasting_phone_set; [assumption|]
    | apply lasting_phone_delete
    | apply lasting_timer_set; [assumption|]
    | apply lasting_timer_delete
    | apply lasting_sock_new
    | apply lasting_heap_new
    | apply lasting_heap_alter; [bare_step|]
    | eapply lasting_heap_alter_other; [eassumption | cbn; eassumption |]
    | apply lasting_sock_alter;
      [ let c := fresh "c" in let l := fresh "l" in let H := fresh "H" in
        intros c l H; cbn in H;
        first [ left; exact H
              | right; injection H as <-; cbn; assumption ] | ] ].

Ltac lasting_step := solve [repeat lasting_step1].

(** The pieces of code whose effect depends on what they read. *)
Section LastingBlocks.
Context (b : bool) (id : string).

Lemma safe_startIdleTimer_lasting sid :
  sid <> id -> safe (lasting b id) (startIdleTimer sid).
Proof.
  intros Hne Q ok s Hs HQ. unfold startIdleTimer. cbn.
  destruct (sessions s !! sid) as [l|] eqn:Hl; cbn; [|apply HQ, Hs].
  destruct (_idleTimer _); cbn; apply HQ; intros Hok; specialize (Hs Hok);
    lasting_step.
Qed.

Lemma alter_snoc {A : Type} (f : A -> A) (h : list A) (x : A) :
  alter f (length h) (h ++ [x]) = h ++ [f x].
Proof. induction h as [|y h IH]; cbn; [reflexivity | f_equal; exact IH]. Qed.

Lemma safe_attachSSEToSession_lasting id' res :
  safe (lasting b id) (attachSSEToSession id' res).
Proof.
  intros Q ok s Hs HQ. unfold attachSSEToSession. cbn.
  destruct (sessions s !! id') as [l|] eqn:Hl; cbn; apply HQ; intros Hok;
    specialize (Hs Hok).
  - lasting_step.
  - match goal with
    | |- lasting _ _ ?S =>
        replace S with
          (upd_sessions (insert id' (length (heap s)))
             (upd_heap (fun h => h ++ [set_sse (Some res) empty_session]) s))
          by (unfold upd_sessions, upd_heap; cbn; f_equal;
              symmetry; apply alter_snoc)
    end.
    apply lasting_alloc_set; [|exact Hs]. intros _. repeat split.
Qed.

(** [sessions.set(sid, { ... })] with a new object. *)
Lemma safe_alloc_set_lasting sid o' (rest : prog unit) :
  sid <> id -> safe (lasting b id) rest ->
  safe (lasting b id) (l ← new_object o'; sessions_set sid l;; rest).
Proof.
  intros Hne Hrest Q ok s Hs HQ. cbn. apply Hrest; [|exact HQ].
  intros Hok. apply lasting_alloc_set; [contradiction | auto].
Qed.

End LastingBlocks.

Section LastingCode.
Context (b : bool) (id : string).

Lemma safe_finalize_wait_lasting fuel : forall sid start l,
  safe (lasting b id) (finalize_wait fuel sid start l).
Proof.
  induction fuel as [|fuel IH]; intros sid start l; cbn [finalize_wait].
  - safe_go fail lasting_step.
  - safe_go ltac:(apply IH) lasting_step.
Qed.

Lemma safe_waitForWsOpen_lasting fuel : forall k start timeout,
  safe (lasting b id) (waitForWsOpen fuel k start timeout).
Proof.
  induction fuel as [|fuel IH]; intros k start timeout; cbn [waitForWsOpen].
  - safe_go fail lasting_step.
  - safe_go ltac:(apply IH) lasting_step.
Qed.

Lemma safe_serialize_files_lasting dir files : forall out,
  safe (lasting b id) (serialize_files dir files out).
Proof.
  induction files as [|f files IH]; intros out; cbn [serialize_files].
  - safe_go fail lasting_step.
  - safe_go ltac:(apply IH) lasting_step.
Qed.

End LastingCode.

Ltac lasting_lemmas :=
  first [ apply safe_finalize_wait_lasting | apply safe_waitForWsOpen_lasting
        | apply safe_serialize_files_lasting
        | apply safe_startIdleTimer_lasting; assumption
        | apply safe_attachSSEToSession_lasting
        | apply safe_alloc_set_lasting; [assumption|] ].

Section LastingHandlers.
Context (b : bool) (id : string).

Lemma safe_idle_callback_lasting sid :
  sid <> id -> safe (lasting b id) (idle_callback sid).
Proof. intros Hne. safe_go lasting_lemmas lasting_step. Qed.

Lemma safe_get_events_lasting id' res : safe (lasting b id) (get_events id' res).
Proof. safe_go lasting_lemmas lasting_step. Qed.

Lemma safe_events_closed_lasting id' res :
  safe (lasting b id) (events_closed id' res).
Proof. safe_go lasting_lemmas lasting_step. Qed.

Lemma safe_creds_update_lasting sid dir :
  safe (lasting b id) (creds_update sid dir).
Proof. safe_go lasting_lemmas lasting_step. Qed.

Lemma safe_post_qr_lasting uuid res :
  uuid <> id -> safe (lasting b id) (post_qr uuid res).
Proof. intros Hne. safe_go lasting_lemmas lasting_step. Qed.

Lemma safe_qr_connection_update_lasting sid dir k res u :
  sid <> id -> safe (lasting b id) (qr_connection_update sid dir k res u).
Proof. intros Hne. safe_go lasting_lemmas lasting_step. Qed.

Lemma safe_pair_connection_update_lasting sid dir p k res u :
  sid <> id -> safe (lasting b id) (pair_connection_update sid dir p k res u).
Proof. intros Hne. safe_go lasting_lemmas lasting_step. Qed.

Lemma safe_start_pair_session_lasting uuid dir p res :
  uuid <> id -> safe (lasting b id) (start_pair_session uuid dir p res).
Proof. intros Hne. safe_go lasting_lemmas lasting_step. Qed.

(** [clearSession] is handed an id read from the phone index; it keeps
    the invariant because the index never holds [id]. *)
Lemma keeps_clearSession_lasting sid Q ok s :
  (ok -> sid <> id) -> (ok -> lasting b id s) ->
  (forall s', (ok -> lasting b id s') -> Q ok (Returned tt) s') ->
  keeps (lasting b id) (clearSession sid) Q ok s.
Proof.
  intros Hne Hs HQ. unfold clearSession. cbn -[truthy].
  destruct (sessions s !! sid) as [l|]; cbn -[truthy]; [|apply HQ, Hs].
  destruct (heap s !! l) as [o|]; cbn -[truthy].
  1: destruct (_idleTimer o), (socket o), (truthy (authDir o)),
       (truthy (phone o)) eqn:Hp; cbn -[truthy]; unfold unmap_phone;
       rewrite ?Hp; cbn -[truthy].
  all: repeat match goal with
         | |- context [decide ?P] => destruct (decide P); cbn -[truthy]
         end.
  all: repeat match goal with
         | |- _ /\ _ => split
         | |- False -> _ => intros []
         | |- forall (a : answer) (s' : State), _ =>
             let a := fresh "a" in let s' := fresh "s" in
             intros a s'; try destruct a; cbn; try exact (fun H => H)
         end.
  all: apply HQ; intros Hok; specialize (Hs Hok); specialize (Hne Hok).
  all: lasting_step.
Qed.

Lemma safe_post_pair_lasting p uuid res :
  uuid <> id -> safe (lasting b id) (post_pair p uuid res).
Proof.
  intros Hne.
  assert (Hrest : forall ph,
    safe (lasting b id)
      (_ ← await (CMkdir (auth_path uuid));
       start_pair_session uuid (auth_path uuid) ph res)).
  { intros ph. safe_go lasting_lemmas lasting_step. }
  unfold post_pair. destruct (truthy p) as [ph|].
  2: { safe_go lasting_lemmas lasting_step. }
  intros Q ok s Hs HQ.
  apply keeps_bind. cbn [activeByPhone_get get act keeps fst snd].
  apply keeps_bind.
  destruct (truthy (activeByPhone s !! ph)) as [existing|] eqn:Hex.
  - apply keeps_bind. cbn [logger put act keeps fst snd].
    apply keeps_clearSession_lasting.
    + intros Hok. destruct (Hs Hok) as [(_ & _ & Hp) _].
      apply (Hp ph). destruct (activeByPhone s !! ph) as [[|]|];
        cbn in Hex; congruence.
    + exact Hs.
    + intros s' Hs'. apply Hrest; assumption.
  - cbn. apply Hrest; assumption.
Qed.

End LastingHandlers.

Lemma lasting_settles b id c a s s' :
  settles c a s = Some s' -> lasting b id s -> lasting b id s'.
Proof.
  intros Hset Hs. destruct c, a; cbn in Hset; try discriminate Hset;
    try (destruct (decide _); [|discriminate Hset]);
    injection Hset as <-; exact Hs.
Qed.

Lemma lasting_react b b' id e s s' p :
  issues e <> Some id -> lasting b id s -> react e s = Some (s', p) ->
  lasting b id s' /\ safe (lasting b' id) p.
Proof.
  intros He Hs Hr. pose proof Hs as [(Ht & Hl & Hp) _].
  destruct e; cbn in Hr, He.
  - destruct (decide _); [|discriminate Hr]. injection Hr as <- <-.
    split; [exact Hs | apply safe_skip].
  - discriminate Hr.
  - destruct (timers s !! t) as [[sid due]|] eqn:Htm; [|discriminate Hr].
    destruct (decide _); [|discriminate Hr]. injection Hr as <- <-.
    split; [now apply lasting_timer_delete|].
    apply safe_idle_callback_lasting. apply (Ht _ _ Htm).
  - injection Hr as <- <-. split; [exact Hs | apply safe_get_events_lasting].
  - injection Hr as <- <-. split; [exact Hs|].
    apply safe_post_qr_lasting. congruence.
  - injection Hr as <- <-. split; [exact Hs|].
    apply safe_post_pair_lasting. congruence.
  - destruct (on_close (conn_of res s)); [|discriminate Hr].
    injection Hr as <- <-. split; [exact Hs | apply safe_events_closed_lasting].
  - destruct (on_creds (sock_of k s)) as [[sid dir]|]; [|discriminate Hr].
    injection Hr as <- <-. split; [exact Hs | apply safe_creds_update_lasting].
  - unfold sock_of in Hr.
    destruct (socks s !! k) as [c|] eqn:Hc; cbn in Hr; [|discriminate Hr].
    destruct (on_conn c) as [[sid dir res|sid dir ph res]|] eqn:Hon;
      [| |discriminate Hr]; injection Hr as <- <-; (split; [exact Hs|]).
    + apply safe_qr_connection_update_lasting. apply (Hl _ _ _ Hc Hon).
    + apply safe_pair_connection_update_lasting. apply (Hl _ _ _ Hc Hon).
  - injection Hr as <- <-. split; [|apply safe_skip].
    apply lasting_sock_alter; [|exact Hs]. intros c l H. left. exact H.
  - injection Hr as <- <-. split; [|apply safe_skip].
    apply lasting_sock_alter; [|exact Hs]. intros c l H. left. exact H.
Qed.

(** Opening the stream of an id: the record is the one the registry has
    for the id, or a fresh one; it is in the registry afterwards. *)
Lemma run_get_events id res s :
  exists s',
    run (get_events id res) s = (Finished tt, s', []) /\
    sessions s' !! id = Some (default (length (heap s)) (sessions s !! id)) /\
    (sessions s !! id = None ->
     heap s' !! length (heap s) = Some (set_sse (Some res) empty_session)) /\
    timers s' = timers s /\ socks s' = socks s /\
    activeByPhone s' = activeByPhone s.
Proof.
  unfold get_events, attachSSEToSession. cbn.
  destruct (sessions s !! id) as [l|] eqn:Hl; cbn.
  - eexists. split; [reflexivity|]. cbn. rewrite lookup_insert_eq.
    repeat split; auto. discriminate.
  - eexists. split; [reflexivity|]. cbn. rewrite lookup_insert_eq.
    repeat split; auto. intros _.
    rewrite list_lookup_alter_eq, lookup_snoc. reflexivity.
Qed.

(** Closing the stream: the record loses its [sse] field and stays. *)
Lemma run_events_closed id res s l :
  sessions s !! id = Some l ->
  exists s',
    run (events_closed id res) s = (Finished tt, s', []) /\
    sessions s' = sessions s /\
    heap s' = alter (set_sse None) l (heap s).
Proof.
  intros Hl. unfold events_closed. cbn. rewrite Hl. cbn.
  eexists. split; [reflexivity|]. split; reflexivity.
Qed.

Lemma lasting_boot b id idle : inv (lasting false id) (lasting b id) (boot idle).
Proof.
  split; [|split; constructor].
  split; [|split; [|split]].
  - split; [|split]; cbn; intros ? ?; try intros ?;
      rewrite ?lookup_empty, ?lookup_nil; discriminate.
  - intros sid l Hl. cbn in Hl. rewrite lookup_empty in Hl. discriminate Hl.
  - intros l Hl. cbn in Hl. rewrite lookup_empty in Hl. discriminate Hl.
  - discriminate.
Qed.

Lemma step_get_events_lasting id w w' :
  inv (lasting false id) (lasting true id) w ->
  step (GetEvents id) w = Some w' ->
  inv (lasting true id) (lasting true id) w'.
Proof.
  intros (Hs & Hp0 & Hp) Hstep.
  unfold step in Hstep. cbn [react] in Hstep. injection Hstep as <-.
  set (w0 := mkWorld (upd_conns (fun l => l ++ [new_conn]) (state w))
               (pool w) (unhandled w) (gave_up w)).
  destruct (spawn_safe (lasting false id)
              (get_events id (length (conns (state w)))) w0 True)
    as [_ Hst]; [apply safe_get_events_lasting; cbn; auto | exact Hp0 |].
  destruct (spawn_safe (lasting true id)
              (get_events id (length (conns (state w)))) w0 False)
    as [Hq _]; [apply safe_get_events_lasting; cbn; tauto | exact Hp |].
  specialize (Hst Logic.I). split; [|split; exact Hq].
  destruct Hst as (Hu & Ha & Hr & _).
  split; [exact Hu|]. split; [exact Ha|]. split; [exact Hr|].
  intros _. unfold spawn, w0. cbn [state].
  destruct (run_get_events id (length (conns (state w)))
              (upd_conns (fun l => l ++ [new_conn]) (state w)))
    as (s' & Hrun & Hsome & _).
  rewrite Hrun. cbn. rewrite Hsome. eauto.
Qed.

(** C10, as stated, fails: in the execution [stale_timer_run] the
    stream is opened for an id that is not in the registry, the record is
    made, and it is removed when the idle timer left by the finished
    session of that id goes off. *)
Lemma C10_counterexample :
  exists w1 w2,
    steps (take 9 stale_timer_run) (boot 300000) = Some w1 /\
    sessions (state w1) !! "u1" = None /\
    steps (take 10 stale_timer_run) (boot 300000) = Some w2 /\
    is_Some (sessions (state w2) !! "u1") /\
    exists w, steps stale_timer_run (boot 300000) = Some w /\
              sessions (state w) !! "u1" = None.
Proof.
  eexists _, _. split; [vm_compute; reflexivity|].
  split; [reflexivity|]. split; [vm_compute; reflexivity|].
  split; [eexists; reflexivity|].
  eexists. split; [vm_compute; reflexivity|]. reflexivity.
Qed.

(** C10 (amended).  Opening [GET /events/:id] for an id that is not in
    the registry puts a fresh record there that holds the stream and
    nothing else.  When the stream closes the record loses its [sse] field
    and stays in the registry.  And if no request was ever given [id] as
    its session id, the record is never removed: in every execution, at
    every point after the stream was opened, the id is in the registry,
    with a record that has no socket, no directory and no idle timer. *)
Theorem C10_stream_record (id : string) :
  (forall res s,
     sessions s !! id = None ->
     exists s',
       run (get_events id res) s = (Finished tt, s', []) /\
       sessions s' !! id = Some (length (heap s)) /\
       heap s' !! length (heap s)
       = Some (mkSession None None None (Some res) false None)) /\
  (forall res s l,
     sessions s !! id = Some l ->
     exists s',
       run (events_closed id res) s = (Finished tt, s', []) /\
       sessions s' !! id = Some l /\
       heap s' = alter (set_sse None) l (heap s)) /\
  (forall idle es1 es2 w,
     Forall (fun e => issues e <> Some id) (es1 ++ es2) ->
     steps (es1 ++ GetEvents id :: es2) (boot idle) = Some w ->
     exists l o,
       sessions (state w) !! id = Some l /\ heap (state w) !! l = Some o /\
       socket o = None /\ authDir o = None /\ _idleTimer o = None).
Proof.
  split; [|split].
  - intros res s Hnone.
    destruct (run_get_events id res s) as (s' & Hrun & Hs & Hh & _).
    exists s'. split; [exact Hrun|]. rewrite Hnone in Hs. cbn in Hs.
    split; [exact Hs | exact (Hh Hnone)].
  - intros res s l Hl.
    destruct (run_events_closed id res s l Hl) as (s' & Hrun & Hs & Hh).
    exists s'. split; [exact Hrun|]. split; [rewrite Hs; exact Hl | exact Hh].
  - intros idle es1 es2 w Hall Hsteps.
    apply Forall_app in Hall as [Hall1 Hall2].
    assert (Hsplit : exists w1 w2,
               steps es1 (boot idle) = Some w1 /\
               step (GetEvents id) w1 = Some w2 /\
               steps es2 w2 = Some w).
    { clear Hall1 Hall2. revert Hsteps. generalize (boot idle).
      induction es1 as [|e es1 IH]; intros w0 Hsteps.
      - change (match step (GetEvents id) w0 with
                | Some w' => steps es2 w'
                | None => None
                end = Some w) in Hsteps.
        destruct (step (GetEvents id) w0) as [w2|] eqn:Hstep; [|discriminate].
        exists w0, w2. repeat split; auto.
      - change (match step e w0 with
                | Some w' => steps (es1 ++ GetEvents id :: es2) w'
                | None => None
                end = Some w) in Hsteps.
        change (steps (e :: es1) w0) with
          (match step e w0 with Some w' => steps es1 w' | None => None end).
        destruct (step e w0) as [w1|]; [|discriminate]. apply IH, Hsteps. }
    destruct Hsplit as (w1 & w2 & H1 & H2 & H3).
    assert (Hw1 : inv (lasting false id) (lasting true id) w1).
    { apply (steps_inv (lasting false id) (lasting true id)
               (fun e => issues e <> Some id) (lasting_settles false id))
        with (es := es1) (w := boot idle);
        [|exact Hall1 | apply lasting_boot | exact H1].
      intros e s s' p He Hs Hr.
      destruct (lasting_react false false id e s s' p He Hs Hr) as [Ha Hb].
      destruct (lasting_react false true id e s s' p He Hs Hr) as [_ Hc].
      auto. }
    pose proof (step_get_events_lasting id w1 w2 Hw1 H2) as Hw2.
    assert (Hw : inv (lasting true id) (lasting true id) w).
    { apply (steps_inv (lasting true id) (lasting true id)
               (fun e => issues e <> Some id) (lasting_settles true id))
        with (es := es2) (w := w2); [|exact Hall2 | exact Hw2 | exact H3].
      intros e s s' p He Hs Hr.
      destruct (lasting_react true true id e s s' p He Hs Hr) as [Ha Hb].
      auto. }
    destruct Hw as [(_ & _ & Hrec & Hpresent) _].
    destruct (Hpresent eq_refl) as [l Hl].
    destruct (Hrec l Hl) as [(o & Ho & Hs1 & Hs2 & Hs3) _].
    exists l, o. auto.
Qed.

(** The stream of an id that was never a session id, opened while a QR
    login is under way, and closed again. *)
Example stream_record_stays :
  exists w, steps [PostQr "u1"; Settle 0 AUnit; GetEvents "x"; Settle 0 AUnit;
                   RequestClosed 1; Tick 300000; Expire 0;
                   Settle 0 AUnit; Settle 0 AUnit] (boot 300000)
            = Some w /\
            sessions (state w) !! "x" = Some 0 /\
            heap (state w) !! 0 = Some empty_session /\
            sessions (state w) !! "u1" = None.
Proof.
  eexists. split; [vm_compute; reflexivity|]. repeat split.
Qed.

(* ===================================================================== *)
(** * Part III: further properties of the code                            *)
(* ===================================================================== *)

(** ** The lifecycle functions, one call at a time *)

(** An id that is not in the registry: [startIdleTimer], [clearSession],
    [finalizeSession] and the idle-timeout callback all return at their
    first test, in one stretch, and leave the state as it is. *)
Theorem lifecycle_unregistered (sid : string) (s : State) :
  sessions s !! sid = None ->
  run (startIdleTimer sid) s = (Finished tt, s, []) /\
  run (clearSession sid) s = (Finished tt, s, []) /\
  (forall reason, run (finalizeSession sid reason) s = (Finished tt, s, [])) /\
  run (idle_callback sid) s = (Finished tt, s, []).
Proof.
  intros Hs. unfold startIdleTimer, clearSession, finalizeSession, idle_callback.
  cbn. rewrite Hs. cbn. repeat split.
Qed.

Lemma lifecycle_unregistered_witness :
  run (startIdleTimer "B") paired_state = (Finished tt, paired_state, []) /\
  run (clearSession "B") paired_state = (Finished tt, paired_state, []) /\
  (forall reason,
     run (finalizeSession "B" reason) paired_state
     = (Finished tt, paired_state, [])) /\
  run (idle_callback "B") paired_state = (Finished tt, paired_state, []).
Proof. apply (lifecycle_unregistered "B" paired_state). reflexivity. Defined.

(** [startIdleTimer] on a registered session: the timer the session
    had is cancelled, one new timer is set and the session remembers it;
    the registry and the other fields of the record are as before.  The
    new timer is due [IDLE_TIMEOUT] from now when that delay is between 1
    and [2^31 - 1] milliseconds, and one millisecond from now otherwise,
    which is what [setTimeout] makes of a delay out of its range. *)
Theorem startIdleTimer_resets (sid : string) (l : nat) (o : Session) (s : State) :
  sessions s !! sid = Some l -> heap s !! l = Some o ->
  exists s' due,
    run (startIdleTimer sid) s = (Finished tt, s', []) /\
    timers s'
    = <[next_timer s := (sid, due)]>
        (match _idleTimer o with
         | Some t => delete t (timers s)
         | None => timers s
         end) /\
    ((1 <= IDLE_TIMEOUT s <= 2147483647)%Z ->
     due = (now s + IDLE_TIMEOUT s)%Z) /\
    ((IDLE_TIMEOUT s < 1 \/ 2147483647 < IDLE_TIMEOUT s)%Z ->
     due = (now s + 1)%Z) /\
    next_timer s' = S (next_timer s) /\
    heap s' = <[l := set_idleTimer (Some (next_timer s)) o]> (heap s) /\
    sessions s' = sessions s /\
    activeByPhone s' = activeByPhone s /\ socks s' = socks s /\
    conns s' = conns s /\ disk s' = disk s.
Proof.
  intros Hl Ho. unfold startIdleTimer. cbn. rewrite Hl. cbn. rewrite Ho. cbn.
  assert (Hheap : forall h : list Session, h !! l = Some o ->
            alter (set_idleTimer (Some (next_timer s))) l h
            = <[l := set_idleTimer (Some (next_timer s)) o]> h).
  { intros h Hh. apply list_eq. intros i.
    destruct (decide (i = l)) as [->|Hne].
    - rewrite list_lookup_alter_eq, Hh.
      rewrite list_lookup_insert_eq by (eapply lookup_lt_Some; eauto).
      reflexivity.
    - rewrite list_lookup_alter_ne, list_lookup_insert_ne by auto.
      reflexivity. }
  assert (Hin : (1 <= IDLE_TIMEOUT s <= 2147483647)%Z ->
            (now s + timer_delay (IDLE_TIMEOUT s))%Z
            = (now s + IDLE_TIMEOUT s)%Z).
  { intros [H1 H2]. unfold timer_delay, TIMEOUT_MAX.
    apply Z.leb_le in H1, H2. now rewrite H1, H2. }
  assert (Hout : (IDLE_TIMEOUT s < 1 \/ 2147483647 < IDLE_TIMEOUT s)%Z ->
            (now s + timer_delay (IDLE_TIMEOUT s))%Z = (now s + 1)%Z).
  { intros H. unfold timer_delay, TIMEOUT_MAX.
    destruct (Z.leb_spec 1 (IDLE_TIMEOUT s));
      destruct (Z.leb_spec (IDLE_TIMEOUT s) 2147483647); cbn; lia. }
  destruct (_idleTimer o) as [t|]; cbn;
    eexists _, (now s + timer_delay (IDLE_TIMEOUT s))%Z;
    (split; [reflexivity|]); cbn; rewrite (Hheap _ Ho);
    (split; [reflexivity|]); (split; [exact Hin|]); (split; [exact Hout|]);
    repeat split; now apply insert_id.
Qed.

Lemma startIdleTimer_resets_witness :
  exists s' due,
    run (startIdleTimer "A") paired_state = (Finished tt, s', []) /\
    timers s'
    = <[next_timer paired_state := ("A", due)]>
        (match _idleTimer
                 (mkSession (Some "auth/A") (Some 0) (Some "15550001") None
                    false (Some 0)) with
         | Some t => delete t (timers paired_state)
         | None => timers paired_state
         end) /\
    ((1 <= IDLE_TIMEOUT paired_state <= 2147483647)%Z ->
     due = (now paired_state + IDLE_TIMEOUT paired_state)%Z) /\
    ((IDLE_TIMEOUT paired_state < 1 \/ 2147483647 < IDLE_TIMEOUT paired_state)%Z ->
     due = (now paired_state + 1)%Z) /\
    next_timer s' = S (next_timer paired_state) /\
    heap s' = <[0 := set_idleTimer (Some (next_timer paired_state))
                       (mkSession (Some "auth/A") (Some 0) (Some "15550001")
                          None false (Some 0))]> (heap paired_state) /\
    sessions s' = sessions paired_state /\
    activeByPhone s' = activeByPhone paired_state /\
    socks s' = socks paired_state /\
    conns s' = conns paired_state /\ disk s' = disk paired_state.
Proof.
  apply (startIdleTimer_resets "A" 0
           (mkSession (Some "auth/A") (Some 0) (Some "15550001") None false
              (Some 0)) paired_state); reflexivity.
Defined.

(** [clearSession] on a registered session: the idle timer of the
    session is cancelled, its socket is closed and asked to log out once,
    the id leaves the registry; clearing the same id again is then a
    no-op. *)
Theorem clearSession_once (sid : string) (l : nat) (o : Session) (s : State) :
  sessions s !! sid = Some l -> heap s !! l = Some o ->
  exists s' fs,
    run (clearSession sid) s = (Finished tt, s', fs) /\
    sessions s' = delete sid (sessions s) /\
    (forall t, _idleTimer o = Some t -> timers s' = delete t (timers s)) /\
    (forall k c, socket o = Some k -> socks s !! k = Some c ->
       socks s' !! k
       = Some (mkSock false true (S (logouts c)) (me c) (on_creds c)
                 (on_conn c))) /\
    run (clearSession sid) s' = (Finished tt, s', []).
Proof.
  intros Hl Ho.
  assert (Hagain : forall s', sessions s' = delete sid (sessions s) ->
            run (clearSession sid) s' = (Finished tt, s', [])).
  { intros s' Hs'. unfold clearSession. cbn.
    rewrite Hs', lookup_delete_eq. reflexivity. }
  unfold clearSession at 1. cbn -[truthy clearSession].
  rewrite Hl. cbn -[truthy clearSession]. rewrite Ho. cbn -[truthy clearSession].
  destruct (_idleTimer o) as [t|], (socket o) as [k|],
    (truthy (authDir o)), (truthy (phone o)) eqn:Hp;
    cbn -[truthy clearSession]; unfold unmap_phone; rewrite ?Hp;
    cbn -[truthy clearSession].
  all: repeat match goal with
         | |- context [decide ?P] =>
             destruct (decide P); cbn -[truthy clearSession]
         end.
  all: eexists _, _; split; [reflexivity|]; cbn -[clearSession].
  all: split; [reflexivity|].
  all: split; [intros ? [= <-]; reflexivity || discriminate|].
  all: split; [|apply Hagain; reflexivity].
  all: intros k' c [= <-] Hc || (intros k' c Hk'; discriminate Hk').
  all: rewrite !list_lookup_alter_eq, Hc; reflexivity.
Qed.

Lemma clearSession_once_witness :
  exists s' fs,
    run (clearSession "A") paired_state = (Finished tt, s', fs) /\
    sessions s' = delete "A" (sessions paired_state) /\
    (forall t, Some 0 = Some t -> timers s' = delete t (timers paired_state)) /\
    (forall k c, Some 0 = Some k -> socks paired_state !! k = Some c ->
       socks s' !! k
       = Some (mkSock false true (S (logouts c)) (me c) (on_creds c)
                 (on_conn c))) /\
    run (clearSession "A") s' = (Finished tt, s', []).
Proof.
  apply (clearSession_once "A" 0
           (mkSession (Some "auth/A") (Some 0) (Some "15550001") None false
              (Some 0)) paired_state); reflexivity.
Defined.

(** ** The event stream *)

(** [GET /events/:id] for an id that has a session: the headers are
    flushed, the record keeps all it had and now holds this stream, the
    stream is told [waiting], and nothing else changes: the stream the
    record held before is neither ended nor written to, the disk is not
    touched and nothing is awaited. *)
Theorem get_events_attaches (id : string) (res l : nat) (o : Session)
    (c : Conn) (s : State) :
  sessions s !! id = Some l -> heap s !! l = Some o ->
  conns s !! res = Some c -> ended c = false ->
  exists s',
    run (get_events id res) s = (Finished tt, s', []) /\
    sessions s' = sessions s /\
    heap s' = <[l := mkSession (authDir o) (socket o) (phone o) (Some res)
                       (credsSaved o) (_idleTimer o)]> (heap s) /\
    conns s' = <[res := mkConn true (sent c)
                          (written c ++ [("status", DStatus "waiting" None)])
                          false (resSent c) (Some id)]> (conns s) /\
    disk s' = disk s /\ timers s' = timers s /\ socks s' = socks s /\
    activeByPhone s' = activeByPhone s.
Proof.
  intros Hl Ho Hc He. unfold get_events, attachSSEToSession. cbn.
  rewrite Hl. cbn. eexists. split; [reflexivity|]. cbn.
  split; [now apply insert_id|]. split; [|split; [|auto]].
  - apply list_eq. intros i. destruct (decide (i = l)) as [->|Hne].
    + rewrite list_lookup_alter_eq, Ho.
      rewrite list_lookup_insert_eq by (eapply lookup_lt_Some; eauto).
      reflexivity.
    + rewrite list_lookup_alter_ne, list_lookup_insert_ne by auto.
      reflexivity.
  - apply list_eq. intros i. destruct (decide (i = res)) as [->|Hne].
    + rewrite !list_lookup_alter_eq, Hc.
      rewrite list_lookup_insert_eq by (eapply lookup_lt_Some; eauto).
      cbn. rewrite He. reflexivity.
    + rewrite !list_lookup_alter_ne, list_lookup_insert_ne by auto.
      reflexivity.
Qed.

Lemma get_events_attaches_witness :
  exists s',
    run (get_events "A" 0) paired_state = (Finished tt, s', []) /\
    sessions s' = sessions paired_state /\
    heap s' = <[0 := mkSession (Some "auth/A") (Some 0) (Some "15550001")
                       (Some 0) false (Some 0)]> (heap paired_state) /\
    conns s' = <[0 := mkConn true (sent new_conn)
                        (written new_conn ++ [("status", DStatus "waiting" None)])
                        false (resSent new_conn) (Some "A")]>
                 (conns paired_state) /\
    disk s' = disk paired_state /\ timers s' = timers paired_state /\
    socks s' = socks paired_state /\
    activeByPhone s' = activeByPhone paired_state.
Proof.
  apply (get_events_attaches "A" 0 0
           (mkSession (Some "auth/A") (Some 0) (Some "15550001") None false
              (Some 0)) new_conn paired_state); reflexivity.
Defined.

(** The [close] listener does not look at which stream was closed: when
    a request for the stream of [id] is closed, the record of [id] loses
    the stream it holds, also when that is a newer stream [res'], which
    stays open; what the server then reports for the session is written
    nowhere. *)
Theorem events_closed_detaches (id : string) (res res' l : nat) (o : Session)
    (s : State) :
  sessions s !! id = Some l -> heap s !! l = Some o ->
  sse o = Some res' -> res' <> res ->
  exists s',
    run (events_closed id res) s = (Finished tt, s', []) /\
    sessions s' !! id = Some l /\
    heap s' !! l = Some (set_sse None o) /\
    conns s' !! res' = conns s !! res' /\
    forall event data,
      run (sendSSE_if (Some l) event data) s' = (Finished tt, s', []).
Proof.
  intros Hl Ho Hsse Hne. unfold events_closed. cbn. rewrite Hl. cbn.
  eexists. split; [reflexivity|]. cbn.
  split; [exact Hl|].
  assert (Hrec : alter (set_sse None) l (heap s) !! l = Some (set_sse None o))
    by (rewrite list_lookup_alter_eq, Ho; reflexivity).
  split; [exact Hrec|].
  split; [now rewrite list_lookup_alter_ne|].
  intros event data. unfold sendSSE_if. cbn. rewrite Hrec. reflexivity.
Qed.

Lemma events_closed_detaches_witness :
  exists s',
    run (events_closed "A" 1) streamed_state = (Finished tt, s', []) /\
    sessions s' !! "A" = Some 0 /\
    heap s' !! 0
    = Some (set_sse None
              (mkSession (Some "auth/A") (Some 0) (Some "15550001") (Some 2)
                 false (Some 0))) /\
    conns s' !! 2 = conns streamed_state !! 2 /\
    forall event data,
      run (sendSSE_if (Some 0) event data) s' = (Finished tt, s', []).
Proof.
  apply (events_closed_detaches "A" 1 2 0
           (mkSession (Some "auth/A") (Some 0) (Some "15550001") (Some 2)
              false (Some 0)) streamed_state);
    [reflexivity | reflexivity | reflexivity | discriminate].
Defined.

(** ** The requests *)

(** [POST /pair] without a phone number (the field is missing or
    empty): the request is answered 400 at once; no directory is made,
    nothing is registered, no socket is opened, nothing is parked. *)
Theorem post_pair_requires_phone (uuid : string) (w : World) :
  forall p, p = None \/ p = Some "" ->
  exists w',
    step (PostPair p uuid) w = Some w' /\
    conns (state w')
    = conns (state w) ++
      [mkConn true
         [(400, JError "phoneNumber required in E.164 without plus" None)]
         [] true false None] /\
    sessions (state w') = sessions (state w) /\
    activeByPhone (state w') = activeByPhone (state w) /\
    socks (state w') = socks (state w) /\
    timers (state w') = timers (state w) /\
    disk (state w') = disk (state w) /\
    pool w' = pool w /\ unhandled w' = unhandled w.
Proof.
  intros p [-> | ->]; unfold step, react, post_pair, res_json; cbn [truthy];
    unfold spawn; cbn; unfold conn_of; cbn; rewrite lookup_snoc; cbn;
    (eexists; split; [reflexivity|]); cbn;
    rewrite alter_snoc, !app_nil_r; repeat split.
Qed.

Lemma post_pair_requires_phone_witness :
  exists w',
    step (PostPair (Some "") "B") (boot 300000) = Some w' /\
    conns (state w')
    = conns (state (boot 300000)) ++
      [mkConn true
         [(400, JError "phoneNumber required in E.164 without plus" None)]
         [] true false None] /\
    sessions (state w') = sessions (state (boot 300000)) /\
    activeByPhone (state w') = activeByPhone (state (boot 300000)) /\
    socks (state w') = socks (state (boot 300000)) /\
    timers (state w') = timers (state (boot 300000)) /\
    disk (state w') = disk (state (boot 300000)) /\
    pool w' = pool (boot 300000) /\ unhandled w' = unhandled (boot 300000).
Proof.
  apply (post_pair_requires_phone "B" (boot 300000) (Some "")).
  right. reflexivity.
Defined.

(** Following an execution one event at a time. *)
Lemma steps_settle_last es P c k a w s1 :
  pool w = P ++ [(c, k)] -> settles c a (state w) = Some s1 ->
  steps (Settle (length P) a :: es) w
  = steps es (spawn (k a) (mkWorld s1 P (unhandled w) (gave_up w))).
Proof.
  intros Hp Hs. cbn [steps]. unfold step.
  rewrite Hp, lookup_snoc, Hs, delete_snoc. reflexivity.
Qed.

Lemma spawn_blocked p w c k s :
  run p (state w) = (Blocked c k, s, []) ->
  spawn p w = mkWorld s (pool w ++ [(c, k)]) (unhandled w) (gave_up w).
Proof.
  intros Hr. unfold spawn. rewrite Hr. cbn.
  now rewrite app_nil_r, orb_false_r.
Qed.

Lemma spawn_finished p w s :
  run p (state w) = (Finished tt, s, []) ->
  spawn p w = mkWorld s (pool w) (unhandled w) (gave_up w).
Proof.
  intros Hr. unfold spawn. rewrite Hr. cbn.
  now rewrite !app_nil_r, orb_false_r.
Qed.

Lemma conn_of_new s :
  conn_of (length (conns s)) (upd_conns (fun l => l ++ [new_conn]) s) = new_conn.
Proof. unfold conn_of. cbn. now rewrite lookup_snoc. Qed.

(** [POST /qr] when the directory is made and the authentication state
    cannot be loaded: the [catch] block of the handler answers 500, the
    directory is removed again (or the failure to remove it logged), the
    handler ends normally, and no session, socket or timer is left. *)
Theorem post_qr_setup_failure (uuid e e' : string) (rm_ok : bool) (w : World) :
  exists w',
    steps [ PostQr uuid; Settle (length (pool w)) AUnit;
            Settle (length (pool w)) (AErr e);
            Settle (length (pool w)) (if rm_ok then AUnit else AErr e') ] w
    = Some w' /\
    conns (state w')
    = conns (state w) ++
      [mkConn true [(500, JError "failed to start qr session" None)] [] true
         false None] /\
    disk (state w')
    = (if rm_ok then (disk (state w) ∪ {[auth_path uuid]}) ∖ {[auth_path uuid]}
       else disk (state w) ∪ {[auth_path uuid]}) /\
    log (state w')
    = log (state w) ++ (Error, "QR flow failed")
        :: (if rm_ok then [] else [(Warn, "cleanup failed")]) /\
    sessions (state w') = sessions (state w) /\
    socks (state w') = socks (state w) /\
    timers (state w') = timers (state w) /\
    pool w' = pool w /\ unhandled w' = unhandled w.
Proof.
  change (steps (PostQr uuid :: ?es) w) with
    (steps es (spawn (post_qr uuid (length (conns (state w))))
                 (mkWorld (upd_conns (fun l => l ++ [new_conn]) (state w))
                    (pool w) (unhandled w) (gave_up w)))).
  erewrite spawn_blocked by reflexivity.
  erewrite steps_settle_last by reflexivity.
  erewrite spawn_blocked by reflexivity.
  erewrite steps_settle_last by reflexivity.
  cbn [state pool unhandled gave_up].
  erewrite spawn_blocked;
    [|repeat (progress (cbn -[auth_path]; unfold conn_of;
                          rewrite ?lookup_snoc)); reflexivity].
  destruct rm_ok; erewrite steps_settle_last by reflexivity;
    cbn [state pool unhandled gave_up steps];
    erewrite spawn_finished by reflexivity;
    (eexists; split; [reflexivity|]); cbn -[auth_path];
    rewrite alter_snoc, <- ?app_assoc; repeat split.
Qed.

(** The same for [POST /pair] for a phone without a session: 500, the
    directory removed again, and the phone index as it was. *)
Theorem post_pair_setup_failure (p uuid e e' : string) (rm_ok : bool)
    (w : World) :
  p <> "" -> activeByPhone (state w) !! p = None ->
  exists w',
    steps [ PostPair (Some p) uuid; Settle (length (pool w)) AUnit;
            Settle (length (pool w)) (AErr e);
            Settle (length (pool w)) (if rm_ok then AUnit else AErr e') ] w
    = Some w' /\
    conns (state w')
    = conns (state w) ++
      [mkConn true [(500, JError "failed to start pairing session" None)] []
         true false None] /\
    disk (state w')
    = (if rm_ok then (disk (state w) ∪ {[auth_path uuid]}) ∖ {[auth_path uuid]}
       else disk (state w) ∪ {[auth_path uuid]}) /\
    activeByPhone (state w') = activeByPhone (state w) /\
    sessions (state w') = sessions (state w) /\
    socks (state w') = socks (state w) /\
    timers (state w') = timers (state w) /\
    pool w' = pool w /\ unhandled w' = unhandled w.
Proof.
  intros Hp Hact.
  assert (Ht : truthy (Some p) = Some p) by (destruct p; [contradiction | reflexivity]).
  change (steps (PostPair (Some p) uuid :: ?es) w) with
    (steps es (spawn (post_pair (Some p) uuid (length (conns (state w))))
                 (mkWorld (upd_conns (fun l => l ++ [new_conn]) (state w))
                    (pool w) (unhandled w) (gave_up w)))).
  erewrite spawn_blocked;
    [|unfold post_pair; rewrite Ht; cbn -[auth_path start_pair_session];
      rewrite Hact; reflexivity].
  erewrite steps_settle_last by reflexivity.
  erewrite spawn_blocked by reflexivity.
  erewrite steps_settle_last by reflexivity.
  cbn [state pool unhandled gave_up].
  erewrite spawn_blocked;
    [|repeat (progress (cbn -[auth_path]; unfold conn_of;
                          rewrite ?lookup_snoc)); reflexivity].
  destruct rm_ok; erewrite steps_settle_last by reflexivity;
    cbn [state pool unhandled gave_up steps];
    erewrite spawn_finished by reflexivity;
    (eexists; split; [reflexivity|]); cbn -[auth_path];
    rewrite alter_snoc; repeat split.
Qed.

Lemma post_pair_setup_failure_witness :
  exists w',
    steps [ PostPair (Some "15550001") "B";
            Settle (length (pool (boot 300000))) AUnit;
            Settle (length (pool (boot 300000))) (AErr "EIO");
            Settle (length (pool (boot 300000)))
              (if true then AUnit else AErr "EBUSY") ] (boot 300000)
    = Some w' /\
    conns (state w')
    = conns (state (boot 300000)) ++
      [mkConn true [(500, JError "failed to start pairing session" None)] []
         true false None] /\
    disk (state w')
    = (if true
       then (disk (state (boot 300000)) ∪ {[auth_path "B"]}) ∖ {[auth_path "B"]}
       else disk (state (boot 300000)) ∪ {[auth_path "B"]}) /\
    activeByPhone (state w') = activeByPhone (state (boot 300000)) /\
    sessions (state w') = sessions (state (boot 300000)) /\
    socks (state w') = socks (state (boot 300000)) /\
    timers (state w') = timers (state (boot 300000)) /\
    pool w' = pool (boot 300000) /\ unhandled w' = unhandled (boot 300000).
Proof.
  apply (post_pair_setup_failure "15550001" "B" "EIO" "EBUSY" true
           (boot 300000)); [discriminate | reflexivity].
Defined.

(** [POST /pair] for a phone [p] whose session [old] is registered: in
    its first stretch the handler logs the clearing and clears [old]: the
    idle timer of [old] is cancelled, its socket is closed and asked to log
    out, [old] leaves the registry and the index no longer resolves [p].
    The handler is then suspended on the creation of the new directory
    with the new id registered nowhere.  Only when the directory exists
    and the authentication state is loaded does it register the new id:
    from then on the index maps [p] to the new id and to nothing else. *)
Theorem pair_supersedes_registered (p old new : string) (res l : nat)
    (o : Session) (s : State) :
  p <> "" -> old <> "" -> new <> old ->
  activeByPhone s !! p = Some old ->
  sessions s !! old = Some l -> heap s !! l = Some o -> phone o = Some p ->
  exists s1 fs k,
    run (post_pair (Some p) new res) s
    = (Blocked (CMkdir (auth_path new)) k, s1, fs) /\
    log s1
    = log s ++ [(Info, "clearing previous active pairing session for this phone")] /\
    sessions s1 = delete old (sessions s) /\
    activeByPhone s1 = delete p (activeByPhone s) /\
    timers s1 = match _idleTimer o with
                | Some t => delete t (timers s)
                | None => timers s
                end /\
    (forall n c, socket o = Some n -> socks s !! n = Some c ->
       socks s1 !! n
       = Some (mkSock false true (S (logouts c)) (me c) (on_creds c)
                 (on_conn c)) /\
       CLogout n ∈ map fst (parked fs)) /\
    (forall d, truthy (authDir o) = Some d -> CRm d ∈ map fst (parked fs)) /\
    conns s1 = conns s /\
    forall s2, exists k2,
      run (k AUnit) s2 = (Blocked (CAuthState (auth_path new)) k2, s2, []) /\
      forall s3, exists s4,
        run (k2 AUnit) s3 = (Finished tt, s4, []) /\
        sessions s4 !! new = Some (length (heap s3)) /\
        forall id, activeByPhone s4 !! p = Some id <-> id = new.
Proof.
  intros Hp Hold Hnew Hact Hl Hh Hph.
  assert (Ht : truthy (Some p) = Some p)
    by (destruct p; [contradiction | reflexivity]).
  assert (Ht' : truthy (Some old) = Some old)
    by (destruct old; [contradiction | reflexivity]).
  assert (Hrest : forall s2, exists k2,
            run (start_pair_session new (auth_path new) p res) s2
            = (Blocked (CAuthState (auth_path new)) k2, s2, []) /\
            forall s3, exists s4,
              run (k2 AUnit) s3 = (Finished tt, s4, []) /\
              sessions s4 !! new = Some (length (heap s3)) /\
              forall id, activeByPhone s4 !! p = Some id <-> id = new).
  { intros s2.
    destruct (run_start_pair_session new p res s2) as (k2 & Hk2 & Hreg).
    exists k2. split; [exact Hk2|].
    intros s3. destruct (Hreg s3) as (s4 & Hr & Ha & Hs4 & _).
    exists s4. split; [exact Hr|].
    split; [rewrite Hs4; apply lookup_insert_eq|].
    intros id. rewrite Ha, lookup_insert_eq. split; congruence. }
  unfold post_pair. rewrite Ht.
  cbn -[truthy auth_path start_pair_session].
  rewrite Hact, Ht'. cbn -[truthy auth_path start_pair_session].
  rewrite Hl. cbn -[truthy auth_path start_pair_session].
  rewrite Hh. cbn -[truthy auth_path start_pair_session].
  unfold unmap_phone. rewrite Hph, Ht.
  destruct (_idleTimer o) as [t|], (socket o) as [n|],
    (truthy (authDir o)) as [d|];
    cbn -[truthy auth_path start_pair_session];
    rewrite (decide_True _ _ Hact);
    cbn -[truthy auth_path start_pair_session].
  all: eexists _, _, _; split; [reflexivity|];
       cbn -[truthy auth_path start_pair_session].
  all: repeat (split; [reflexivity|]).
  all: split;
    [intros n' c Hn Hc;
     first [discriminate Hn
           |injection Hn as <-;
            split; [rewrite !list_lookup_alter_eq, Hc; reflexivity
                   |apply list_elem_of_In; cbn; tauto]]|].
  all: split;
    [intros d' Hd;
     first [discriminate Hd
           |injection Hd as <-; apply list_elem_of_In; cbn; tauto]|].
  all: split; [reflexivity|].
  all: exact Hrest.
Qed.

Lemma pair_supersedes_registered_witness :
  exists s1 fs k,
    run (post_pair (Some "15550001") "B" 1) paired_state
    = (Blocked (CMkdir (auth_path "B")) k, s1, fs) /\
    log s1
    = log paired_state
      ++ [(Info, "clearing previous active pairing session for this phone")] /\
    sessions s1 = delete "A" (sessions paired_state) /\
    activeByPhone s1 = delete "15550001" (activeByPhone paired_state) /\
    timers s1 = match Some 0%nat with
                | Some t => delete t (timers paired_state)
                | None => timers paired_state
                end /\
    (forall n c, Some 0%nat = Some n -> socks paired_state !! n = Some c ->
       socks s1 !! n
       = Some (mkSock false true (S (logouts c)) (me c) (on_creds c)
                 (on_conn c)) /\
       CLogout n ∈ map fst (parked fs)) /\
    (forall d, truthy (Some "auth/A") = Some d -> CRm d ∈ map fst (parked fs)) /\
    conns s1 = conns paired_state /\
    forall s2, exists k2,
      run (k AUnit) s2 = (Blocked (CAuthState (auth_path "B")) k2, s2, []) /\
      forall s3, exists s4,
        run (k2 AUnit) s3 = (Finished tt, s4, []) /\
        sessions s4 !! "B" = Some (length (heap s3)) /\
        forall id, activeByPhone s4 !! "15550001" = Some id <-> id = "B".
Proof.
  apply (pair_supersedes_registered "15550001" "A" "B" 1 0
           (mkSession (Some "auth/A") (Some 0) (Some "15550001") None false
              (Some 0)) paired_state);
    [discriminate | discriminate | discriminate
    | reflexivity | reflexivity | reflexivity | reflexivity].
Defined.

(** ** The listeners *)

Lemma run_mbind {A B : Type} (p : prog A) (g : A -> prog B) s :
  run (p ≫= g) s =
  let '(st, s', fs) := run p s in
  match st with
  | Finished a => let '(st', s'', fs') := run (g a) s' in (st', s'', fs ++ fs')
  | Failed e => (Failed e, s', fs)
  | Exhausted => (Exhausted, s', fs)
  | Blocked c k => (Blocked c (fun a => bind (k a) g), s', fs)
  end.
Proof. apply run_bind. Qed.

Lemma run_startIdleTimer sid s :
  exists s1,
    run (startIdleTimer sid) s = (Finished tt, s1, []) /\
    conns s1 = conns s /\ disk s1 = disk s /\ socks s1 = socks s.
Proof.
  unfold startIdleTimer. cbn.
  destruct (sessions s !! sid) as [l|]; cbn; [|eauto].
  destruct (_idleTimer _); cbn; eauto.
Qed.

(** Once the request of a flow is answered, an update that does not
    open the connection only restarts the idle timer (and logs a close).
    In the QR flow a refreshed code is not rendered, not returned and not
    written to the event stream; in the pairing flow no second code is
    asked for. *)
Theorem update_after_response (sid dir p : string) (k res : nat) (u : update)
    (s : State) :
  resSent (conn_of res s) = true -> connection u <> Some open ->
  run (qr_connection_update sid dir k res u) s
  = run (startIdleTimer sid;; log_closed u) s /\
  run (pair_connection_update sid dir p k res u) s
  = run (startIdleTimer sid;; log_closed u) s /\
  exists s',
    run (startIdleTimer sid;; log_closed u) s = (Finished tt, s', []) /\
    conns s' = conns s /\ disk s' = disk s /\ socks s' = socks s.
Proof.
  intros Hsent Hopen.
  destruct (run_startIdleTimer sid s) as (s1 & Hrun & Hc & Hd & Hk).
  assert (Hsent1 : resSent (conn_of res s1) = true)
    by (unfold conn_of in *; rewrite Hc; exact Hsent).
  unfold qr_connection_update, pair_connection_update.
  rewrite !run_mbind, Hrun.
  cbn -[truthy]. rewrite Hsent1.
  destruct u as [[[]|] lo q]; try (now contradiction Hopen);
    cbn -[truthy]; destruct (truthy q) eqn:Hq; cbn -[truthy];
    rewrite ?Hq; cbn; repeat split; eauto.
Qed.

Lemma update_after_response_witness :
  run (qr_connection_update "A" "auth/A" 0 0
         (mkUpdate None false (Some "2@abc"))) streamed_state
  = run (startIdleTimer "A";; log_closed (mkUpdate None false (Some "2@abc")))
      streamed_state /\
  run (pair_connection_update "A" "auth/A" "15550001" 0 0
         (mkUpdate None false (Some "2@abc"))) streamed_state
  = run (startIdleTimer "A";; log_closed (mkUpdate None false (Some "2@abc")))
      streamed_state /\
  exists s',
    run (startIdleTimer "A";; log_closed (mkUpdate None false (Some "2@abc")))
      streamed_state = (Finished tt, s', []) /\
    conns s' = conns streamed_state /\ disk s' = disk streamed_state /\
    socks s' = socks streamed_state.
Proof.
  apply (update_after_response "A" "auth/A" "15550001" 0 0
           (mkUpdate None false (Some "2@abc")) streamed_state);
    [reflexivity | discriminate].
Defined.

(** The [creds.update] listener, left alone: when the save succeeds the
    session, if it is still registered, is marked [credsSaved]; when the
    save fails the mark is not set and the listener is rejected. *)
Theorem creds_update_marks (sid dir : string) (s : State) :
  wp quiet_env (creds_update sid dir)
    (fun tr o s' =>
       (tr = [(CSaveCreds dir, AUnit)] /\ o = Returned tt /\
        s' = match sessions s !! sid with
             | Some l => upd_heap (alter (set_credsSaved true) l) s
             | None => s
             end) \/
       (exists e, tr = [(CSaveCreds dir, AErr e)] /\ o = Thrown e /\ s' = s))
    [] s.
Proof.
  unfold creds_update. cbn. intros a s' He.
  destruct a; try discriminate He; injection He as <-; cbn.
  - destruct (sessions s !! sid); cbn; left; auto.
  - right. eauto.
Qed.

(** ** The two waits of the pairing flow *)

Lemma wp_waitForWsOpen_step E fuel k start timeout Q tr s :
  wp E (waitForWsOpen (S fuel) k start timeout) Q tr s <->
  (if (now s - start <? timeout)%Z then
     if ws_ready (sock_of k s) then Q tr (Returned true) s
     else forall a s', E (CSleep (now s + 200)%Z) s a s' ->
            wp E (waitForWsOpen fuel k start timeout) Q
              (tr ++ [(CSleep (now s + 200)%Z, a)]) s'
   else Q tr (Returned false) s).
Proof.
  cbn -[waitForWsOpen]. cbn [waitForWsOpen].
  cbn -[waitForWsOpen].
  destruct (now s - start <? timeout)%Z; cbn -[waitForWsOpen]; [|reflexivity].
  destruct (ws_ready (sock_of k s)); cbn -[waitForWsOpen]; reflexivity.
Qed.

Lemma wp_waitForWsOpen_zero E k start timeout Q tr s :
  wp E (waitForWsOpen 0 k start timeout) Q tr s <->
  (if (now s - start <? timeout)%Z then
     if ws_ready (sock_of k s) then Q tr (Returned true) s
     else Q tr GaveUp s
   else Q tr (Returned false) s).
Proof.
  cbn. destruct (now s - start <? timeout)%Z; cbn; [|reflexivity].
  destruct (ws_ready (sock_of k s)); cbn; reflexivity.
Qed.

Lemma wp_waitForWsOpen E k start timeout fuel :
  sound_env E -> forall Q tr s,
  (start <= now s)%Z ->
  (timeout - (now s - start) <= 200 * Z.of_nat fuel)%Z ->
  (forall tr' r s',
     Forall (fun ca => exists due, ca = (CSleep due, AUnit) /\
                                   (due < start + timeout + 200)%Z) tr' ->
     (200 * Z.of_nat (length tr') < Z.max 0 (timeout - (now s - start)) + 200)%Z ->
     (if r : bool then ws_ready (sock_of k s') = true
      else (timeout <= now s' - start)%Z) ->
     Q (tr ++ tr') (Returned r) s') ->
  wp E (waitForWsOpen fuel k start timeout) Q tr s.
Proof.
  intros HE.
  induction fuel as [|fuel IH]; intros Q tr s Hstart Hfuel HQ.
  - apply wp_waitForWsOpen_zero.
    replace (now s - start <? timeout)%Z with false
      by (symmetry; apply Z.ltb_ge; lia).
    rewrite <- (app_nil_r tr). apply HQ; [constructor | cbn; lia | lia].
  - apply wp_waitForWsOpen_step.
    destruct (now s - start <? timeout)%Z eqn:Hlt.
    + apply Z.ltb_lt in Hlt.
      destruct (ws_ready (sock_of k s)) eqn:Hready.
      * rewrite <- (app_nil_r tr).
        apply HQ; [constructor | cbn; lia | exact Hready].
      * intros a s' He. apply HE in He as [s1 Hs1].
        apply settles_sleep in Hs1 as (-> & <- & Hdue).
        apply IH; [lia | lia |].
        intros tr' r s'' HF Hlen Hr. rewrite <- app_assoc. cbn [app].
        apply HQ; [|cbn [length]; lia | exact Hr].
        constructor; [|exact HF]. eexists. split; [reflexivity | lia].
    + apply Z.ltb_ge in Hlt. rewrite <- (app_nil_r tr).
      apply HQ; [constructor | cbn; lia | lia].
Qed.


(** [requestPairingCode] with its retry: the code is asked for once,
    and once more exactly when the first attempt failed with a message
    that contains [Connection Closed]; any other failure, and the failure
    of the second attempt, goes to the caller.  Left alone, the second
    attempt is made one second after the first failed. *)
Theorem request_code_retries_once (k : nat) (p : string) (s : State) :
  wp any_env (request_code k p)
    (fun tr o _ =>
       (exists code, tr = [(CRequestPairingCode k p, AStr code)] /\
                     o = Returned code) \/
       (exists e, tr = [(CRequestPairingCode k p, AErr e)] /\
                  includes "Connection Closed" e = false /\ o = Thrown e) \/
       (exists e due a,
          tr = [(CRequestPairingCode k p, AErr e); (CSleep due, AUnit);
                (CRequestPairingCode k p, a)] /\
          includes "Connection Closed" e = true /\
          match a with
          | AStr code => o = Returned code
          | AErr e2 => o = Thrown e2
          | _ => False
          end)) [] s /\
  wp quiet_env (request_code k p)
    (fun tr _ s' =>
       forall e due a,
         tr = [(CRequestPairingCode k p, AErr e); (CSleep due, AUnit);
               (CRequestPairingCode k p, a)] ->
         due = (now s + 1000)%Z /\ now s' = due) [] s.
Proof.
  split.
  - unfold request_code, await_str. cbn -[includes].
    intros a s1 [s0 Hs0].
    destruct a; try discriminate Hs0; cbn -[includes].
    + destruct (includes "Connection Closed" message) eqn:Hinc; cbn -[includes].
      * intros a1 s2 [s1' Hs1]. apply settles_sleep in Hs1 as (-> & _ & _).
        intros a2 s3 [s2' Hs2].
        destruct a2; try discriminate Hs2; cbn; right; right;
          eexists _, _, _; (split; [reflexivity|]); auto.
      * right. left. eauto.
    + left. eauto.
  - unfold request_code, await_str. cbn -[includes].
    intros a s1 Hs1.
    destruct a; try discriminate Hs1; injection Hs1 as <-; cbn -[includes].
    + destruct (includes "Connection Closed" message); cbn -[includes].
      * intros a1 s2 [-> ->]. intros a2 s3 Hs3.
        destruct a2; try discriminate Hs3; injection Hs3 as <-; cbn;
          intros e due a [= <- <- <-]; auto.
      * intros e due a Heq. discriminate Heq.
    + intros e due a Heq. discriminate Heq.
Qed.

(** ** Code that ends normally *)

Lemma wp_trace {A : Type} E (p : prog A) Q tr0 tr s :
  wp E p (fun tr' o s' => Q (tr0 ++ tr') o s') tr s ->
  wp E p Q (tr0 ++ tr) s.
Proof.
  revert Q tr s.
  induction p as [A a|A e|A|A B' f k IH|A c k IH|A p1 IH1 p2 IH2];
    intros Q tr s; cbn [wp]; auto.
  intros H a s' He. rewrite <- app_assoc. apply IH, H, He.
Qed.

Section Returns.
Context (E : environment).

Lemma returns_halts {A : Type} (p : prog A) : returns E p -> halts E p.
Proof. intros Hp Q tr s HQ. apply Hp. intros. apply HQ. discriminate. Qed.

Lemma returns_ret {A : Type} (a : A) : returns E (Ret a).
Proof. intros Q tr s HQ. apply HQ. Qed.

Lemma halts_throw {A : Type} e : halts E (@Throw A e).
Proof. intros Q tr s HQ. apply HQ. discriminate. Qed.

Lemma returns_act {A B : Type} (f : State -> B * State) (k : B -> prog A) :
  (forall b, returns E (k b)) -> returns E (Act f k).
Proof. intros Hk Q tr s HQ. cbn. apply Hk, HQ. Qed.

Lemma halts_act {A B : Type} (f : State -> B * State) (k : B -> prog A) :
  (forall b, halts E (k b)) -> halts E (Act f k).
Proof. intros Hk Q tr s HQ. cbn. apply Hk, HQ. Qed.

Lemma returns_await {A : Type} c (k : answer -> prog A) :
  (forall a, returns E (k a)) -> returns E (Await c k).
Proof. intros Hk Q tr s HQ. cbn. intros a s' _. apply Hk, HQ. Qed.

Lemma halts_await {A : Type} c (k : answer -> prog A) :
  (forall a, halts E (k a)) -> halts E (Await c k).
Proof. intros Hk Q tr s HQ. cbn. intros a s' _. apply Hk, HQ. Qed.

Lemma returns_fork {A : Type} (p : prog unit) (k : prog A) :
  returns E k -> returns E (Fork p k).
Proof. intros Hk Q tr s HQ. cbn. apply Hk, HQ. Qed.

Lemma returns_bind {A B : Type} (p : prog A) (g : A -> prog B) :
  returns E p -> (forall a, returns E (g a)) -> returns E (p ≫= g).
Proof.
  intros Hp Hg Q tr s HQ. apply wp_bind, Hp.
  intros tr' a s'. apply Hg, HQ.
Qed.

Lemma halts_bind {A B : Type} (p : prog A) (g : A -> prog B) :
  halts E p -> (forall a, halts E (g a)) -> halts E (p ≫= g).
Proof.
  intros Hp Hg Q tr s HQ. apply wp_bind, Hp.
  intros tr' [a|e|] s' Ho; [apply Hg, HQ | apply HQ; discriminate |].
  contradiction Ho. reflexivity.
Qed.

Lemma returns_try_catch {A : Type} (p : prog A) (h : string -> prog A) :
  halts E p -> (forall e, returns E (h e)) -> returns E (try_catch p h).
Proof.
  intros Hp Hh Q tr s HQ. apply wp_try_catch, Hp.
  intros tr' [a|e|] s' Ho; [apply HQ | apply Hh, HQ |].
  contradiction Ho. reflexivity.
Qed.

Lemma halts_try_catch {A : Type} (p : prog A) (h : string -> prog A) :
  halts E p -> (forall e, halts E (h e)) -> halts E (try_catch p h).
Proof.
  intros Hp Hh Q tr s HQ. apply wp_try_catch, Hp.
  intros tr' [a|e|] s' Ho; [apply HQ; discriminate | apply Hh, HQ |].
  contradiction Ho. reflexivity.
Qed.

End Returns.

Ltac ends_step lem :=
  first
    [ lem
    | lazymatch goal with
      | |- returns _ (Ret _) => apply returns_ret
      | |- returns _ (mret _) => apply returns_ret
      | |- returns _ skip => apply returns_ret
      | |- returns _ (mbind _ _) => apply returns_bind; [|intros ?]
      | |- returns _ (try_catch _ _) => apply returns_try_catch; [|intros ?]
      | |- returns _ (Fork _ _) => apply returns_fork
      | |- returns _ (Await _ _) => apply returns_await; intros ?
      | |- returns _ (Act _ _) => apply returns_act; intros ?
      | |- returns _ (match ?x with _ => _ end) => destruct x
      | |- returns _ ?p => let h := head_of p in progress unfold h
      | |- halts _ (Ret _) => apply returns_halts, returns_ret
      | |- halts _ (mret _) => apply returns_halts, returns_ret
      | |- halts _ skip => apply returns_halts, returns_ret
      | |- halts _ (Throw _) => apply halts_throw
      | |- halts _ (mbind _ _) => apply halts_bind; [|intros ?]
      | |- halts _ (try_catch _ _) => apply halts_try_catch; [|intros ?]
      | |- halts _ (Await _ _) => apply halts_await; intros ?
      | |- halts _ (Act _ _) => apply halts_act; intros ?
      | |- halts _ (match ?x with _ => _ end) => destruct x
      | |- halts _ ?p => let h := head_of p in progress unfold h
      end ].

Ltac ends_go lem := repeat ends_step lem.

Section ReturnsCode.
Context (E : environment) (HE : sound_env E).

Lemma returns_finalizeSession sid reason : returns E (finalizeSession sid reason).
Proof.
  intros Q tr s HQ. rewrite <- (app_nil_r tr). apply wp_trace.
  apply wp_finalizeSession; [exact HE|]. intros. apply HQ.
Qed.

Lemma returns_serialize_files dir files : forall out,
  returns E (serialize_files dir files out).
Proof.
  induction files as [|f files IH]; intros out; cbn [serialize_files].
  - ends_go fail.
  - ends_go ltac:(apply IH).
Qed.

(** [const start = Date.now()] and the loop of [waitForWsOpen]. *)
Lemma returns_waitForWsOpen {A : Type} k (g : bool -> prog A) :
  (forall r, returns E (g r)) ->
  returns E (start ← Date_now; ready ← waitForWsOpen loop_fuel k start 5000;
             g ready).
Proof.
  intros Hg Q tr s HQ. cbn -[waitForWsOpen loop_fuel].
  apply (wp_bind E (waitForWsOpen loop_fuel k (now s) 5000)).
  apply wp_waitForWsOpen; [exact HE | lia | unfold loop_fuel; lia |].
  intros tr' r s' _ _ _. apply Hg, HQ.
Qed.

Lemma returns_qr_connection_update sid dir k res u :
  returns E (qr_connection_update sid dir k res u).
Proof.
  ends_go ltac:(first [ apply returns_finalizeSession
                      | apply returns_serialize_files ]).
Qed.

Lemma returns_pair_connection_update sid dir p k res u :
  returns E (pair_connection_update sid dir p k res u).
Proof.
  ends_go ltac:(first [ apply returns_finalizeSession
                      | apply returns_serialize_files
                      | lazymatch goal with
                        | |- returns _ (Date_now ≫= _) =>
                            apply returns_waitForWsOpen; intros ?
                        end ]).
Qed.

Lemma returns_start_qr_session sid dir res :
  returns E (start_qr_session sid dir res).
Proof. ends_go fail. Qed.

Lemma returns_start_pair_session sid dir p res :
  returns E (start_pair_session sid dir p res).
Proof. ends_go fail. Qed.

End ReturnsCode.

Ltac flow_lemmas :=
  first [ apply returns_finalizeSession; assumption
        | apply returns_serialize_files
        | lazymatch goal with
          | |- returns _ (Date_now ≫= _) =>
              apply returns_waitForWsOpen; [assumption | intros ?]
          end ].

(** One statement of a listener that returns, and the rest. *)
Ltac wp_next :=
  apply wp_bind;
  lazymatch goal with
  | |- wp ?E ?p _ _ _ =>
      let H := fresh "H" in
      assert (H : returns E p) by (ends_go flow_lemmas);
      apply H; clear H; intros ? ? ?
  end.

(** Neither [connection.update] listener is ever rejected, whatever the
    operations it waits for answer and whatever happens meanwhile: a
    failure to render the code, to get a pairing code, to read the
    directory or to send the token is reported or logged where it happens.
    And once the connection is open the session is finalized: when the
    listener ends, the id is out of the registry (and, in the pairing
    flow, the phone no longer resolves to it), whether or not the token
    could be sent. *)
Theorem listeners_end_normally (sid dir p : string) (k res : nat) (u : update)
    (s : State) :
  wp any_env (qr_connection_update sid dir k res u)
    (fun _ o s' =>
       o = Returned tt /\
       (connection u = Some open -> sessions s' !! sid = None)) [] s /\
  wp any_env (pair_connection_update sid dir p k res u)
    (fun _ o s' =>
       o = Returned tt /\
       (connection u = Some open ->
        sessions s' !! sid = None /\ activeByPhone s' !! p <> Some sid)) [] s.
Proof.
  pose proof any_env_sound as HE. split.
  - unfold qr_connection_update. do 4 wp_next.
    destruct (connection u) as [[| |]|] eqn:Hu.
    2: { apply wp_bind. do 3 wp_next.
         match goal with |- wp _ _ _ ?tr _ => rewrite <- (app_nil_r tr) end.
         apply wp_trace, wp_finalizeSession; [exact HE|].
         intros trf sf Hnone _ _ _. unfold log_closed. rewrite Hu. cbn. auto. }
    all: wp_next; unfold log_closed; rewrite Hu; cbn; split; [reflexivity|];
      discriminate.
  - unfold pair_connection_update. do 4 wp_next.
    destruct (connection u) as [[| |]|] eqn:Hu.
    2: { apply wp_bind. do 2 wp_next. apply wp_bind.
         match goal with |- wp _ _ _ ?tr _ => rewrite <- (app_nil_r tr) end.
         apply wp_trace, wp_finalizeSession; [exact HE|].
         intros trf sf Hnone _ _ _. unfold log_closed. rewrite Hu. cbn.
         destruct (decide _) as [Hm|Hm]; cbn in *; (split; [reflexivity|]);
           intros _; (split; [apply lookup_delete_eq|]).
         - rewrite lookup_delete_eq. discriminate.
         - exact Hm. }
    all: wp_next; unfold log_closed; rewrite Hu; cbn; split; [reflexivity|];
      discriminate.
Qed.

Lemma wp_finished {A : Type} E (p : prog A) Q tr s a s' fs :
  run p s = (Finished a, s', fs) -> Q tr (Returned a) s' -> wp E p Q tr s.
Proof.
  revert Q tr s a s' fs.
  induction p as [A a0|A e|A|A B' f k IH|A c k IH|A p1 IH1 p2 IH2];
    intros Q tr s a s' fs; cbn.
  - intros [= -> ->]. auto.
  - discriminate.
  - discriminate.
  - destruct (f s) as [b s1]. cbn. apply IH.
  - discriminate.
  - destruct (run p1 s) as [[st1 s1] fs1]. cbn.
    destruct (run p2 s1) as [[st2 s2] fs2] eqn:H2.
    intros [= -> -> <-]. eapply IH2; eauto.
Qed.

(** A handler is rejected only where it creates the directory: once
    [mkdir] has succeeded, [POST /qr] and [POST /pair] end normally
    whatever happens, and a rejection is the failure of [mkdir] itself. *)
Theorem handlers_reject_only_on_mkdir (p uuid : string) (res : nat) (s : State) :
  p <> "" ->
  wp any_env (post_qr uuid res)
    (fun tr o _ =>
       o = Returned tt \/
       exists e, o = Thrown e /\ tr = [(CMkdir (auth_path uuid), AErr e)])
    [] s /\
  wp any_env (post_pair (Some p) uuid res)
    (fun tr o _ =>
       o = Returned tt \/
       exists e, o = Thrown e /\ tr = [(CMkdir (auth_path uuid), AErr e)])
    [] s.
Proof.
  intros Hp. pose proof any_env_sound as HE. split.
  - unfold post_qr. cbn -[auth_path start_qr_session].
    intros a s' _. destruct a; cbn -[auth_path start_qr_session];
      try (apply returns_start_qr_session; intros ? [] ?; left; reflexivity).
    right. eauto.
  - unfold post_pair.
    assert (Ht : truthy (Some p) = Some p) by (destruct p; [contradiction | reflexivity]).
    rewrite Ht.
    assert (Hrest : forall s',
              wp any_env
                (_ ← await (CMkdir (auth_path uuid));
                 start_pair_session uuid (auth_path uuid) p res)
                (fun tr o _ =>
                   o = Returned tt \/
                   exists e, o = Thrown e /\
                             tr = [(CMkdir (auth_path uuid), AErr e)])
                [] s').
    { intros s'. cbn -[auth_path start_pair_session].
      intros a' s'' _. destruct a'; cbn -[auth_path start_pair_session];
        try (apply returns_start_pair_session; intros ? [] ?; left; reflexivity).
      right. eauto. }
    apply wp_bind. cbn [activeByPhone_get get act wp fst snd].
    apply wp_bind.
    destruct (truthy (activeByPhone s !! p)) as [existing|].
    + apply wp_bind. cbn [logger put act wp fst snd].
      destruct (run_clearSession existing
                  (upd_log (fun l => l ++ [(Info, "clearing previous active pairing session for this phone")]) s))
        as (s1 & fs & Hrun & _).
      eapply wp_finished; [exact Hrun|]. apply Hrest.
    + cbn [skip wp]. apply Hrest.
Qed.

Lemma handlers_reject_only_on_mkdir_witness :
  wp any_env (post_qr "B" 1)
    (fun tr o _ =>
       o = Returned tt \/
       exists e, o = Thrown e /\ tr = [(CMkdir (auth_path "B"), AErr e)])
    [] paired_state /\
  wp any_env (post_pair (Some "15550001") "B" 1)
    (fun tr o _ =>
       o = Returned tt \/
       exists e, o = Thrown e /\ tr = [(CMkdir (auth_path "B"), AErr e)])
    [] paired_state.
Proof.
  apply (handlers_reject_only_on_mkdir "15550001" "B" 1 paired_state).
  discriminate.
Defined.

(** ** What [finalizeSession] leaves behind *)

(** From [keeps] to [wp]: code that keeps [I], in an environment that
    keeps [I], ends in a state where [I] holds. *)
Lemma keeps_wp {A : Type} (I : State -> Prop) E (p : prog A) :
  (forall c s a s', E c s a s' -> I s -> I s') ->
  forall ok tr s,
    keeps I p (ends_well I) ok s -> ok ->
    wp E p (fun _ _ s' => I s') tr s.
Proof.
  intros HE.
  induction p as [A a|A e|A|A B' f k IH|A c k IH|A p1 IH1 p2 IH2];
    intros ok tr s; cbn.
  - intros H Hok. exact (H Hok).
  - intros H Hok. exact (H Hok).
  - intros H Hok. exact (H Hok).
  - apply IH.
  - intros [Hs Hk] Hok a s' He.
    apply (IH a (I s')); [apply Hk | eapply HE; eauto].
  - intros [_ Hk]. apply IH2, Hk.
Qed.

Lemma safe_finalize_wait_timers T fuel : forall sid start l,
  safe (fun s => timers s = T) (finalize_wait fuel sid start l).
Proof.
  induction fuel as [|fuel IH]; intros sid start l; cbn [finalize_wait].
  - safe_go fail eassumption.
  - safe_go ltac:(apply IH) eassumption.
Qed.

(** [finalizeSession] never cancels a timer: left alone, it ends with
    the pending timers exactly as they were when it was called, so the
    idle timer of the session it has finalized is still pending. *)
Theorem finalizeSession_leaves_timers (sid reason : string) (s : State) :
  wp quiet_env (finalizeSession sid reason)
    (fun _ _ s' => timers s' = timers s) [] s.
Proof.
  apply (keeps_wp (fun s' => timers s' = timers s) quiet_env _) with (ok := True);
    [| |exact Logic.I].
  - intros c s0 a s' He Hs0. destruct c; cbn in He.
    1: { destruct He as [_ ->]. exact Hs0. }
    all: destruct a; try discriminate He; injection He as <-; exact Hs0.
  - assert (Hsafe : safe (fun s' => timers s' = timers s)
                      (finalizeSession sid reason))
      by (safe_go ltac:(apply safe_finalize_wait_timers) eassumption).
    apply Hsafe; [reflexivity | auto].
Qed.

(** ** The directory of a session *)

Section OwnDir.

Lemma own_dir_sessions_delete sid s :
  own_dir s -> own_dir (upd_sessions (delete sid) s).
Proof.
  intros [Ha Hd]. split.
  - intros sid' l Hl. cbn in Hl. apply lookup_delete_Some in Hl as [_ Hl].
    apply (Ha _ _ Hl).
  - intros sid' l o d Hl. cbn in Hl. apply lookup_delete_Some in Hl as [_ Hl].
    apply (Hd _ _ _ _ Hl).
Qed.

Lemma own_dir_sessions_reset sid l s :
  sessions s !! sid = Some l ->
  own_dir s -> own_dir (upd_sessions (insert sid l) s).
Proof.
  intros Hl Hs.
  assert (Heq : upd_sessions (insert sid l) s = s).
  { destruct s. unfold upd_sessions. cbn in *. f_equal. now apply insert_id. }
  rewrite Heq. exact Hs.
Qed.

Lemma own_dir_alloc_set sid o' s :
  (forall d, authDir o' = Some d -> d = auth_path sid) ->
  own_dir s ->
  own_dir (upd_sessions (insert sid (length (heap s)))
             (upd_heap (fun h => h ++ [o']) s)).
Proof.
  intros Ho' [Ha Hd]. split.
  - intros sid' l Hl. cbn in *. rewrite length_app. cbn.
    apply lookup_insert_Some in Hl as [[_ <-]|[_ Hl]]; [lia|].
    specialize (Ha _ _ Hl). lia.
  - intros sid' l o d Hl Ho Hdir. cbn in *.
    apply lookup_insert_Some in Hl as [[<- <-]|[_ Hl]].
    + rewrite lookup_snoc in Ho. injection Ho as <-. auto.
    + rewrite lookup_app_l in Ho by (eapply Ha; eauto). eauto.
Qed.

Lemma own_dir_heap_new o' s :
  own_dir s -> own_dir (upd_heap (fun h => h ++ [o']) s).
Proof.
  intros [Ha Hd]. split.
  - intros sid l Hl. cbn in *. rewrite length_app. specialize (Ha _ _ Hl). lia.
  - intros sid l o d Hl Ho. cbn in *.
    rewrite lookup_app_l in Ho by (eapply Ha; eauto). eauto.
Qed.

(** No field of a record is written but [sse], [credsSaved] and
    [_idleTimer]. *)
Lemma own_dir_heap_alter (f : Session -> Session) l' s :
  (forall o, authDir (f o) = authDir o) ->
  own_dir s -> own_dir (upd_heap (alter f l') s).
Proof.
  intros Hf [Ha Hd]. split.
  - intros sid l Hl. cbn in *. rewrite length_alter. eauto.
  - intros sid l o d Hl Ho Hdir. cbn in *.
    destruct (decide (l = l')) as [->|Hne].
    + rewrite list_lookup_alter_eq in Ho.
      destruct (heap s !! l') as [o0|] eqn:Ho0; [|discriminate Ho].
      injection Ho as <-. rewrite Hf in Hdir. eauto.
    + rewrite list_lookup_alter_ne in Ho by auto. eauto.
Qed.

End OwnDir.

Ltac own_dir_step1 :=
  first
    [ eassumption
    | apply own_dir_sessions_delete
    | apply own_dir_sessions_reset; [cbn; eassumption|]
    | apply own_dir_heap_new
    | apply own_dir_heap_alter; [intros ?; reflexivity|] ].

Ltac own_dir_step := solve [repeat own_dir_step1].

Lemma safe_startIdleTimer_own_dir sid : safe own_dir (startIdleTimer sid).
Proof.
  intros Q ok s Hs HQ. unfold startIdleTimer. cbn.
  destruct (sessions s !! sid) as [l|] eqn:Hl; cbn; [|apply HQ, Hs].
  destruct (_idleTimer _); cbn; apply HQ; intros Hok; specialize (Hs Hok);
    own_dir_step.
Qed.

Lemma safe_attachSSEToSession_own_dir id res :
  safe own_dir (attachSSEToSession id res).
Proof.
  intros Q ok s Hs HQ. unfold attachSSEToSession. cbn.
  destruct (sessions s !! id) as [l|] eqn:Hl; cbn; apply HQ; intros Hok;
    specialize (Hs Hok).
  - own_dir_step.
  - match goal with
    | |- own_dir ?S =>
        replace S with
          (upd_sessions (insert id (length (heap s)))
             (upd_heap (fun h => h ++ [set_sse (Some res) empty_session]) s))
          by (unfold upd_sessions, upd_heap; cbn; f_equal;
              symmetry; apply alter_snoc)
    end.
    apply own_dir_alloc_set; [|exact Hs]. discriminate.
Qed.

Lemma safe_alloc_set_own_dir sid k ph (rest : prog unit) :
  safe own_dir rest ->
  safe own_dir
    (l ← new_object (mkSession (Some (auth_path sid)) k ph None false None);
     sessions_set sid l;; rest).
Proof.
  intros Hrest Q ok s Hs HQ. cbn -[auth_path]. apply Hrest; [|exact HQ].
  intros Hok. apply own_dir_alloc_set; [|auto].
  cbn -[auth_path]. congruence.
Qed.

Lemma safe_finalize_wait_own_dir fuel : forall sid start l,
  safe own_dir (finalize_wait fuel sid start l).
Proof.
  induction fuel as [|fuel IH]; intros sid start l; cbn [finalize_wait].
  - safe_go fail own_dir_step.
  - safe_go ltac:(apply IH) own_dir_step.
Qed.

Lemma safe_waitForWsOpen_own_dir fuel : forall k start timeout,
  safe own_dir (waitForWsOpen fuel k start timeout).
Proof.
  induction fuel as [|fuel IH]; intros k start timeout; cbn [waitForWsOpen].
  - safe_go fail own_dir_step.
  - safe_go ltac:(apply IH) own_dir_step.
Qed.

Lemma safe_serialize_files_own_dir dir files : forall out,
  safe own_dir (serialize_files dir files out).
Proof.
  induction files as [|f files IH]; intros out; cbn [serialize_files].
  - safe_go fail own_dir_step.
  - safe_go ltac:(apply IH) own_dir_step.
Qed.

Ltac own_dir_lemmas :=
  idtac;
  lazymatch goal with
  | |- safe _ (finalize_wait _ _ _ _) => apply safe_finalize_wait_own_dir
  | |- safe _ (waitForWsOpen _ _ _ _) => apply safe_waitForWsOpen_own_dir
  | |- safe _ (serialize_files _ _ _) => apply safe_serialize_files_own_dir
  | |- safe _ (startIdleTimer _) => apply safe_startIdleTimer_own_dir
  | |- safe _ (attachSSEToSession _ _) => apply safe_attachSSEToSession_own_dir
  | |- safe _ (new_object _ ≫= _) => apply safe_alloc_set_own_dir
  end.

Lemma safe_idle_callback_own_dir sid : safe own_dir (idle_callback sid).
Proof. safe_go own_dir_lemmas own_dir_step. Qed.

Lemma safe_get_events_own_dir id res : safe own_dir (get_events id res).
Proof. safe_go own_dir_lemmas own_dir_step. Qed.

Lemma safe_events_closed_own_dir id res : safe own_dir (events_closed id res).
Proof. safe_go own_dir_lemmas own_dir_step. Qed.

Lemma safe_creds_update_own_dir sid dir : safe own_dir (creds_update sid dir).
Proof. safe_go own_dir_lemmas own_dir_step. Qed.

Lemma safe_post_qr_own_dir uuid res : safe own_dir (post_qr uuid res).
Proof. unfold post_qr. safe_go own_dir_lemmas own_dir_step. Qed.

Lemma safe_post_pair_own_dir p uuid res : safe own_dir (post_pair p uuid res).
Proof. unfold post_pair. safe_go own_dir_lemmas own_dir_step. Qed.

Lemma safe_qr_connection_update_own_dir sid dir k res u :
  safe own_dir (qr_connection_update sid dir k res u).
Proof. safe_go own_dir_lemmas own_dir_step. Qed.

Lemma safe_pair_connection_update_own_dir sid dir p k res u :
  safe own_dir (pair_connection_update sid dir p k res u).
Proof. safe_go own_dir_lemmas own_dir_step. Qed.

Lemma own_dir_react e s s' p :
  own_dir s -> react e s = Some (s', p) -> own_dir s' /\ safe own_dir p.
Proof.
  intros Hs Hr. destruct e; cbn in Hr.
  - destruct (decide _); [|discriminate Hr]. injection Hr as <- <-.
    split; [exact Hs | apply safe_skip].
  - discriminate Hr.
  - destruct (timers s !! t) as [[sid due]|]; [|discriminate Hr].
    destruct (decide _); [|discriminate Hr]. injection Hr as <- <-.
    split; [exact Hs | apply safe_idle_callback_own_dir].
  - injection Hr as <- <-. split; [exact Hs | apply safe_get_events_own_dir].
  - injection Hr as <- <-. split; [exact Hs | apply safe_post_qr_own_dir].
  - injection Hr as <- <-. split; [exact Hs | apply safe_post_pair_own_dir].
  - destruct (on_close (conn_of res s)); [|discriminate Hr].
    injection Hr as <- <-. split; [exact Hs | apply safe_events_closed_own_dir].
  - destruct (on_creds (sock_of k s)) as [[sid dir]|]; [|discriminate Hr].
    injection Hr as <- <-. split; [exact Hs | apply safe_creds_update_own_dir].
  - destruct (on_conn (sock_of k s)) as [[sid dir res|sid dir ph res]|];
      [| |discriminate Hr]; injection Hr as <- <-; (split; [exact Hs|]).
    + apply safe_qr_connection_update_own_dir.
    + apply safe_pair_connection_update_own_dir.
  - injection Hr as <- <-. split; [exact Hs | apply safe_skip].
  - injection Hr as <- <-. split; [exact Hs | apply safe_skip].
Qed.

Lemma own_dir_settles c a s s' :
  settles c a s = Some s' -> own_dir s -> own_dir s'.
Proof.
  intros Hset Hs. destruct c, a; cbn in Hset; try discriminate Hset;
    try (destruct (decide _); [|discriminate Hset]);
    injection Hset as <-; exact Hs.
Qed.

(** In every execution of the server, the directory a registered
    session holds is the directory made for its own id: what the
    lifecycle functions remove for a session is never the directory of
    another session, nor a path outside [auth/]. *)
Theorem session_owns_its_directory (idle : Z) (es : list event) (w : World)
    (sid d : string) (l : nat) (o : Session) :
  steps es (boot idle) = Some w ->
  sessions (state w) !! sid = Some l -> heap (state w) !! l = Some o ->
  authDir o = Some d ->
  d = auth_path sid.
Proof.
  intros Hsteps.
  assert (Hinv : inv own_dir own_dir w).
  { apply (steps_inv own_dir own_dir (fun _ => True) own_dir_settles)
      with (es := es) (w := boot idle).
    - intros e s s' p _ Hs Hr. destruct (own_dir_react e s s' p Hs Hr). auto.
    - apply Forall_forall. auto.
    - split; [|split; constructor]. split.
      + intros ? ? H. cbn in H. rewrite lookup_empty in H. discriminate H.
      + intros ? ? ? ? H. cbn in H. rewrite lookup_empty in H. discriminate H.
    - exact Hsteps. }
  destruct Hinv as [[_ Hd] _]. apply Hd.
Qed.

Lemma session_owns_its_directory_witness :
  "auth/B" = auth_path "B".
Proof.
  apply (session_owns_its_directory 300000 superseded_run
           (default (boot 300000) (steps superseded_run (boot 300000)))
           "B" "auth/B" 1
           (mkSession (Some "auth/B") (Some 1) (Some "15550001") None false
              (Some 2)));
    vm_compute; reflexivity.
Defined.

(** ** Handing over the token *)

Lemma exec_serialize_files_returns o dir files : forall out s,
  exists r cs, exec o (serialize_files dir files out) s = (Returned r, s, cs).
Proof.
  induction files as [|f files IH]; intros out s; cbn [serialize_files].
  - cbn. eauto.
  - cbn [exec].
    destruct (o (CStat (path_join dir f))) as [| | | |[]|]; cbn [exec];
      try (cbn; eauto; fail).
    + destruct (o (CReadFile (path_join dir f))); cbn [exec];
        try (cbn; eauto; fail).
      destruct (IH (JsObject.set out f (Base64.encode content)) s)
        as (r & cs & ->). eauto.
    + destruct (IH out s) as (r & cs & ->). eauto.
Qed.

Lemma exec_serializeAuthDir_returns o dir s :
  exists out s1 cs,
    exec o (serializeAuthDir dir) s = (Returned out, s1, cs) /\
    socks s1 = socks s /\ heap s1 = heap s /\ conns s1 = conns s.
Proof.
  unfold serializeAuthDir. cbn [exec].
  destruct (o (CReaddir dir)); try (cbn; eauto 10; fail).
  rewrite exec_bind.
  destruct (exec_serialize_files_returns o dir names [] s) as ([out err] & cs & ->).
  destruct err; cbn; eauto 10.
Qed.

Lemma truthy_jid p :
  truthy (Some (p +:+ "@s.whatsapp.net")) = Some (p +:+ "@s.whatsapp.net").
Proof. destruct p; reflexivity. Qed.


(** ** Ids chosen by a client *)

(** The id in [GET /events/:id] is whatever the client puts there.  In
    every execution, an id that the server did not generate for a flow has
    no idle timer, no protocol listener and no phone mapped to it; if it
    is in the registry, its record is bare and shared with no other id. *)
Theorem client_ids_stay_inert (idle : Z) (es : list event) (w : World)
    (id : string) :
  Forall (fun e => issues e <> Some id) es ->
  steps es (boot idle) = Some w ->
  unissued id (state w) /\ record_ok id (state w).
Proof.
  intros Hall Hsteps.
  assert (Hw : inv (lasting false id) (lasting false id) w).
  { apply (steps_inv (lasting false id) (lasting false id)
             (fun e => issues e <> Some id) (lasting_settles false id))
      with (es := es) (w := boot idle);
      [|exact Hall | apply lasting_boot | exact Hsteps].
    intros e s s' p He Hs Hr.
    destruct (lasting_react false false id e s s' p He Hs Hr). auto. }
  destruct Hw as [(Hu & _ & Hr & _) _]. auto.
Qed.

Lemma client_ids_stay_inert_witness :
  exists w,
    steps [PostQr "u1"; Settle 0 AUnit; GetEvents "x"; Settle 0 AUnit;
           RequestClosed 1] (boot 300000) = Some w /\
    unissued "x" (state w) /\ record_ok "x" (state w).
Proof.
  eexists. split; [vm_compute; reflexivity|].
  apply (client_ids_stay_inert 300000
           [PostQr "u1"; Settle 0 AUnit; GetEvents "x"; Settle 0 AUnit;
            RequestClosed 1]).
  - repeat constructor; discriminate.
  - vm_compute. reflexivity.
Defined.

(** ** The idle timeout seen from the stream *)

(** When the idle timer of a session with an open stream goes off, the
    stream is told [idle_timeout] and [finished] and is ended in the very
    first stretch of the callback, before the logout is even awaited: the
    session is still registered and its directory still on disk at that
    point. *)
Theorem idle_callback_notifies (sid : string) (l r k : nat) (o : Session)
    (c : Conn) (s : State) :
  sessions s !! sid = Some l -> heap s !! l = Some o ->
  sse o = Some r -> socket o = Some k ->
  conns s !! r = Some c -> ended c = false ->
  exists K s1,
    run (idle_callback sid) s = (Blocked (CLogout k) K, s1, []) /\
    conns s1 !! r
    = Some (mkConn (headersSent c) (sent c)
              (written c ++ [("status", DStatus "idle_timeout" None);
                             ("finished", DStatus "timeout_cleanup" None)])
              true (resSent c) (on_close c)) /\
    sessions s1 = sessions s /\ disk s1 = disk s.
Proof.
  intros Hl Ho Hsse Hsock Hc He. unfold idle_callback. cbn -[truthy].
  rewrite Hl. cbn -[truthy]. rewrite Ho. cbn -[truthy].
  rewrite Hsse, Hsock. cbn -[truthy].
  eexists _, _. split; [reflexivity|]. cbn.
  rewrite !list_lookup_alter_eq, Hc. cbn. rewrite He. cbn.
  rewrite <- app_assoc. auto.
Qed.

Lemma idle_callback_notifies_witness :
  exists K s1,
    run (idle_callback "A") streamed_state = (Blocked (CLogout 0) K, s1, []) /\
    conns s1 !! 2
    = Some (mkConn true []
              ([("status", DStatus "waiting" None)] ++
               [("status", DStatus "idle_timeout" None);
                ("finished", DStatus "timeout_cleanup" None)])
              true false (Some "A")) /\
    sessions s1 = sessions streamed_state /\ disk s1 = disk streamed_state.
Proof.
  apply (idle_callback_notifies "A" 0 2 0
           (mkSession (Some "auth/A") (Some 0) (Some "15550001") (Some 2)
              false (Some 0))
           (mkConn true [] [("status", DStatus "waiting" None)] false false
              (Some "A")) streamed_state); reflexivity.
Defined.
